(** * Twitter/X video auto-pause: a model of [content.js]

    The content script is an event-driven governor: it reacts to viewport
    intersections, to DOM mutations (debounced), to clicks and to the
    native 'play' event of the videos.  The development embeds every
    function of the script as a computation over an explicit world state
    (the script's three module variables together with the part of the
    host page the script reads and writes) and proves the behavioural
    claims of the specification about these functions. *)

From stdpp Require Import base decidable option list gmap sets strings functions.

Local Open Scope string_scope.
Local Open Scope list_scope.
Local Open Scope nat_scope.

#[local] Set Warnings "-clear-no-such-hyp".

(** ** The host page *)

(** A DOM element: identity, tag name, the [data-testid] attribute and
    the children in document order. *)
#[warnings="-register-all"]
Inductive Node : Type :=
| El (nid : nat) (tagName : string) (testid : option string) (children : list Node).

Definition node_id (n : Node) : nat := match n with El i _ _ _ => i end.
Definition node_tag (n : Node) : string := match n with El _ t _ _ => t end.
Definition node_testid (n : Node) : option string := match n with El _ _ a _ => a end.
Definition node_children (n : Node) : list Node := match n with El _ _ _ c => c end.

(** The descendants of a node in document (pre-)order, the node itself excluded. *)
Fixpoint descendants (n : Node) : list Node :=
  match n with
  | El _ _ _ kids =>
      (fix over (ks : list Node) : list Node :=
         match ks with
         | [] => []
         | k :: ks' => k :: descendants k ++ over ks'
         end) kids
  end.

(** The chain from the element [target] up to the root [n], nearest first. *)
Fixpoint ancestry (target : nat) (n : Node) : option (list Node) :=
  match n with
  | El i _ _ kids =>
      if decide (i = target) then Some [n]
      else
        match (fix over (ks : list Node) : option (list Node) :=
                 match ks with
                 | [] => None
                 | k :: ks' =>
                     match ancestry target k with
                     | Some p => Some p
                     | None => over ks'
                     end
                 end) kids with
        | Some p => Some (p ++ [n])
        | None => None
        end
  end.

Definition is_video (n : Node) : bool := bool_decide (node_tag n = "video").

(** The selector of [handleBodyClick]:
    [div[data-testid="videoComponent"], div[data-testid="videoPlayer"]]. *)
Definition matches_videoContainer (n : Node) : bool :=
  bool_decide (node_tag n = "div") &&
  (bool_decide (node_testid n = Some "videoComponent")
   || bool_decide (node_testid n = Some "videoPlayer")).

(** [target.closest(selector)]: the element itself or its nearest matching ancestor. *)
Definition closest (doc : Node) (target : nat) : option Node :=
  match ancestry target doc with
  | Some chain => find matches_videoContainer chain
  | None => None
  end.

(** [container.querySelector('video')]: the first video below the container. *)
Definition querySelector_video (container : Node) : option nat :=
  node_id <$> find is_video (descendants container).

(** [document.querySelectorAll('video')]. *)
Definition querySelectorAll_video (doc : Node) : list nat :=
  node_id <$> filter (λ n, is_video n = true) (doc :: descendants doc).

(** The part of a video element the script reads and writes. *)
Record VideoElem : Type := mkVideoElem {
  paused : bool;                          (* video.paused *)
  playListenerAttached : option string;   (* video.dataset.playListenerAttached *)
  playListener : bool                     (* handleVideoPlay listens to 'play' *)
}.

(** A possibly absent video reference, as JavaScript passes it. *)
Inductive Handle : Type :=
| Null
| Undefined
| Elem (video : nat).

(** The callbacks the script hands to [setTimeout]. *)
Inductive Callback : Type :=
| CbIntersectionTimeout (video : nat)   (* the 50 ms re-check of handleIntersection *)
| CbDebouncedScan                       (* the 300 ms timer of debouncedScanAndObserve *)
| CbInitialScan                         (* the 1000 ms start-up scan *)
| CbObserveDOMChanges.                  (* the 1500 ms start-up of the MutationObserver *)

Record Timer : Type := mkTimer { tid : nat; due : nat; callback : Callback }.

Inductive Exn : Type :=
| PauseFailed (video : nat)
| PlayFailed (video : nat).

(** The messages the script writes to the console. *)
Inductive LogLine : Type :=
| LScriptLoaded
| LPlayDetected (video : nat)
| LPlayNotUserInitiated
| LPlayListenerPaused
| LPlayListenerStillPlaying
| LPlayListenerError (e : Exn)
| LPlayAllowed
| LAttachingListener (video : nat)
| LChecking (context : string) (assertive : bool) (video : Handle)
| LVideoState (context : string) (isPaused isUserClicked : bool)
| LSkippedAssertive (context : string) (video : nat)
| LSkippedNormal (context : string) (isPaused isUserClicked : bool) (video : nat)
| LAttempting (context : string)
| LPausedOk (context : string) (video : nat)
| LStillPlaying (context : string) (video : nat)
| LPauseError (context : string) (e : Exn) (video : nat)
| LSkippedNull (context : string)
| LIntersecting (video : nat)
| LCreatingObserver
| LScanStart
| LScanFound (n : nat)
| LScanNewVideo (video : nat)
| LScanFinished
| LDebounceExpired
| LClickDetected (target : nat)
| LClickInContainer (container : nat)
| LClickFoundVideo (video : nat)
| LClickAdding
| LClickAlready
| LClickAttempting
| LClickPlayOk (video : nat)
| LClickPlayFailed (video : nat)
| LClickNoVideo
| LClickOutside
| LMutationObserverSetUp
| LInit (step : nat).

(** What the script does to the host, in the order it does it. *)
Inductive Effect : Type :=
| Pause (video : nat)                                  (* video.pause() *)
| Play (video : nat)                                   (* video.play() *)
| IntentAdd (video : nat)                              (* userClickedPlay.add(video) *)
| AddPlayListener (video : nat)                        (* video.addEventListener('play', ..) *)
| Observe (video : nat)                                (* intersectionObserver.observe(video) *)
| SetTimeout (id : nat) (delay : nat) (cb : Callback)
| ClearTimeout (id : option nat)
| AddClickListener                                     (* document.body.addEventListener *)
| ObserveMutations                                     (* mutationObserver.observe(body, ..) *)
| Log (line : LogLine)
| Uncaught (e : Exn).                                  (* an exception left a handler *)

(** ** The world: the script's module state and the host state it touches *)

Record World : Type := mkWorld {
  userClickedPlay : gset nat;       (* const userClickedPlay = new Set() *)
  observedVideos : gset nat;        (* const observedVideos = new WeakSet() *)
  debounceTimer : option nat;       (* let debounceTimer = null *)
  document : Node;                  (* document.body and what is below it *)
  elems : nat → VideoElem;          (* the elements' own state, by identity *)
  ioTargets : gset nat;             (* what intersectionObserver observes *)
  clickListener : bool;             (* handleBodyClick listens on the body *)
  mutationObserver : bool;          (* the MutationObserver is connected *)
  playPromises : list (nat * bool); (* unsettled play() promises: video, fulfils? *)
  timers : list Timer;              (* pending setTimeout timers *)
  nextTimerId : nat;
  now : nat                         (* milliseconds *)
}.

Definition set_userClickedPlay (s : gset nat) (w : World) : World :=
  mkWorld s (observedVideos w) (debounceTimer w) (document w) (elems w) (ioTargets w)
    (clickListener w) (mutationObserver w) (playPromises w) (timers w) (nextTimerId w) (now w).
Definition set_observedVideos (s : gset nat) (w : World) : World :=
  mkWorld (userClickedPlay w) s (debounceTimer w) (document w) (elems w) (ioTargets w)
    (clickListener w) (mutationObserver w) (playPromises w) (timers w) (nextTimerId w) (now w).
Definition set_debounceTimer (t : option nat) (w : World) : World :=
  mkWorld (userClickedPlay w) (observedVideos w) t (document w) (elems w) (ioTargets w)
    (clickListener w) (mutationObserver w) (playPromises w) (timers w) (nextTimerId w) (now w).
Definition set_document (d : Node) (w : World) : World :=
  mkWorld (userClickedPlay w) (observedVideos w) (debounceTimer w) d (elems w) (ioTargets w)
    (clickListener w) (mutationObserver w) (playPromises w) (timers w) (nextTimerId w) (now w).
Definition set_elems (e : nat → VideoElem) (w : World) : World :=
  mkWorld (userClickedPlay w) (observedVideos w) (debounceTimer w) (document w) e (ioTargets w)
    (clickListener w) (mutationObserver w) (playPromises w) (timers w) (nextTimerId w) (now w).
Definition set_ioTargets (s : gset nat) (w : World) : World :=
  mkWorld (userClickedPlay w) (observedVideos w) (debounceTimer w) (document w) (elems w) s
    (clickListener w) (mutationObserver w) (playPromises w) (timers w) (nextTimerId w) (now w).
Definition set_clickListener (b : bool) (w : World) : World :=
  mkWorld (userClickedPlay w) (observedVideos w) (debounceTimer w) (document w) (elems w)
    (ioTargets w) b (mutationObserver w) (playPromises w) (timers w) (nextTimerId w) (now w).
Definition set_mutationObserver (b : bool) (w : World) : World :=
  mkWorld (userClickedPlay w) (observedVideos w) (debounceTimer w) (document w) (elems w)
    (ioTargets w) (clickListener w) b (playPromises w) (timers w) (nextTimerId w) (now w).
Definition set_playPromises (p : list (nat * bool)) (w : World) : World :=
  mkWorld (userClickedPlay w) (observedVideos w) (debounceTimer w) (document w) (elems w)
    (ioTargets w) (clickListener w) (mutationObserver w) p (timers w) (nextTimerId w) (now w).
Definition set_timers (t : list Timer) (w : World) : World :=
  mkWorld (userClickedPlay w) (observedVideos w) (debounceTimer w) (document w) (elems w)
    (ioTargets w) (clickListener w) (mutationObserver w) (playPromises w) t (nextTimerId w) (now w).
Definition set_nextTimerId (n : nat) (w : World) : World :=
  mkWorld (userClickedPlay w) (observedVideos w) (debounceTimer w) (document w) (elems w)
    (ioTargets w) (clickListener w) (mutationObserver w) (playPromises w) (timers w) n (now w).
Definition set_now (n : nat) (w : World) : World :=
  mkWorld (userClickedPlay w) (observedVideos w) (debounceTimer w) (document w) (elems w)
    (ioTargets w) (clickListener w) (mutationObserver w) (playPromises w) (timers w)
    (nextTimerId w) n.

(** How the host answers a call of a playback primitive.  The answer may
    change from call to call, so it is a function of the world at the
    moment of the call. *)
Inductive PauseOutcome : Type :=
| PauseFlips          (* returns, video.paused becomes true *)
| PauseIneffective    (* returns, video.paused is left as it was *)
| PauseThrows.        (* raises synchronously *)

Inductive PlayOutcome : Type :=
| PlayFulfils         (* returns a promise that fulfils; video.paused becomes false *)
| PlayRejects         (* returns a promise that rejects *)
| PlayThrows.         (* raises synchronously *)

Record Host : Type := mkHost {
  pause_outcome : World → nat → PauseOutcome;
  play_outcome : World → nat → PlayOutcome
}.

(** ** Computations: state passing, JavaScript exceptions, recorded effects *)

Inductive Res (A : Type) : Type :=
| Ok (a : A)
| Throw (e : Exn).
Arguments Ok {A} a.
Arguments Throw {A} e.

(** A run ends with a value or an exception, leaves a world behind, and
    has performed effects, each stamped with the time it happened at. *)
Record Outcome (A : Type) : Type := mkOutcome {
  result : Res A;
  final : World;
  effects : list (nat * Effect)
}.
Arguments mkOutcome {A} _ _ _.
Arguments result {A} _.
Arguments final {A} _.
Arguments effects {A} _.

Definition M (A : Type) : Type := World → Outcome A.

Definition ret {A} (a : A) : M A := λ w, mkOutcome (Ok a) w [].

Definition bind {A B} (m : M A) (k : A → M B) : M B :=
  λ w, match m w with
       | mkOutcome (Ok a) w1 out1 =>
           match k a w1 with
           | mkOutcome r w2 out2 => mkOutcome r w2 (out1 ++ out2)
           end
       | mkOutcome (Throw e) w1 out1 => mkOutcome (Throw e) w1 out1
       end.

(** [try { body } catch (error) { handler }]: what [body] did before it
    raised stays done. *)
Definition tryCatch {A} (body : M A) (handler : Exn → M A) : M A :=
  λ w, match body w with
       | mkOutcome (Ok a) w1 out1 => mkOutcome (Ok a) w1 out1
       | mkOutcome (Throw e) w1 out1 =>
           match handler e w1 with
           | mkOutcome r w2 out2 => mkOutcome r w2 (out1 ++ out2)
           end
       end.

Declare Scope js_scope.
Delimit Scope js_scope with js.
Notation "'let!' x ':=' m 'in' k" := (bind m (λ x, k))
  (at level 10, x name, m at level 100, k at level 200) : js_scope.
Notation "m >> k" := (bind m (λ _, k))
  (at level 100, k at level 200, right associativity) : js_scope.
Local Open Scope js_scope.

Definition get {A} (f : World → A) : M A := λ w, mkOutcome (Ok (f w)) w [].
Definition modify (f : World → World) : M unit := λ w, mkOutcome (Ok tt) (f w) [].
Definition raise {A} (e : Exn) : M A := λ w, mkOutcome (Throw e) w [].

(** Performs an effect, recorded with the current time. *)
Definition emit (e : Effect) : M unit := λ w, mkOutcome (Ok tt) w [(now w, e)].

Definition log (l : LogLine) : M unit := emit (Log l).

(** [list.forEach(body)]: an exception of [body] ends the iteration. *)
Fixpoint forEach {A} (l : list A) (body : A → M unit) : M unit :=
  match l with
  | [] => ret tt
  | x :: l' => body x >> forEach l' body
  end.

(** ** Host primitives *)

Definition set_paused (v : nat) (b : bool) (w : World) : World :=
  set_elems (<[v := mkVideoElem b (playListenerAttached (elems w v)) (playListener (elems w v))]>
               (elems w)) w.

Definition set_playListenerAttached (v : nat) (s : string) (w : World) : World :=
  set_elems (<[v := mkVideoElem (paused (elems w v)) (Some s) (playListener (elems w v))]>
               (elems w)) w.

Definition set_playListener (v : nat) (w : World) : World :=
  set_elems (<[v := mkVideoElem (paused (elems w v)) (playListenerAttached (elems w v)) true]>
               (elems w)) w.

(** [setTimeout(cb, delay)] returns the identifier of the new timer. *)
Definition setTimeout (cb : Callback) (delay : nat) : M nat :=
  let! id := get nextTimerId in
  let! t := get now in
  emit (SetTimeout id delay cb) >>
  modify (λ w, set_nextTimerId (S id) (set_timers (timers w ++ [mkTimer id (t + delay) cb]) w)) >>
  ret id.

(** [clearTimeout(id)]: no effect for [null] or for a timer that is gone. *)
Definition clearTimeout (id : option nat) : M unit :=
  emit (ClearTimeout id) >>
  match id with
  | Some i => modify (λ w, set_timers (filter (λ t, tid t ≠ i) (timers w)) w)
  | None => ret tt
  end.

Section Script.

Variable host : Host.

(** [video.pause()] *)
Definition video_pause (v : nat) : M unit :=
  let! answer := get (λ w, pause_outcome host w v) in
  emit (Pause v) >>
  match answer with
  | PauseFlips => modify (set_paused v true)
  | PauseIneffective => ret tt
  | PauseThrows => raise (PauseFailed v)
  end.

(** [video.play()], returning whether the promise it returns will fulfil. *)
Definition video_play (v : nat) : M bool :=
  let! answer := get (λ w, play_outcome host w v) in
  emit (Play v) >>
  match answer with
  | PlayFulfils => modify (set_paused v false) >> ret true
  | PlayRejects => ret false
  | PlayThrows => raise (PlayFailed v)
  end.

(** ** The script *)

Definition intentHas (v : nat) : M bool := get (λ w, bool_decide (v ∈ userClickedPlay w)).

(** [handleVideoPlay(event)], lines 24-42; [video] is [event.target]. *)
Definition handleVideoPlay (video : nat) : M unit :=
  log (LPlayDetected video) >>
  let! has := intentHas video in
  if negb has then
    log LPlayNotUserInitiated >>
    tryCatch
      (video_pause video >>
       let! p := get (λ w, paused (elems w video)) in
       if p then log LPlayListenerPaused else log LPlayListenerStillPlaying)
      (λ error, log (LPlayListenerError error))
  else
    log LPlayAllowed.

(** [attachPlayListenerIfNeeded(video)], lines 48-54. *)
Definition attachPlayListenerIfNeeded (video : Handle) : M unit :=
  match video with
  | Elem v =>
      let! flag := get (λ w, playListenerAttached (elems w v)) in
      if bool_decide (flag ≠ Some "true") then
        log (LAttachingListener v) >>
        emit (AddPlayListener v) >>
        modify (set_playListener v) >>
        modify (set_playListenerAttached v "true")
      else ret tt
  | Null | Undefined => ret tt
  end.

(** [pauseVideoIfAppropriate(video, context, assertivePause)], lines 63-105. *)
Definition pauseVideoIfAppropriate (video : Handle) (context : string)
    (assertivePause : bool) : M unit :=
  attachPlayListenerIfNeeded video >>
  log (LChecking context assertivePause video) >>
  match video with
  | Elem v =>
      let! isPaused := get (λ w, paused (elems w v)) in
      let! isUserClicked := intentHas v in
      log (LVideoState context isPaused isUserClicked) >>
      let! shouldPause :=
        (if assertivePause then
           (if isUserClicked then log (LSkippedAssertive context v) else ret tt) >>
           ret (negb isUserClicked)
         else
           let shouldPause := negb isPaused && negb isUserClicked in
           (if negb shouldPause
            then log (LSkippedNormal context isPaused isUserClicked v) else ret tt) >>
           ret shouldPause) in
      if shouldPause : bool then
        tryCatch
          ((if negb isPaused || assertivePause then log (LAttempting context) else ret tt) >>
           video_pause v >>
           let! p := get (λ w, paused (elems w v)) in
           if p then log (LPausedOk context v) else log (LStillPlaying context v))
          (λ error, log (LPauseError context error v))
      else ret tt
  | Null | Undefined => log (LSkippedNull context)
  end.

End Script.

(** ** The visibility monitor *)

(** An [IntersectionObserverEntry]: the target, whether it is an
    [HTMLVideoElement], and [isIntersecting]. *)
Record IOEntry : Type := mkIOEntry {
  target : nat;
  targetIsVideo : bool;
  isIntersecting : bool
}.

(** The options of [createIntersectionObserver], lines 132-137:
    [threshold: 0.1], kept as a percentage. *)
Record IOOptions : Type := mkIOOptions { threshold_percent : nat }.

Definition createIntersectionObserver : M IOOptions :=
  log LCreatingObserver >> ret (mkIOOptions 10).

(** The delay of the re-check in [handleIntersection] and the quiet
    window of [debouncedScanAndObserve], in milliseconds. *)
Definition recheck_delay : nat := 50.
Definition quiet_window : nat := 300.

(** [intersectionObserver.observe(video)] *)
Definition io_observe (v : nat) : M unit :=
  emit (Observe v) >> modify (λ w, set_ioTargets ({[v]} ∪ ioTargets w) w).

(** ** The mutation watcher *)

Inductive MutationType : Type := ChildList | Attributes | CharacterData.

Record MutationRecord : Type := mkMutationRecord {
  mtype : MutationType;
  addedNodes : list nat;
  removedNodes : list nat
}.

(** The [for .. of] loop of lines 232-238, which stops at the first
    record that added or removed a node. *)
Fixpoint structuralChange (mutationsList : list MutationRecord) : bool :=
  match mutationsList with
  | [] => false
  | mutation :: rest =>
      if match mtype mutation with ChildList => true | _ => false end
         && ((0 <? length (addedNodes mutation))%nat || (0 <? length (removedNodes mutation))%nat)
      then true
      else structuralChange rest
  end.

(** ** The governor *)

Section Governor.

Variable host : Host.

(** The arrow function that [handleIntersection] applies to each entry,
    lines 115-126. *)
Definition intersectionEntry (entry : IOEntry) : M unit :=
  let video := target entry in
  if isIntersecting entry && targetIsVideo entry then
    log (LIntersecting video) >>
    pauseVideoIfAppropriate host (Elem video) "Intersection-Immediate" true >>
    let! _ := setTimeout (CbIntersectionTimeout video) recheck_delay in
    ret tt
  else ret tt.

(** [handleIntersection(entries, observer)], lines 113-127. *)
Definition handleIntersection (entries : list IOEntry) : M unit :=
  forEach entries intersectionEntry.

(** The arrow function that [scanAndObserveAllVideos] applies to each
    video, lines 151-165. *)
Definition scannedVideo (video : nat) : M unit :=
  attachPlayListenerIfNeeded (Elem video) >>
  let! seen := get (λ w, bool_decide (video ∈ observedVideos w)) in
  if negb seen then
    log (LScanNewVideo video) >>
    io_observe video >>
    modify (λ w, set_observedVideos ({[video]} ∪ observedVideos w) w) >>
    pauseVideoIfAppropriate host (Elem video) "Scan-InitialCheck" false
  else ret tt.

(** [scanAndObserveAllVideos()], lines 146-167. *)
Definition scanAndObserveAllVideos : M unit :=
  log LScanStart >>
  let! allVideos := get (λ w, querySelectorAll_video (document w)) in
  log (LScanFound (length allVideos)) >>
  forEach allVideos scannedVideo >>
  log LScanFinished.

(** [debouncedScanAndObserve()], lines 173-180. *)
Definition debouncedScanAndObserve : M unit :=
  let! pending := get debounceTimer in
  clearTimeout pending >>
  let! id := setTimeout CbDebouncedScan quiet_window in
  modify (set_debounceTimer (Some id)).

(** [handleBodyClick(event)], lines 188-218; [target] is [event.target].
    The promise that [video.play()] returns is recorded with its two
    reactions pending. *)
Definition handleBodyClick (target : nat) : M unit :=
  log (LClickDetected target) >>
  let! videoContainer := get (λ w, closest (document w) target) in
  match videoContainer with
  | Some container =>
      log (LClickInContainer (node_id container)) >>
      match querySelector_video container with
      | Some video =>
          attachPlayListenerIfNeeded (Elem video) >>
          log (LClickFoundVideo video) >>
          (let! has := intentHas video in
           if negb has then
             log LClickAdding >>
             emit (IntentAdd video) >>
             modify (λ w, set_userClickedPlay ({[video]} ∪ userClickedPlay w) w)
           else log LClickAlready) >>
          log LClickAttempting >>
          let! fulfils := video_play host video in
          modify (λ w, set_playPromises (playPromises w ++ [(video, fulfils)]) w)
      | None => log LClickNoVideo
      end
  | None => log LClickOutside
  end.

(** The [.then] and [.catch] reactions of line 207-211. *)
Definition playSettled (video : nat) (fulfilled : bool) : M unit :=
  if fulfilled then log (LClickPlayOk video) else log (LClickPlayFailed video).

(** The callback of the MutationObserver, lines 230-245. *)
Definition mutationCallback (mutationsList : list MutationRecord) : M unit :=
  let changed := structuralChange mutationsList in
  if changed then debouncedScanAndObserve else ret tt.

(** [observeDOMChanges()], lines 225-250. *)
Definition observeDOMChanges : M unit :=
  emit ObserveMutations >>
  modify (set_mutationObserver true) >>
  log LMutationObserverSetUp.

(** ** Script execution, lines 9-10, 140 and 252-272 *)

Definition script : M unit :=
  log LScriptLoaded >>
  let! intersectionObserver := createIntersectionObserver in
  emit AddClickListener >>
  modify (set_clickListener true) >>
  log (LInit 1) >>
  log (LInit 2) >>
  let! _ := setTimeout CbInitialScan 1000 in
  log (LInit 3) >>
  let! _ := setTimeout CbObserveDOMChanges 1500 in
  log (LInit 4).

(** What a timer does when it expires. *)
Definition runCallback (cb : Callback) : M unit :=
  match cb with
  | CbIntersectionTimeout video =>
      pauseVideoIfAppropriate host (Elem video) "Intersection-Timeout" true
  | CbDebouncedScan => log LDebounceExpired >> scanAndObserveAllVideos
  | CbInitialScan => log (LInit 5) >> scanAndObserveAllVideos
  | CbObserveDOMChanges => log (LInit 6) >> observeDOMChanges
  end.

End Governor.

(** ** The event loop of the host *)

(** What the page sends to the script, and what the page does by itself. *)
Inductive Event : Type :=
| EvClick (target : nat)                  (* a click, delivered to the body listener *)
| EvIntersection (entries : list IOEntry) (* the IntersectionObserver reports *)
| EvMutations (records : list MutationRecord)  (* the MutationObserver reports *)
| EvPlay (video : nat)                    (* the 'play' event of a video *)
| EvPromise                               (* the oldest play() promise settles *)
| EvAdvance (dt : nat)                    (* [dt] milliseconds pass *)
| EvHostPaused (video : nat) (p : bool)   (* the page changes video.paused *)
| EvHostDocument (doc : Node).            (* the page changes the document *)

(** The first timer of the list with the smallest expiry time. *)
Fixpoint earliest (ts : list Timer) : option Timer :=
  match ts with
  | [] => None
  | t :: ts' =>
      match earliest ts' with
      | Some u => if (due u <? due t)%nat then Some u else Some t
      | None => Some t
      end
  end.

Definition dueBy (t : nat) (ts : list Timer) : list Timer := filter (λ tm, due tm ≤ t) ts.

Definition Step : Type := World * list (nat * Effect).

(** A handler has returned: an exception it let through is reported by the host. *)
Definition settle (o : Outcome unit) : Step :=
  (final o,
   effects o ++ match result o with
                | Ok _ => []
                | Throw e => [(now (final o), Uncaught e)]
                end).

Section EventLoop.

Variable host : Host.

(** A timer expires: it leaves the pending timers, the clock reaches its
    expiry time, its callback runs. *)
Definition fire (tm : Timer) : M unit :=
  modify (λ w, set_now (now w `max` due tm)
                 (set_timers (filter (λ t, tid t ≠ tid tm) (timers w)) w)) >>
  runCallback host (callback tm).

(** Fires, in order of expiry, the timers that expire up to time [t]. *)
Fixpoint runTimers (fuel : nat) (t : nat) (w : World) : Step :=
  match fuel with
  | 0 => (w, [])
  | S fuel' =>
      match earliest (dueBy t (timers w)) with
      | Some tm =>
          let (w1, out1) := settle (fire tm w) in
          let (w2, out2) := runTimers fuel' t w1 in
          (w2, out1 ++ out2)
      | None => (w, [])
      end
  end.

(** No callback of the script starts a timer, so one round per pending
    timer is enough. *)
Definition advance (dt : nat) (w : World) : Step :=
  let t := now w + dt in
  let (w1, out) := runTimers (length (timers w)) t w in
  (set_now t w1, out).

Definition dispatch (ev : Event) (w : World) : Step :=
  match ev with
  | EvClick target =>
      if clickListener w then settle (handleBodyClick host target w) else (w, [])
  | EvIntersection entries => settle (handleIntersection host entries w)
  | EvMutations records =>
      if mutationObserver w then settle (mutationCallback records w) else (w, [])
  | EvPlay video =>
      if playListener (elems w video) then settle (handleVideoPlay host video w) else (w, [])
  | EvPromise =>
      match playPromises w with
      | (video, fulfilled) :: rest =>
          settle (playSettled video fulfilled (set_playPromises rest w))
      | [] => (w, [])
      end
  | EvAdvance dt => advance dt w
  | EvHostPaused video p => (set_paused video p w, [])
  | EvHostDocument doc => (set_document doc w, [])
  end.

Fixpoint run (evs : list Event) (w : World) : Step :=
  match evs with
  | [] => (w, [])
  | ev :: evs' =>
      let (w1, out1) := dispatch ev w in
      let (w2, out2) := run evs' w1 in
      (w2, out1 ++ out2)
  end.

End EventLoop.

(** The world at page load: nothing clicked, nothing observed, no timer. *)
Definition pageLoad (doc : Node) (videos : nat → VideoElem) : World :=
  mkWorld ∅ ∅ None doc videos ∅ false false [] [] 1 0.

(** The world once the script has been evaluated. *)
Definition boot (doc : Node) (videos : nat → VideoElem) : Step :=
  settle (script (pageLoad doc videos)).

(** ** Reading a trace *)

(** The calls of [video.pause()]. *)
Definition pauseOf (e : nat * Effect) : option nat :=
  match e.2 with Pause v => Some v | _ => None end.
Definition pauses (tr : list (nat * Effect)) : list nat := omap pauseOf tr.
Arguments pauses : simpl never.

(** The calls of [video.play()]. *)
Definition playOf (e : nat * Effect) : option nat :=
  match e.2 with Play v => Some v | _ => None end.
Definition plays (tr : list (nat * Effect)) : list nat := omap playOf tr.
Arguments plays : simpl never.

(** The 'play' listeners attached. *)
Definition attachmentOf (e : nat * Effect) : option nat :=
  match e.2 with AddPlayListener v => Some v | _ => None end.
Definition listenerAttachments (tr : list (nat * Effect)) : list nat := omap attachmentOf tr.
Arguments listenerAttachments : simpl never.

(** The registrations with the IntersectionObserver. *)
Definition registrationOf (e : nat * Effect) : option nat :=
  match e.2 with Observe v => Some v | _ => None end.
Definition registrations (tr : list (nat * Effect)) : list nat := omap registrationOf tr.
Arguments registrations : simpl never.

(** The calls of [pauseVideoIfAppropriate] in conservative mode, read
    from the line it logs on entry. *)
Definition conservativeCheckOf (e : nat * Effect) : option Handle :=
  match e.2 with Log (LChecking _ false h) => Some h | _ => None end.
Definition conservativeChecks (tr : list (nat * Effect)) : list Handle := omap conservativeCheckOf tr.
Arguments conservativeChecks : simpl never.

(** The times at which [scanAndObserveAllVideos] was entered. *)
Definition scanOf (e : nat * Effect) : option nat :=
  match e.2 with Log LScanStart => Some e.1 | _ => None end.
Definition scans (tr : list (nat * Effect)) : list nat := omap scanOf tr.
Arguments scans : simpl never.

(** The calls of [userClickedPlay.add]. *)
Definition grantOf (e : nat * Effect) : option nat :=
  match e.2 with IntentAdd v => Some v | _ => None end.
Definition grants (tr : list (nat * Effect)) : list nat := omap grantOf tr.
Arguments grants : simpl never.

(** The timers started: identifier, delay, callback. *)
Definition timeoutOf (e : nat * Effect) : option (nat * nat * Callback) :=
  match e.2 with SetTimeout i d cb => Some (i, d, cb) | _ => None end.
Definition timeouts (tr : list (nat * Effect)) : list (nat * nat * Callback) := omap timeoutOf tr.
Arguments timeouts : simpl never.

(** The exceptions that left a handler. *)
Definition uncaughtOf (e : nat * Effect) : option Exn :=
  match e.2 with Uncaught x => Some x | _ => None end.
Definition uncaught (tr : list (nat * Effect)) : list Exn := omap uncaughtOf tr.
Arguments uncaught : simpl never.

Definition isLog (e : Effect) : bool := match e with Log _ => true | _ => false end.

(** The timers that will run a scan. *)
Definition isScanTimer (tm : Timer) : bool :=
  match callback tm with
  | CbDebouncedScan | CbInitialScan => true
  | _ => false
  end.

Definition pendingScans (w : World) : list Timer :=
  filter (λ tm, isScanTimer tm = true) (timers w).

(** ** A sample page *)

Module Sample.

(** A tweet with a player (video 3), a bare video (5) outside any player,
    and a player whose video has not been inserted yet. *)
Definition page : Node :=
  El 0 "body" None
    [ El 1 "div" (Some "videoPlayer")
        [ El 2 "div" None [ El 3 "video" None [] ];
          El 4 "button" None [] ];
      El 5 "video" None [];
      El 6 "div" (Some "videoComponent") [ El 7 "span" None [] ] ].

Definition stopped : nat → VideoElem := λ _, mkVideoElem true None false.
Definition playing : nat → VideoElem := λ _, mkVideoElem false None false.

Definition obedient : Host := mkHost (λ _ _, PauseFlips) (λ _ _, PlayFulfils).
Definition stubborn : Host := mkHost (λ _ _, PauseIneffective) (λ _ _, PlayRejects).
Definition hostile : Host := mkHost (λ _ _, PauseThrows) (λ _ _, PlayThrows).
Definition brittle : Host := mkHost (λ _ _, PauseThrows) (λ _ _, PlayRejects).

(** The page 1.5 s after load, on a host whose [pause()] has no effect:
    the start-up scan has found both videos, which are still playing,
    and the MutationObserver is connected. *)
Definition ready : World := (run stubborn [EvAdvance 1500] (boot page playing).1).1.

(** A little later: video 5 has come into view, a node was inserted, and
    20 ms have passed, so a re-check and a debounced scan are pending. *)
Definition busy : World :=
  (run stubborn [EvIntersection [mkIOEntry 5 true true];
                 EvMutations [mkMutationRecord ChildList [8] []];
                 EvAdvance 20] ready).1.

(** The user has clicked the button inside the player of video 3. *)
Definition clicked : World := (run stubborn [EvClick 4] ready).1.

(** Video 3, reported as having come into view and as having left it. *)
Definition entering : IOEntry := mkIOEntry 3 true true.

(** A batch that inserted node 8, and one that only changed an attribute. *)
Definition insertion : list MutationRecord := [mkMutationRecord ChildList [8] []].
Definition restyling : list MutationRecord := [mkMutationRecord Attributes [] []].

End Sample.

(** ** Reasoning about computations *)

(** The functions of the script are opened by name only. *)
Arguments attachPlayListenerIfNeeded : simpl never.
Arguments pauseVideoIfAppropriate : simpl never.
Arguments handleVideoPlay : simpl never.
Arguments intersectionEntry : simpl never.
Arguments handleIntersection : simpl never.
Arguments scannedVideo : simpl never.
Arguments scanAndObserveAllVideos : simpl never.
Arguments debouncedScanAndObserve : simpl never.
Arguments handleBodyClick : simpl never.
Arguments mutationCallback : simpl never.
Arguments observeDOMChanges : simpl never.
Arguments runCallback : simpl never.
Arguments video_pause : simpl never.
Arguments video_play : simpl never.
Arguments querySelectorAll_video : simpl never.
Arguments querySelector_video : simpl never.
Arguments closest : simpl never.

Lemma pauses_nil : pauses [] = [].
Proof. done. Qed.
Lemma pauses_cons x tr : pauses (x :: tr) = option_list (pauseOf x) ++ pauses tr.
Proof. unfold pauses. cbn. by destruct (pauseOf x). Qed.
Lemma pauses_app a b : pauses (a ++ b) = pauses a ++ pauses b.
Proof. apply omap_app. Qed.
Lemma plays_nil : plays [] = [].
Proof. done. Qed.
Lemma plays_cons x tr : plays (x :: tr) = option_list (playOf x) ++ plays tr.
Proof. unfold plays. cbn. by destruct (playOf x). Qed.
Lemma plays_app a b : plays (a ++ b) = plays a ++ plays b.
Proof. apply omap_app. Qed.
Lemma listenerAttachments_nil : listenerAttachments [] = [].
Proof. done. Qed.
Lemma listenerAttachments_cons x tr : listenerAttachments (x :: tr) = option_list (attachmentOf x) ++ listenerAttachments tr.
Proof. unfold listenerAttachments. cbn. by destruct (attachmentOf x). Qed.
Lemma listenerAttachments_app a b : listenerAttachments (a ++ b) = listenerAttachments a ++ listenerAttachments b.
Proof. apply omap_app. Qed.
Lemma registrations_nil : registrations [] = [].
Proof. done. Qed.
Lemma registrations_cons x tr : registrations (x :: tr) = option_list (registrationOf x) ++ registrations tr.
Proof. unfold registrations. cbn. by destruct (registrationOf x). Qed.
Lemma registrations_app a b : registrations (a ++ b) = registrations a ++ registrations b.
Proof. apply omap_app. Qed.
Lemma conservativeChecks_nil : conservativeChecks [] = [].
Proof. done. Qed.
Lemma conservativeChecks_cons x tr : conservativeChecks (x :: tr) = option_list (conservativeCheckOf x) ++ conservativeChecks tr.
Proof. unfold conservativeChecks. cbn. by destruct (conservativeCheckOf x). Qed.
Lemma conservativeChecks_app a b : conservativeChecks (a ++ b) = conservativeChecks a ++ conservativeChecks b.
Proof. apply omap_app. Qed.
Lemma scans_nil : scans [] = [].
Proof. done. Qed.
Lemma scans_cons x tr : scans (x :: tr) = option_list (scanOf x) ++ scans tr.
Proof. unfold scans. cbn. by destruct (scanOf x). Qed.
Lemma scans_app a b : scans (a ++ b) = scans a ++ scans b.
Proof. apply omap_app. Qed.
Lemma grants_nil : grants [] = [].
Proof. done. Qed.
Lemma grants_cons x tr : grants (x :: tr) = option_list (grantOf x) ++ grants tr.
Proof. unfold grants. cbn. by destruct (grantOf x). Qed.
Lemma grants_app a b : grants (a ++ b) = grants a ++ grants b.
Proof. apply omap_app. Qed.
Lemma timeouts_nil : timeouts [] = [].
Proof. done. Qed.
Lemma timeouts_cons x tr : timeouts (x :: tr) = option_list (timeoutOf x) ++ timeouts tr.
Proof. unfold timeouts. cbn. by destruct (timeoutOf x). Qed.
Lemma timeouts_app a b : timeouts (a ++ b) = timeouts a ++ timeouts b.
Proof. apply omap_app. Qed.
Lemma uncaught_nil : uncaught [] = [].
Proof. done. Qed.
Lemma uncaught_cons x tr : uncaught (x :: tr) = option_list (uncaughtOf x) ++ uncaught tr.
Proof. unfold uncaught. cbn. by destruct (uncaughtOf x). Qed.
Lemma uncaught_app a b : uncaught (a ++ b) = uncaught a ++ uncaught b.
Proof. apply omap_app. Qed.

Create Rewrite HintDb trace.
#[export] Hint Rewrite
  pauses_nil pauses_cons pauses_app plays_nil plays_cons plays_app
  listenerAttachments_nil listenerAttachments_cons listenerAttachments_app registrations_nil registrations_cons registrations_app
  conservativeChecks_nil conservativeChecks_cons conservativeChecks_app scans_nil scans_cons scans_app
  grants_nil grants_cons grants_app timeouts_nil timeouts_cons timeouts_app
  uncaught_nil uncaught_cons uncaught_app : trace.

(** The fields of the world that only the governor's own state changes
    touch: everything but the videos' own state. *)
Record sameScript (w w' : World) : Prop := mkSameScript {
  same_userClickedPlay : userClickedPlay w' = userClickedPlay w;
  same_observedVideos : observedVideos w' = observedVideos w;
  same_debounceTimer : debounceTimer w' = debounceTimer w;
  same_document : document w' = document w;
  same_ioTargets : ioTargets w' = ioTargets w;
  same_clickListener : clickListener w' = clickListener w;
  same_mutationObserver : mutationObserver w' = mutationObserver w;
  same_playPromises : playPromises w' = playPromises w;
  same_timers : timers w' = timers w;
  same_nextTimerId : nextTimerId w' = nextTimerId w;
  same_now : now w' = now w
}.

Lemma sameScript_refl w : sameScript w w.
Proof. by constructor. Qed.

Lemma sameScript_trans w1 w2 w3 : sameScript w1 w2 → sameScript w2 w3 → sameScript w1 w3.
Proof. intros [] []. constructor; congruence. Qed.

(** Opens the straight-line functions of the script and splits on every
    test they make. *)
Ltac js_open :=
  unfold pauseVideoIfAppropriate, attachPlayListenerIfNeeded, handleVideoPlay,
    video_pause, video_play, intentHas, playSettled, log, emit, bind, get, modify,
    ret, raise, tryCatch.

Ltac js_split :=
  repeat (cbn [result final effects negb andb orb paused playListener playListenerAttached
                 elems userClickedPlay set_paused set_playListener set_playListenerAttached
                 set_elems now timers];
          rewrite ?fn_lookup_insert;
          match goal with
          | |- context [bool_decide ?P] => destruct (bool_decide P) eqn:?
          | |- context [paused ?e] => destruct (paused e) eqn:?
          | |- context [pause_outcome ?h ?w ?v] => destruct (pause_outcome h w v) eqn:?
          | |- context [play_outcome ?h ?w ?v] => destruct (play_outcome h w v) eqn:?
          end).

Section PlaybackGuard.

Variable host : Host.

(** What one enforcement call on a video does, in full. *)
Lemma pauseVideoIfAppropriate_spec (v : nat) (context : string) (assertive : bool) (w : World) :
  let o := pauseVideoIfAppropriate host (Elem v) context assertive w in
  result o = Ok tt
  ∧ sameScript w (final o)
  ∧ (∀ u, u ≠ v → elems (final o) u = elems w u)
  ∧ pauses (effects o) =
      (if (assertive || negb (paused (elems w v))) && negb (bool_decide (v ∈ userClickedPlay w))
       then [v] else [])
  ∧ conservativeChecks (effects o) = (if assertive then [] else [Elem v])
  ∧ registrations (effects o) = [] ∧ scans (effects o) = []
  ∧ plays (effects o) = [] ∧ uncaught (effects o) = []
  ∧ grants (effects o) = [] ∧ timeouts (effects o) = []
  ∧ Forall (λ e, e.1 = now w) (effects o).
Proof.
  js_open. destruct assertive; js_split; cbn.
  all: repeat split; try done.
  all: try (intros; rewrite ?fn_lookup_insert_ne by done; done).
  all: repeat constructor; done.
Qed.

Lemma attachPlayListenerIfNeeded_spec (v : nat) (w : World) :
  let o := attachPlayListenerIfNeeded (Elem v) w in
  result o = Ok tt
  ∧ sameScript w (final o)
  ∧ (∀ u, u ≠ v → elems (final o) u = elems w u)
  ∧ paused (elems (final o) v) = paused (elems w v)
  ∧ pauses (effects o) = [] ∧ conservativeChecks (effects o) = []
  ∧ registrations (effects o) = [] ∧ scans (effects o) = []
  ∧ plays (effects o) = [] ∧ uncaught (effects o) = []
  ∧ grants (effects o) = [] ∧ timeouts (effects o) = []
  ∧ Forall (λ e, e.1 = now w) (effects o).
Proof.
  js_open. js_split; cbn.
  all: repeat split; try done.
  all: try (intros; rewrite ?fn_lookup_insert_ne by done; done).
  all: repeat constructor; done.
Qed.

Lemma handleVideoPlay_spec (v : nat) (w : World) :
  let o := handleVideoPlay host v w in
  result o = Ok tt
  ∧ sameScript w (final o)
  ∧ (∀ u, u ≠ v → elems (final o) u = elems w u)
  ∧ pauses (effects o) = (if bool_decide (v ∈ userClickedPlay w) then [] else [v])
  ∧ conservativeChecks (effects o) = []
  ∧ registrations (effects o) = [] ∧ scans (effects o) = []
  ∧ plays (effects o) = [] ∧ uncaught (effects o) = []
  ∧ grants (effects o) = [] ∧ timeouts (effects o) = []
  ∧ Forall (λ e, e.1 = now w) (effects o).
Proof.
  js_open. js_split; cbn.
  all: repeat split; try done.
  all: try (intros; rewrite ?fn_lookup_insert_ne by done; done).
  all: repeat constructor; done.
Qed.

End PlaybackGuard.

(** ** Running a computation step by step *)

Lemma bind_run {A B} (m : M A) (k : A → M B) (w : World) :
  bind m k w =
    match result (m w) with
    | Ok a =>
        mkOutcome (result (k a (final (m w)))) (final (k a (final (m w))))
          (effects (m w) ++ effects (k a (final (m w))))
    | Throw e => mkOutcome (Throw e) (final (m w)) (effects (m w))
    end.
Proof.
  unfold bind. destruct (m w) as [[a|e] w1 out1]; cbn; [|done].
  by destruct (k a w1).
Qed.

Lemma forEach_cons {A} (x : A) (l : list A) (body : A → M unit) (w : World) :
  result (body x w) = Ok tt →
  forEach (x :: l) body w =
    mkOutcome (result (forEach l body (final (body x w))))
      (final (forEach l body (final (body x w))))
      (effects (body x w) ++ effects (forEach l body (final (body x w)))).
Proof. intros H. cbn [forEach]. by rewrite bind_run, H. Qed.

(** ** The visibility monitor, entry by entry *)

(** The videos an intersection report shows as having become visible. *)
Definition visible (entries : list IOEntry) : list nat :=
  target <$> filter (λ e, isIntersecting e && targetIsVideo e = true) entries.

(** The re-check timers started for them, numbered from [id]. *)
Fixpoint recheckTimers (id t : nat) (vs : list nat) : list Timer :=
  match vs with
  | [] => []
  | v :: vs' => mkTimer id t (CbIntersectionTimeout v) :: recheckTimers (S id) t vs'
  end.

(** What is left alone by a handler that only starts timers and touches videos. *)
Record sameGovernor (w w' : World) : Prop := mkSameGovernor {
  gov_userClickedPlay : userClickedPlay w' = userClickedPlay w;
  gov_observedVideos : observedVideos w' = observedVideos w;
  gov_debounceTimer : debounceTimer w' = debounceTimer w;
  gov_document : document w' = document w;
  gov_ioTargets : ioTargets w' = ioTargets w;
  gov_clickListener : clickListener w' = clickListener w;
  gov_mutationObserver : mutationObserver w' = mutationObserver w;
  gov_playPromises : playPromises w' = playPromises w;
  gov_now : now w' = now w
}.

Lemma sameScript_sameGovernor w w' : sameScript w w' → sameGovernor w w'.
Proof. intros []. by constructor. Qed.

Lemma sameGovernor_trans w1 w2 w3 :
  sameGovernor w1 w2 → sameGovernor w2 w3 → sameGovernor w1 w3.
Proof. intros [] []. constructor; congruence. Qed.

Section VisibilityMonitor.

Variable host : Host.

Lemma intersectionEntry_skip (e : IOEntry) (w : World) :
  isIntersecting e && targetIsVideo e = false →
  intersectionEntry host e w = mkOutcome (Ok tt) w [].
Proof. intros H. unfold intersectionEntry. by rewrite H. Qed.

Lemma intersectionEntry_spec (e : IOEntry) (w : World) :
  isIntersecting e && targetIsVideo e = true →
  let o := intersectionEntry host e w in
  let v := target e in
  result o = Ok tt
  ∧ sameGovernor w (final o)
  ∧ timers (final o) = timers w ++ [mkTimer (nextTimerId w) (now w + 50) (CbIntersectionTimeout v)]
  ∧ nextTimerId (final o) = S (nextTimerId w)
  ∧ pauses (effects o) = (if bool_decide (v ∈ userClickedPlay w) then [] else [v])
  ∧ timeouts (effects o) = [(nextTimerId w, 50, CbIntersectionTimeout v)]
  ∧ conservativeChecks (effects o) = [] ∧ registrations (effects o) = []
  ∧ scans (effects o) = [] ∧ plays (effects o) = [] ∧ uncaught (effects o) = []
  ∧ grants (effects o) = []
  ∧ Forall (λ x, x.1 = now w) (effects o).
Proof.
  intros Hvis. unfold intersectionEntry. rewrite Hvis.
  pose proof (pauseVideoIfAppropriate_spec host (target e) "Intersection-Immediate" true w) as H.
  destruct (pauseVideoIfAppropriate host _ _ _ w) as [r1 w1 out1] eqn:E.
  cbn in H. destruct H as (-> & Hs & _ & Hp & Hc & Hg & Hsc & Hpl & Hu & Hgr & Hto & Ht).
  unfold bind, log, emit, setTimeout, recheck_delay, get, modify, ret, bind.
  rewrite E. cbn. destruct Hs.
  repeat split; autorewrite with trace;
    rewrite ?Hp, ?Hc, ?Hg, ?Hsc, ?Hpl, ?Hu, ?Hgr, ?Hto; cbn; try done; try congruence.
  - by destruct (bool_decide _).
  - constructor; [done|]. apply Forall_app. split; [done|].
    repeat constructor; cbn; congruence.
Qed.

(** What [handleIntersection] does with a whole report. *)
Lemma handleIntersection_spec (entries : list IOEntry) (w : World) :
  let o := handleIntersection host entries w in
  result o = Ok tt
  ∧ sameGovernor w (final o)
  ∧ timers (final o) = timers w ++ recheckTimers (nextTimerId w) (now w + 50) (visible entries)
  ∧ nextTimerId (final o) = nextTimerId w + length (visible entries)
  ∧ pauses (effects o) = filter (λ v, v ∉ userClickedPlay w) (visible entries)
  ∧ timeouts (effects o) =
      (λ tm, (tid tm, 50, callback tm)) <$>
        recheckTimers (nextTimerId w) (now w + 50) (visible entries)
  ∧ conservativeChecks (effects o) = [] ∧ registrations (effects o) = []
  ∧ scans (effects o) = [] ∧ plays (effects o) = [] ∧ uncaught (effects o) = []
  ∧ grants (effects o) = []
  ∧ Forall (λ x, x.1 = now w) (effects o).
Proof.
  unfold handleIntersection. revert w.
  induction entries as [|e es IH]; intros w.
  { cbn. rewrite app_nil_r, Nat.add_0_r. repeat split; done. }
  destruct (isIntersecting e && targetIsVideo e) eqn:Hvis.
  - pose proof (intersectionEntry_spec e w Hvis) as H1.
    rewrite forEach_cons by apply H1.
    specialize (IH (final (intersectionEntry host e w))).
    destruct (intersectionEntry host e w) as [r1 w1 out1].
    cbn [result final effects] in H1, IH |- *.
    destruct (forEach es (intersectionEntry host) w1) as [r2 w2 out2].
    cbn [result final effects] in IH |- *.
    destruct H1 as (_ & Hs & Htm & Hn & Hp & Hto & Hc & Hg & Hsc & Hpl & Hu & Hgr & Ht).
    destruct IH as (Hr' & Hs' & Htm' & Hn' & Hp' & Hto' & Hc' & Hg' & Hsc' & Hpl' & Hu' & Hgr' & Ht').
    pose proof (sameGovernor_trans _ _ _ Hs Hs') as Hs''.
    destruct Hs as [Hic _ _ _ _ _ _ _ Hnow].
    rewrite Hic, Hnow, Hn in *.
    unfold visible in *. rewrite filter_cons_True by done.
    cbn [fmap list_fmap length recheckTimers].
    split_and!; autorewrite with trace;
      rewrite ?Hp, ?Hp', ?Hto, ?Hto', ?Hc, ?Hc', ?Hg, ?Hg', ?Hsc, ?Hsc',
        ?Hpl, ?Hpl', ?Hu, ?Hu', ?Hgr, ?Hgr'; try done.
    + rewrite Htm', Htm. by rewrite <- app_assoc.
    + rewrite Hn'. lia.
    + rewrite filter_cons. destruct (bool_decide_reflect (target e ∈ userClickedPlay w));
        case_decide; done.
    + apply Forall_app. split; done.
  - rewrite forEach_cons by (by rewrite intersectionEntry_skip).
    rewrite intersectionEntry_skip by done. cbn [result final effects app].
    unfold visible in *. rewrite filter_cons_False by (by rewrite Hvis).
    specialize (IH w). by destruct (forEach es _ w).
Qed.

End VisibilityMonitor.

(** ** The discovery scanner, video by video *)

(** What a scan leaves alone: everything but the observed set, the
    IntersectionObserver's targets and the videos' own state. *)
Record sameButObserved (w w' : World) : Prop := mkSameButObserved {
  scan_userClickedPlay : userClickedPlay w' = userClickedPlay w;
  scan_debounceTimer : debounceTimer w' = debounceTimer w;
  scan_document : document w' = document w;
  scan_clickListener : clickListener w' = clickListener w;
  scan_mutationObserver : mutationObserver w' = mutationObserver w;
  scan_playPromises : playPromises w' = playPromises w;
  scan_timers : timers w' = timers w;
  scan_nextTimerId : nextTimerId w' = nextTimerId w;
  scan_now : now w' = now w
}.

Lemma sameScript_sameButObserved w w' : sameScript w w' → sameButObserved w w'.
Proof. intros []. by constructor. Qed.

Lemma sameButObserved_refl w : sameButObserved w w.
Proof. by constructor. Qed.

Lemma sameButObserved_trans w1 w2 w3 :
  sameButObserved w1 w2 → sameButObserved w2 w3 → sameButObserved w1 w3.
Proof. intros [] []. constructor; congruence. Qed.

Section DiscoveryScanner.

Variable host : Host.

Lemma scannedVideo_spec (v : nat) (w : World) :
  let o := scannedVideo host v w in
  let fresh := negb (bool_decide (v ∈ observedVideos w)) in
  result o = Ok tt
  ∧ sameButObserved w (final o)
  ∧ observedVideos (final o) = {[v]} ∪ observedVideos w
  ∧ registrations (effects o) = (if fresh then [v] else [])
  ∧ conservativeChecks (effects o) = (if fresh then [Elem v] else [])
  ∧ pauses (effects o) =
      (if fresh && negb (paused (elems w v)) && negb (bool_decide (v ∈ userClickedPlay w))
       then [v] else [])
  ∧ scans (effects o) = [] ∧ plays (effects o) = [] ∧ uncaught (effects o) = []
  ∧ grants (effects o) = [] ∧ timeouts (effects o) = []
  ∧ Forall (λ x, x.1 = now w) (effects o).
Proof.
  unfold scannedVideo. rewrite bind_run.
  pose proof (attachPlayListenerIfNeeded_spec v w) as H1.
  destruct (attachPlayListenerIfNeeded (Elem v) w) as [r1 w1 out1].
  cbn [result final effects] in H1 |- *.
  destruct H1 as (-> & Hs1 & _ & Hpa1 & Hp1 & Hc1 & Hg1 & Hsc1 & Hpl1 & Hu1 & Hgr1 & Hto1 & Ht1).
  rewrite bind_run. cbn [get result final effects].
  pose proof (sameScript_sameButObserved _ _ Hs1) as Hf1.
  destruct Hs1 as [Hic Hob Hdt Hdoc Hio Hcl Hmo Hpp Htm Hni Hnow].
  rewrite Hob.
  destruct (bool_decide_reflect (v ∈ observedVideos w)) as [Hseen|Hseen];
    cbn [negb andb ret result final effects].
  - rewrite !app_nil_r.
    split_and!; [done|done| |done..].
    rewrite Hob. apply set_eq. intros u.
    rewrite elem_of_union, elem_of_singleton. naive_solver.
  - unfold log, io_observe.
    repeat (rewrite bind_run; cbn [emit modify result final effects]).
    match goal with
    | |- context [pauseVideoIfAppropriate host ?h ?c ?a ?w'] =>
        pose proof (pauseVideoIfAppropriate_spec host v c a w') as H2;
        destruct (pauseVideoIfAppropriate host h c a w') as [r2 w2 out2]
    end.
    cbn in H2.
    destruct H2 as (-> & Hs2 & _ & Hp2 & Hc2 & Hg2 & Hsc2 & Hpl2 & Hu2 & Hgr2 & Hto2 & Ht2).
    cbn. destruct Hs2 as [Hic2 Hob2 Hdt2 Hdoc2 Hio2 Hcl2 Hmo2 Hpp2 Htm2 Hni2 Hnow2]. cbn in *.
    rewrite Hpa1, Hic in Hp2.
    split_and!; autorewrite with trace;
      rewrite ?Hp1, ?Hc1, ?Hg1, ?Hsc1, ?Hpl1, ?Hu1, ?Hgr1, ?Hto1,
        ?Hp2, ?Hc2, ?Hg2, ?Hsc2, ?Hpl2, ?Hu2, ?Hgr2, ?Hto2; cbn; try done.
    + constructor; congruence.
    + congruence.
    + apply Forall_app. split; [done|].
      repeat (constructor; [done|]). by rewrite <- Hnow.
Qed.

End DiscoveryScanner.

Section ScanLoop.

Variable host : Host.

(** The loop of [scanAndObserveAllVideos] over the videos found. *)
Lemma scanLoop_spec (videos : list nat) (w : World) :
  let o := forEach videos (scannedVideo host) w in
  result o = Ok tt
  ∧ sameButObserved w (final o)
  ∧ observedVideos (final o) = list_to_set videos ∪ observedVideos w
  ∧ NoDup (registrations (effects o))
  ∧ (∀ u, u ∈ registrations (effects o) ↔ u ∈ videos ∧ u ∉ observedVideos w)
  ∧ conservativeChecks (effects o) = Elem <$> registrations (effects o)
  ∧ (∀ u, u ∈ pauses (effects o) → u ∉ userClickedPlay w)
  ∧ scans (effects o) = [] ∧ plays (effects o) = [] ∧ uncaught (effects o) = []
  ∧ grants (effects o) = [] ∧ timeouts (effects o) = []
  ∧ Forall (λ x, x.1 = now w) (effects o).
Proof.
  revert w. induction videos as [|v vs IH]; intros w.
  { cbn. split_and!; try done.
    - apply set_eq. intros u. set_solver.
    - constructor.
    - intros u. rewrite registrations_nil. set_solver.
    - intros u. rewrite pauses_nil. set_solver. }
  pose proof (scannedVideo_spec host v w) as H1.
  rewrite forEach_cons by apply H1.
  specialize (IH (final (scannedVideo host v w))).
  destruct (scannedVideo host v w) as [r1 w1 out1].
  cbn [result final effects] in H1, IH |- *.
  destruct (forEach vs (scannedVideo host) w1) as [r2 w2 out2].
  cbn [result final effects] in IH |- *.
  destruct H1 as (_ & Hs & Hob & Hg & Hc & Hp & Hsc & Hpl & Hu & Hgr & Hto & Ht).
  destruct IH as (Hr' & Hs' & Hob' & Hnd' & Hg' & Hc' & Hp' & Hsc' & Hpl' & Hu' & Hgr' & Hto' & Ht').
  pose proof (sameButObserved_trans _ _ _ Hs Hs') as Hs''.
  destruct Hs as [Hic _ _ _ _ _ _ _ Hnow].
  rewrite Hic, Hnow, Hob in *.
  split_and!; autorewrite with trace;
    rewrite ?Hsc, ?Hsc', ?Hpl, ?Hpl', ?Hu, ?Hu', ?Hgr, ?Hgr', ?Hto, ?Hto'; try done.
  - rewrite Hob'. apply set_eq. intros u. cbn. set_solver.
  - rewrite Hg. apply list.NoDup_app. split_and!; [|intros u Hu1 Hu2|done].
    + destruct (negb _); [apply NoDup_singleton | constructor].
    + apply Hg' in Hu2. destruct (negb _); set_solver.
  - intros u. rewrite elem_of_app, Hg', Hg, elem_of_cons, not_elem_of_union, elem_of_singleton.
    destruct (bool_decide_reflect (v ∈ observedVideos w)) as [Hv|Hv]; cbn [negb].
    + rewrite elem_of_nil. split; [intros [[]|(? & ? & ?)]; by auto|].
      intros [[->|?] ?]; [done|]. right. split_and!; [done| |done]. by intros ->.
    + rewrite list_elem_of_singleton.
      destruct (decide (u = v)) as [->|Hne]; [by split; auto|].
      split; [intros [?|(? & ? & ?)]; by auto|]. intros [[?|?] ?]; by auto.
  - rewrite Hc, Hc', Hg, fmap_app. by destruct (negb _).
  - intros u. rewrite elem_of_app, Hp. intros [Hin|Hin]; [|by apply Hp'].
    destruct (bool_decide_reflect (v ∈ userClickedPlay w));
      destruct (negb (bool_decide _)), (negb (paused _)); cbn in Hin; set_solver.
  - by apply Forall_app.
Qed.

(** What one scan does. *)
Lemma scanAndObserveAllVideos_spec (w : World) :
  let o := scanAndObserveAllVideos host w in
  let videos := querySelectorAll_video (document w) in
  result o = Ok tt
  ∧ sameButObserved w (final o)
  ∧ observedVideos (final o) = list_to_set videos ∪ observedVideos w
  ∧ NoDup (registrations (effects o))
  ∧ (∀ u, u ∈ registrations (effects o) ↔ u ∈ videos ∧ u ∉ observedVideos w)
  ∧ conservativeChecks (effects o) = Elem <$> registrations (effects o)
  ∧ (∀ u, u ∈ pauses (effects o) → u ∉ userClickedPlay w)
  ∧ scans (effects o) = [now w] ∧ plays (effects o) = [] ∧ uncaught (effects o) = []
  ∧ grants (effects o) = [] ∧ timeouts (effects o) = []
  ∧ Forall (λ x, x.1 = now w) (effects o).
Proof.
  unfold scanAndObserveAllVideos, log.
  repeat (rewrite bind_run; cbn [emit get result final effects]).
  pose proof (scanLoop_spec (querySelectorAll_video (document w)) w) as H.
  destruct (forEach _ (scannedVideo host) w) as [r1 w1 out1].
  cbn [result final effects] in H |- *.
  destruct H as (-> & Hs & Hob & Hnd & Hg & Hc & Hp & Hsc & Hpl & Hu & Hgr & Hto & Ht).
  cbn [result final effects].
  split_and!; autorewrite with trace;
    rewrite ?Hsc, ?Hpl, ?Hu, ?Hgr, ?Hto; cbn; rewrite ?app_nil_r; try done.
  repeat (constructor; [done|]). apply Forall_app. split; [done|].
  destruct Hs. repeat constructor; done.
Qed.

End ScanLoop.

(** ** The click delegator *)

(** What a click leaves alone: everything but the intent set, the
    promises of [play()] and the videos' own state. *)
Record sameButIntent (w w' : World) : Prop := mkSameButIntent {
  click_observedVideos : observedVideos w' = observedVideos w;
  click_debounceTimer : debounceTimer w' = debounceTimer w;
  click_document : document w' = document w;
  click_ioTargets : ioTargets w' = ioTargets w;
  click_clickListener : clickListener w' = clickListener w;
  click_mutationObserver : mutationObserver w' = mutationObserver w;
  click_timers : timers w' = timers w;
  click_nextTimerId : nextTimerId w' = nextTimerId w;
  click_now : now w' = now w
}.

(** The video a click on [target] is about: the first video inside the
    nearest player container of the target. *)
Definition clickedVideo (doc : Node) (target : nat) : option nat :=
  closest doc target ≫= querySelector_video.

Section ClickDelegator.

Variable host : Host.

Lemma handleBodyClick_miss (t : nat) (w : World) :
  clickedVideo (document w) t = None →
  let o := handleBodyClick host t w in
  result o = Ok tt ∧ final o = w
  ∧ (effects o = [(now w, Log (LClickDetected t)); (now w, Log LClickOutside)]
     ∨ ∃ c, effects o = [(now w, Log (LClickDetected t)); (now w, Log (LClickInContainer c));
                         (now w, Log LClickNoVideo)]).
Proof.
  unfold clickedVideo, handleBodyClick. intros H.
  unfold bind, log, emit, get. cbn.
  destruct (closest (document w) t) as [c|]; cbn in H |- *.
  - rewrite H. cbn. split_and!; try done. right. by eexists.
  - split_and!; try done. by left.
Qed.

Lemma handleBodyClick_video (t v : nat) (w : World) :
  clickedVideo (document w) t = Some v →
  let o := handleBodyClick host t w in
  (result o = Ok tt ∨ result o = Throw (PlayFailed v))
  ∧ ((∀ w', play_outcome host w' v ≠ PlayThrows) → result o = Ok tt)
  ∧ userClickedPlay (final o) = {[v]} ∪ userClickedPlay w
  ∧ sameButIntent w (final o)
  ∧ grants (effects o) = (if bool_decide (v ∈ userClickedPlay w) then [] else [v])
  ∧ plays (effects o) = [v]
  ∧ (∃ pre post, effects o = pre ++ (now w, Play v) :: post
       ∧ plays pre = [] ∧ grants post = []
       ∧ (v ∈ userClickedPlay w ∨ v ∈ grants pre))
  ∧ pauses (effects o) = [] ∧ registrations (effects o) = []
  ∧ conservativeChecks (effects o) = [] ∧ scans (effects o) = []
  ∧ timeouts (effects o) = [] ∧ uncaught (effects o) = []
  ∧ Forall (λ x, x.1 = now w) (effects o).
Proof.
  unfold clickedVideo, handleBodyClick. intros H.
  unfold bind, log, emit, get, modify, ret, raise, intentHas, video_play. cbn.
  destruct (closest (document w) t) as [c|]; cbn in H |- *; [|done].
  rewrite H. cbn.
  pose proof (attachPlayListenerIfNeeded_spec v w) as H1.
  destruct (attachPlayListenerIfNeeded (Elem v) w) as [r1 w1 out1].
  cbn in H1.
  destruct H1 as (-> & Hs1 & _ & _ & Hp1 & Hc1 & Hg1 & Hsc1 & Hpl1 & Hu1 & Hgr1 & Hto1 & Ht1).
  destruct Hs1 as [Hic Hob Hdt Hdoc Hio Hcl Hmo Hpp Htm Hni Hnow].
  cbn. rewrite Hic.
  destruct (bool_decide_reflect (v ∈ userClickedPlay w)) as [Hm|Hm]; cbn;
    match goal with |- context [play_outcome host ?w' v] =>
      destruct (play_outcome host w' v) eqn:Hplay end; cbn; rewrite ?Hnow.
  all: split_and!; autorewrite with trace;
    rewrite ?Hp1, ?Hc1, ?Hg1, ?Hsc1, ?Hpl1, ?Hu1, ?Hgr1, ?Hto1; cbn;
    try done; try (by left); try (by right).
  all: try (intros Hno; exfalso; eapply Hno; eassumption).
  all: try (constructor; cbn; congruence).
  all: try (rewrite ?Hic; apply set_eq; intros u;
            rewrite !elem_of_union, !elem_of_singleton; naive_solver).
  all: try (repeat (constructor; [done|]); apply Forall_app; split; [done|];
            repeat constructor; done).
  all: match goal with
       | |- ∃ pre post, ?x :: ?y :: ?o ++ ?l = _ ∧ _ =>
           exists (x :: y :: o ++ removelast l), []; cbn [removelast];
           split_and!;
           [ by rewrite <- !app_comm_cons, <- app_assoc
           | autorewrite with trace; rewrite ?Hpl1, ?Hgr1; done
           | done
           | first [ by left
                   | right; autorewrite with trace; rewrite Hgr1; cbn; by left ] ]
       end.
Qed.

(** The promise a click leaves pending, by what [play()] answers in the
    world in which it is called: after the interceptor has been ensured
    and the intent recorded. *)
Lemma handleBodyClick_promise (t v : nat) (w : World) :
  clickedVideo (document w) t = Some v →
  let w1 := final (attachPlayListenerIfNeeded (Elem v) w) in
  let asked :=
    if bool_decide (v ∈ userClickedPlay w1) then w1
    else set_userClickedPlay ({[v]} ∪ userClickedPlay w1) w1 in
  let o := handleBodyClick host t w in
  match play_outcome host asked v with
  | PlayFulfils => result o = Ok tt ∧ playPromises (final o) = playPromises w ++ [(v, true)]
  | PlayRejects => result o = Ok tt ∧ playPromises (final o) = playPromises w ++ [(v, false)]
  | PlayThrows => result o = Throw (PlayFailed v) ∧ playPromises (final o) = playPromises w
  end.
Proof.
  unfold clickedVideo, handleBodyClick. intros H.
  unfold bind, log, emit, get, modify, ret, raise, intentHas, video_play. cbn.
  destruct (closest (document w) t) as [c|]; cbn in H |- *; [|done].
  rewrite H. cbn.
  pose proof (attachPlayListenerIfNeeded_spec v w) as H1.
  destruct (attachPlayListenerIfNeeded (Elem v) w) as [r1 w1 out1].
  cbn in H1. destruct H1 as (-> & Hs1 & _).
  destruct Hs1 as [Hic Hob Hdt Hdoc Hio Hcl Hmo Hpp Htm Hni Hnow].
  cbn.
  destruct (bool_decide (v ∈ userClickedPlay w1)); cbn;
    match goal with |- context [play_outcome host ?w' v] =>
      destruct (play_outcome host w' v) end; cbn; rewrite ?Hpp; done.
Qed.

End ClickDelegator.

(** ** Pending timers *)

(** Pending timers have distinct identifiers, all handed out already,
    and a pending debounce timer is the one [debounceTimer] names. *)
Record timersOk (w : World) : Prop := mkTimersOk {
  ok_distinct : NoDup (tid <$> timers w);
  ok_issued : Forall (λ tm, tid tm < nextTimerId w) (timers w);
  ok_debounce :
    Forall (λ tm, callback tm = CbDebouncedScan → debounceTimer w = Some (tid tm)) (timers w)
}.

Global Instance Callback_eq_dec : EqDecision Callback.
Proof. solve_decision. Defined.

Global Instance Timer_eq_dec : EqDecision Timer.
Proof. solve_decision. Defined.

Definition pendingDebounce (w : World) : list Timer :=
  filter (λ tm, callback tm = CbDebouncedScan) (timers w).

Lemma timersOk_same (w w' : World) :
  timers w' = timers w → nextTimerId w' = nextTimerId w → debounceTimer w' = debounceTimer w →
  timersOk w → timersOk w'.
Proof. intros E1 E2 E3 [? ? ?]. constructor; rewrite ?E1, ?E2, ?E3; done. Qed.

Lemma timersOk_sublist (w w' : World) :
  timers w' `sublist_of` timers w → nextTimerId w' = nextTimerId w →
  debounceTimer w' = debounceTimer w →
  timersOk w → timersOk w'.
Proof.
  intros Hsub E2 E3 [Hd Hi Hb].
  constructor; rewrite ?E2, ?E3.
  - apply (sublist_NoDup _ (tid <$> timers w)); [exact Hd|by apply fmap_sublist].
  - rewrite list.Forall_forall in Hi |- *. intros x Hx. apply Hi.
    eapply elem_of_sublist; done.
  - rewrite list.Forall_forall in Hb |- *. intros x Hx. apply Hb.
    eapply elem_of_sublist; done.
Qed.

Lemma recheckTimers_ids (id t : nat) (vs : list nat) :
  NoDup (tid <$> recheckTimers id t vs)
  ∧ Forall (λ tm, id ≤ tid tm < id + length vs) (recheckTimers id t vs)
  ∧ Forall (λ tm, callback tm ≠ CbDebouncedScan ∧ isScanTimer tm = false ∧ due tm = t)
      (recheckTimers id t vs).
Proof.
  revert id. induction vs as [|v vs IH]; intros id; cbn.
  { split_and!; constructor. }
  destruct (IH (S id)) as (Hd & Hr & Hc).
  split_and!.
  - apply list.NoDup_cons. split; [|done].
    intros (tm & Htm & Hin)%list_elem_of_fmap.
    rewrite list.Forall_forall in Hr. apply Hr in Hin. cbn in Htm. lia.
  - constructor; [cbn; lia|]. eapply list.Forall_impl; [exact Hr|]. cbn. intros; lia.
  - constructor; [done|]. done.
Qed.

Lemma timersOk_recheck (w w' : World) (t : nat) (vs : list nat) :
  timers w' = timers w ++ recheckTimers (nextTimerId w) t vs →
  nextTimerId w' = nextTimerId w + length vs →
  debounceTimer w' = debounceTimer w →
  timersOk w → timersOk w'.
Proof.
  intros E1 E2 E3 [Hd Hi Hb].
  destruct (recheckTimers_ids (nextTimerId w) t vs) as (Hd' & Hr & Hc).
  rewrite list.Forall_forall in Hi, Hb, Hr, Hc.
  constructor; rewrite ?E1, ?E2, ?E3.
  - rewrite fmap_app. apply list.NoDup_app. split_and!; [done| |done].
    intros i (tm & -> & Hin)%list_elem_of_fmap (tm' & Heq & Hin')%list_elem_of_fmap.
    apply Hi in Hin. apply Hr in Hin'. lia.
  - apply list.Forall_forall. intros tm [Hin|Hin]%elem_of_app.
    + apply Hi in Hin. lia.
    + apply Hr in Hin. lia.
  - apply list.Forall_forall. intros tm [Hin|Hin]%elem_of_app; [by apply Hb|].
    apply Hc in Hin. intros ?. by destruct Hin.
Qed.

(** At most one debounce timer is pending. *)
Lemma timersOk_one_pending (w : World) :
  timersOk w → length (pendingDebounce w) ≤ 1.
Proof.
  intros [Hd _ Hb]. unfold pendingDebounce.
  rewrite list.Forall_forall in Hb.
  assert (Hsame : ∀ a b, a ∈ filter (λ tm, callback tm = CbDebouncedScan) (timers w) →
                         b ∈ filter (λ tm, callback tm = CbDebouncedScan) (timers w) →
                         tid a = tid b).
  { intros a b [Ha Hina]%list_elem_of_filter [Hb' Hinb]%list_elem_of_filter.
    pose proof (Hb a Hina Ha) as E1. pose proof (Hb b Hinb Hb') as E2. congruence. }
  assert (Hnd : NoDup (tid <$> filter (λ tm, callback tm = CbDebouncedScan) (timers w))).
  { apply (sublist_NoDup _ (tid <$> timers w)); [exact Hd|apply fmap_sublist, sublist_filter]. }
  destruct (filter _ (timers w)) as [|a [|b l]]; cbn; [lia|lia|].
  exfalso. cbn in Hnd. apply list.NoDup_cons in Hnd as [Hnotin _].
  apply Hnotin. rewrite (Hsame a b); [left| left | right; left].
Qed.

Section Debounce.

(** What [debouncedScanAndObserve] does, in full. *)
Lemma debouncedScanAndObserve_spec (w : World) :
  let o := debouncedScanAndObserve w in
  let fresh := mkTimer (nextTimerId w) (now w + 300) CbDebouncedScan in
  result o = Ok tt
  ∧ timers (final o) =
      match debounceTimer w with
      | Some d => filter (λ t, tid t ≠ d) (timers w)
      | None => timers w
      end ++ [fresh]
  ∧ debounceTimer (final o) = Some (nextTimerId w)
  ∧ nextTimerId (final o) = S (nextTimerId w)
  ∧ sameGovernor (set_debounceTimer (debounceTimer (final o)) w) (final o)
  ∧ elems (final o) = elems w
  ∧ effects o = [(now w, ClearTimeout (debounceTimer w));
                 (now w, SetTimeout (nextTimerId w) 300 CbDebouncedScan)].
Proof.
  unfold debouncedScanAndObserve, clearTimeout, setTimeout, quiet_window,
    bind, get, emit, modify, ret.
  destruct (debounceTimer w) as [d|] eqn:E; cbn; rewrite ?E; cbn;
    split_and!; try done; by constructor.
Qed.

Lemma debouncedScanAndObserve_timersOk (w : World) :
  timersOk w → timersOk (final (debouncedScanAndObserve w)).
Proof.
  intros Hok.
  destruct (debouncedScanAndObserve_spec w) as (_ & Ht & Hd & Hn & _).
  set (old := match debounceTimer w with
              | Some d => filter (λ t, tid t ≠ d) (timers w)
              | None => timers w
              end) in *.
  assert (Hsub : old `sublist_of` timers w).
  { unfold old. destruct (debounceTimer w); [apply sublist_filter|done]. }
  assert (Hnodeb : ∀ tm, tm ∈ old → callback tm ≠ CbDebouncedScan).
  { intros tm Hin Hcb. destruct Hok as [_ _ Hb]. rewrite list.Forall_forall in Hb.
    pose proof (Hb tm (elem_of_sublist _ _ _ Hin Hsub) Hcb) as E.
    unfold old in Hin. rewrite E in Hin. apply list_elem_of_filter in Hin as [Hne _]. done. }
  destruct Hok as [Hnd Hi Hb]. rewrite list.Forall_forall in Hi.
  constructor; rewrite ?Ht, ?Hd, ?Hn.
  - rewrite fmap_app. apply list.NoDup_app. split_and!.
    + apply (sublist_NoDup _ (tid <$> timers w)); [exact Hnd|by apply fmap_sublist].
    + intros i (tm & -> & Hin)%list_elem_of_fmap Hin'. cbn in Hin'.
      apply list_elem_of_singleton in Hin'.
      pose proof (Hi tm (elem_of_sublist _ _ _ Hin Hsub)). lia.
    + cbn. apply NoDup_singleton.
  - apply list.Forall_forall. intros tm [Hin|Hin]%elem_of_app.
    + pose proof (Hi tm (elem_of_sublist _ _ _ Hin Hsub)). lia.
    + apply list_elem_of_singleton in Hin as ->. cbn. lia.
  - apply list.Forall_forall. intros tm [Hin|Hin]%elem_of_app.
    + intros Hcb. by destruct (Hnodeb tm Hin).
    + apply list_elem_of_singleton in Hin as ->. done.
Qed.

End Debounce.

(** ** What every step of the governor respects *)

(** A summary of a step from [w] to [w'] with trace [tr]: the two sets
    only grow, a pause goes to a video that was not authorized, a video
    is registered (and checked conservatively) when it enters the
    observed set and only then, and an intent is granted when the video
    enters the intent set. *)
Record Tame (w w' : World) (tr : list (nat * Effect)) : Prop := mkTame {
  tame_intent : userClickedPlay w ⊆ userClickedPlay w';
  tame_observed : observedVideos w ⊆ observedVideos w';
  tame_pauses : ∀ v, v ∈ pauses tr → v ∉ userClickedPlay w;
  tame_regs_nodup : NoDup (registrations tr);
  tame_regs_new :
    ∀ u, u ∈ registrations tr → (u ∉ observedVideos w) ∧ (u ∈ observedVideos w');
  tame_checks : conservativeChecks tr = Elem <$> registrations tr;
  tame_grants_nodup : NoDup (grants tr);
  tame_grants_new :
    ∀ v, v ∈ grants tr → (v ∉ userClickedPlay w) ∧ (v ∈ userClickedPlay w');
  tame_clickListener : clickListener w = true → clickListener w' = true;
  tame_mutationObserver : mutationObserver w = true → mutationObserver w' = true;
  tame_clock : now w ≤ now w'
}.

Lemma Tame_refl (w : World) : Tame w w [].
Proof.
  constructor; try done; rewrite ?pauses_nil, ?registrations_nil, ?grants_nil;
    try (intros ? []%elem_of_nil); constructor.
Qed.

Lemma Tame_trans (w1 w2 w3 : World) (tr1 tr2 : list (nat * Effect)) :
  Tame w1 w2 tr1 → Tame w2 w3 tr2 → Tame w1 w3 (tr1 ++ tr2).
Proof.
  intros [Hi1 Ho1 Hp1 Hn1 Hr1 Hc1 Hgn1 Hg1 Hcl1 Hm1 Ht1]
         [Hi2 Ho2 Hp2 Hn2 Hr2 Hc2 Hgn2 Hg2 Hcl2 Hm2 Ht2].
  constructor; autorewrite with trace.
  - by etrans.
  - by etrans.
  - intros v [Hv|Hv]%elem_of_app; [by apply Hp1|].
    intros Hin. by apply (Hp2 v Hv), Hi1.
  - apply list.NoDup_app. split_and!; [done| |done].
    intros u Hu1 Hu2. apply Hr1 in Hu1 as [_ Hu1]. apply Hr2 in Hu2 as [Hu2 _]. done.
  - intros u [Hu|Hu]%elem_of_app.
    + apply Hr1 in Hu as [? ?]. split; [done|]. by apply Ho2.
    + apply Hr2 in Hu as [Hu ?]. split; [|done]. intros Hin. by apply Hu, Ho1.
  - by rewrite Hc1, Hc2, fmap_app.
  - apply list.NoDup_app. split_and!; [done| |done].
    intros u Hu1 Hu2. apply Hg1 in Hu1 as [_ Hu1]. apply Hg2 in Hu2 as [Hu2 _]. done.
  - intros u [Hu|Hu]%elem_of_app.
    + apply Hg1 in Hu as [? ?]. split; [done|]. by apply Hi2.
    + apply Hg2 in Hu as [Hu ?]. split; [|done]. intros Hin. by apply Hu, Hi1.
  - auto.
  - auto.
  - lia.
Qed.

(** A step that leaves both sets alone and neither registers nor grants. *)
Lemma Tame_quiet (w w' : World) (tr : list (nat * Effect)) :
  userClickedPlay w' = userClickedPlay w → observedVideos w' = observedVideos w →
  clickListener w' = clickListener w → mutationObserver w' = mutationObserver w →
  now w ≤ now w' →
  (∀ v, v ∈ pauses tr → v ∉ userClickedPlay w) →
  registrations tr = [] → conservativeChecks tr = [] → grants tr = [] →
  Tame w w' tr.
Proof.
  intros E1 E2 E3 E4 Hn Hp Hr Hc Hg.
  constructor; rewrite ?E1, ?E2, ?E3, ?E4, ?Hr, ?Hc, ?Hg; try done;
    try (intros ? []%elem_of_nil); constructor.
Qed.

Lemma settle_final (o : Outcome unit) : (settle o).1 = final o.
Proof. done. Qed.

Lemma settle_trace (o : Outcome unit) :
  pauses (settle o).2 = pauses (effects o)
  ∧ plays (settle o).2 = plays (effects o)
  ∧ registrations (settle o).2 = registrations (effects o)
  ∧ conservativeChecks (settle o).2 = conservativeChecks (effects o)
  ∧ scans (settle o).2 = scans (effects o)
  ∧ grants (settle o).2 = grants (effects o)
  ∧ timeouts (settle o).2 = timeouts (effects o)
  ∧ uncaught (settle o).2 =
      uncaught (effects o) ++ match result o with Ok _ => [] | Throw e => [e] end.
Proof.
  unfold settle. cbn [snd]. autorewrite with trace.
  destruct (result o); cbn; autorewrite with trace; cbn; rewrite ?app_nil_r; done.
Qed.

Lemma Tame_settle (w : World) (o : Outcome unit) :
  Tame w (final o) (effects o) → Tame w (settle o).1 (settle o).2.
Proof.
  intros [Hi Ho Hp Hn Hr Hc Hgn Hg Hcl Hm Ht].
  destruct (settle_trace o) as (E1 & _ & E2 & E3 & _ & E4 & _).
  rewrite settle_final. constructor; rewrite ?E1, ?E2, ?E3, ?E4; done.
Qed.

Section Steps.

Variable host : Host.

Lemma pauseVideoIfAppropriate_null (h : Handle) (context : string) (assertive : bool)
    (w : World) :
  h = Null ∨ h = Undefined →
  pauseVideoIfAppropriate host h context assertive w =
    mkOutcome (Ok tt) w
      [(now w, Log (LChecking context assertive h)); (now w, Log (LSkippedNull context))].
Proof. by intros [-> | ->]. Qed.

Lemma pauseVideoIfAppropriate_tame (h : Handle) (context : string) (assertive : bool)
    (w : World) :
  let o := pauseVideoIfAppropriate host h context assertive w in
  result o = Ok tt ∧ sameScript w (final o) ∧ uncaught (effects o) = [] ∧ scans (effects o) = []
  ∧ (assertive = true → Tame w (final o) (effects o)).
Proof.
  destruct h as [| |v].
  1, 2: rewrite pauseVideoIfAppropriate_null by auto; cbn; split_and!;
    [done|apply sameScript_refl|done|done|];
    intros ->; apply Tame_quiet; try done; intros ? []%elem_of_nil.
  pose proof (pauseVideoIfAppropriate_spec host v context assertive w) as H.
  cbn zeta in H |- *.
  destruct H as (Hr & Hs & _ & Hp & Hc & Hg & Hsc & Hpl & Hu & Hgr & Hto & Ht).
  split_and!; try done. intros ->.
  destruct Hs. apply Tame_quiet; try done; [lia|].
  intros u. rewrite Hp. cbn.
  destruct (bool_decide_reflect (v ∈ userClickedPlay w)); cbn.
  - intros []%elem_of_nil.
  - by intros ->%list_elem_of_singleton.
Qed.

Lemma handleVideoPlay_tame (v : nat) (w : World) :
  let o := handleVideoPlay host v w in
  result o = Ok tt ∧ sameScript w (final o) ∧ uncaught (effects o) = []
  ∧ scans (effects o) = [] ∧ Tame w (final o) (effects o).
Proof.
  pose proof (handleVideoPlay_spec host v w) as H. cbn zeta in H |- *.
  destruct H as (Hr & Hs & _ & Hp & Hc & Hg & Hsc & Hpl & Hu & Hgr & Hto & Ht).
  split_and!; try done.
  destruct Hs. apply Tame_quiet; try done; [lia|].
  intros u. rewrite Hp.
  destruct (bool_decide_reflect (v ∈ userClickedPlay w)); cbn.
  - intros []%elem_of_nil.
  - by intros ->%list_elem_of_singleton.
Qed.

Lemma handleIntersection_tame (entries : list IOEntry) (w : World) :
  let o := handleIntersection host entries w in
  result o = Ok tt ∧ uncaught (effects o) = [] ∧ scans (effects o) = []
  ∧ Tame w (final o) (effects o) ∧ (timersOk w → timersOk (final o)).
Proof.
  pose proof (handleIntersection_spec host entries w) as H. cbn zeta in H |- *.
  destruct H as (Hr & Hs & Htm & Hn & Hp & Hto & Hc & Hg & Hsc & Hpl & Hu & Hgr & Ht).
  destruct Hs. split_and!; try done.
  - apply Tame_quiet; try done; [lia|].
    intros u. rewrite Hp. by intros [? _]%list_elem_of_filter.
  - by apply (timersOk_recheck _ _ (now w + 50) (visible entries)).
Qed.

Lemma scanAndObserveAllVideos_tame (w : World) :
  let o := scanAndObserveAllVideos host w in
  result o = Ok tt ∧ sameButObserved w (final o) ∧ uncaught (effects o) = []
  ∧ scans (effects o) = [now w] ∧ Tame w (final o) (effects o).
Proof.
  pose proof (scanAndObserveAllVideos_spec host w) as H. cbn zeta in H |- *.
  destruct H as (Hr & Hs & Hob & Hnd & Hg & Hc & Hp & Hsc & Hpl & Hu & Hgr & Hto & Ht).
  split_and!; try done. destruct Hs as [Hic Hdt Hdoc Hcl Hmo Hpp Htm Hni Hnow].
  constructor; rewrite ?Hgr; try done.
  - by rewrite Hic.
  - rewrite Hob. set_solver.
  - intros u Hu'. apply Hg in Hu' as [? ?]. split; [done|]. rewrite Hob.
    apply elem_of_union. left. by apply elem_of_list_to_set.
  - constructor.
  - intros ? []%elem_of_nil.
  - congruence.
  - congruence.
  - lia.
Qed.

End Steps.

(** A trace without pauses pauses no video. *)
Ltac no_pause :=
  let Hin := fresh "Hin" in
  intros ? Hin; autorewrite with trace in Hin; cbn in Hin; by apply elem_of_nil in Hin.

Section Handlers.

Variable host : Host.

Lemma handleBodyClick_tame (t : nat) (w : World) :
  let o := handleBodyClick host t w in
  sameButIntent w (final o) ∧ scans (effects o) = []
  ∧ Tame w (final o) (effects o)
  ∧ ((∀ w' v, play_outcome host w' v ≠ PlayThrows) → result o = Ok tt)
  ∧ uncaught (effects o) = []
  ∧ (userClickedPlay (final o) = userClickedPlay w
     ∨ ∃ v, userClickedPlay (final o) = {[v]} ∪ userClickedPlay w).
Proof.
  destruct (clickedVideo (document w) t) as [v|] eqn:E.
  - pose proof (handleBodyClick_video host t v w E) as H. cbn zeta in H |- *.
    destruct H as (_ & Hr & Hic & Hs & Hgr & Hpl & _ & Hp & Hg & Hc & Hsc & Hto & Hu & Ht).
    split_and!; try done; [|by auto|by eauto].
    destruct Hs as [Hob Hdt Hdoc Hio Hcl Hmo Htm Hni Hnow].
    constructor; rewrite ?Hp, ?Hg, ?Hc, ?Hgr, ?Hic, ?Hob; try done.
    + set_solver.
    + intros ? []%elem_of_nil.
    + constructor.
    + intros ? []%elem_of_nil.
    + destruct (bool_decide _); [constructor|apply NoDup_singleton].
    + intros u. destruct (bool_decide_reflect (v ∈ userClickedPlay w)).
      * intros []%elem_of_nil.
      * intros ->%list_elem_of_singleton. split; [done|]. set_solver.
    + congruence.
    + congruence.
    + lia.
  - pose proof (handleBodyClick_miss host t w E) as H. cbn zeta in H |- *.
    destruct H as (Hr & Hf & He). rewrite Hf.
    assert (Hq : pauses (effects (handleBodyClick host t w)) = []
                 ∧ registrations (effects (handleBodyClick host t w)) = []
                 ∧ conservativeChecks (effects (handleBodyClick host t w)) = []
                 ∧ grants (effects (handleBodyClick host t w)) = []
                 ∧ scans (effects (handleBodyClick host t w)) = []
                 ∧ uncaught (effects (handleBodyClick host t w)) = []).
    { destruct He as [-> | [c ->]]; done. }
    destruct Hq as (Hp & Hg & Hc & Hgr & Hsc & Hu).
    split_and!; try done; try (by constructor); try (by left).
    apply Tame_quiet; try done. rewrite Hp. intros ? []%elem_of_nil.
Qed.

Lemma Tame_no_grants (w w' : World) (tr : list (nat * Effect)) :
  Tame w w' tr → userClickedPlay w' = userClickedPlay w → grants tr = [].
Proof.
  intros [_ _ _ _ _ _ _ Hg _ _ _] E.
  destruct (grants tr) as [|v l] eqn:El; [done|].
  destruct (Hg v) as [Hn Hy]; [left|]. rewrite E in Hy. done.
Qed.

Lemma Tame_no_registrations (w w' : World) (tr : list (nat * Effect)) :
  Tame w w' tr → observedVideos w' = observedVideos w →
  registrations tr = [] ∧ conservativeChecks tr = [].
Proof.
  intros [_ _ _ _ Hr Hc _ _ _ _ _] E.
  assert (registrations tr = []) as Hnil.
  { destruct (registrations tr) as [|v l] eqn:El; [done|].
    destruct (Hr v) as [Hn Hy]; [left|]. rewrite E in Hy. done. }
  by rewrite Hc, Hnil.
Qed.

(** What the timers and the clock are left as by a handler that starts no timer. *)
Record sameTimers (w w' : World) : Prop := mkSameTimers {
  tm_timers : timers w' = timers w;
  tm_nextTimerId : nextTimerId w' = nextTimerId w;
  tm_debounceTimer : debounceTimer w' = debounceTimer w;
  tm_now : now w' = now w;
  tm_userClickedPlay : userClickedPlay w' = userClickedPlay w;
  tm_document : document w' = document w;
  tm_clickListener : clickListener w' = clickListener w
}.

Lemma mutationCallback_spec (records : list MutationRecord) (w : World) :
  let o := mutationCallback records w in
  result o = Ok tt ∧ uncaught (effects o) = [] ∧ scans (effects o) = []
  ∧ Tame w (final o) (effects o) ∧ (timersOk w → timersOk (final o))
  ∧ userClickedPlay (final o) = userClickedPlay w.
Proof.
  unfold mutationCallback. destruct (structuralChange records).
  - pose proof (debouncedScanAndObserve_spec w) as H.
    pose proof (debouncedScanAndObserve_timersOk w) as Hok.
    cbn zeta in H |- *. destruct H as (Hr & _ & _ & _ & Hs & _ & He).
    destruct Hs; cbn in *. rewrite He.
    split_and!; try done. apply Tame_quiet; try done; [lia|].
    intros ? []%elem_of_nil.
  - cbn. split_and!; try done. apply Tame_refl.
Qed.

Lemma observeDOMChanges_spec (w : World) :
  let o := observeDOMChanges w in
  result o = Ok tt ∧ final o = set_mutationObserver true w
  ∧ effects o = [(now w, ObserveMutations); (now w, Log LMutationObserverSetUp)].
Proof. done. Qed.

Lemma runCallback_spec (cb : Callback) (w : World) :
  let o := runCallback host cb w in
  result o = Ok tt ∧ sameTimers w (final o)
  ∧ Tame w (final o) (effects o) ∧ uncaught (effects o) = []
  ∧ scans (effects o) =
      (if isScanTimer (mkTimer 0 0 cb) then [now w] else [])
  ∧ timeouts (effects o) = [].
Proof.
  destruct cb as [v| | |]; unfold runCallback, isScanTimer; cbn [callback].
  - pose proof (pauseVideoIfAppropriate_spec host v "Intersection-Timeout" true w) as H.
    pose proof (pauseVideoIfAppropriate_tame host (Elem v) "Intersection-Timeout" true w) as H'.
    cbn zeta in H, H' |- *.
    destruct H as (Hr & Hs & _ & Hp & Hc & Hg & Hsc & Hpl & Hu & Hgr & Hto & Ht).
    destruct H' as (_ & _ & _ & _ & Htame). destruct Hs.
    split_and!; try done; try (by constructor); by apply Htame.
  - unfold log. rewrite bind_run. cbn [emit result final effects].
    pose proof (scanAndObserveAllVideos_spec host w) as H.
    pose proof (scanAndObserveAllVideos_tame host w) as H'.
    cbn zeta in H, H'.
    destruct H as (Hr & Hs & _ & _ & _ & _ & _ & Hsc & _ & Hu & _ & Hto & _).
    destruct H' as (_ & _ & _ & _ & Htame). destruct Hs.
    rewrite Hr. cbn [result final effects].
    split_and!; autorewrite with trace; rewrite ?Hsc, ?Hu, ?Hto; try done;
      try (by constructor).
    eapply (Tame_trans w w _ [_]); [|exact Htame].
    apply Tame_quiet; try done. no_pause.
  - unfold log. rewrite bind_run. cbn [emit result final effects].
    pose proof (scanAndObserveAllVideos_spec host w) as H.
    pose proof (scanAndObserveAllVideos_tame host w) as H'.
    cbn zeta in H, H'.
    destruct H as (Hr & Hs & _ & _ & _ & _ & _ & Hsc & _ & Hu & _ & Hto & _).
    destruct H' as (_ & _ & _ & _ & Htame). destruct Hs.
    rewrite Hr. cbn [result final effects].
    split_and!; autorewrite with trace; rewrite ?Hsc, ?Hu, ?Hto; try done;
      try (by constructor).
    eapply (Tame_trans w w _ [_]); [|exact Htame].
    apply Tame_quiet; try done. no_pause.
  - cbn. split_and!; try done; try (by constructor).
    constructor; cbn; try done; try no_pause; constructor.
Qed.

(** A timer expires. *)
Lemma fire_spec (tm : Timer) (w : World) :
  let o := fire host tm w in
  result o = Ok tt
  ∧ timers (final o) = filter (λ t, tid t ≠ tid tm) (timers w)
  ∧ nextTimerId (final o) = nextTimerId w
  ∧ debounceTimer (final o) = debounceTimer w
  ∧ now (final o) = now w `max` due tm
  ∧ userClickedPlay (final o) = userClickedPlay w
  ∧ document (final o) = document w
  ∧ clickListener (final o) = clickListener w
  ∧ Tame w (final o) (effects o) ∧ uncaught (effects o) = []
  ∧ scans (effects o) = (if isScanTimer tm then [now w `max` due tm] else [])
  ∧ timeouts (effects o) = [].
Proof.
  unfold fire. rewrite bind_run. cbn [modify result final effects].
  match goal with |- context [runCallback host ?cb ?w'] =>
    pose proof (runCallback_spec cb w') as H; destruct (runCallback host cb w') as [r1 w1 out1]
  end.
  cbn in H. destruct H as (-> & Hs & Htame & Hu & Hsc & Hto).
  destruct Hs as [Htm Hni Hdt Hnow Hic Hdoc Hcl]. cbn in *.
  split_and!; try done.
  destruct Htame. constructor; try done. cbn in *. lia.
Qed.

End Handlers.

(** ** The event loop *)

Lemma earliest_None (ts : list Timer) : earliest ts = None → ts = [].
Proof.
  destruct ts as [|t ts]; [done|]. cbn [earliest].
  destruct (earliest ts) as [u|]; [|done]. by destruct (due u <? due t).
Qed.

Lemma earliest_Some (ts : list Timer) (tm : Timer) :
  earliest ts = Some tm → tm ∈ ts ∧ ∀ u, u ∈ ts → due tm ≤ due u.
Proof.
  revert tm. induction ts as [|t ts IH]; intros tm; cbn [earliest]; [done|].
  destruct (earliest ts) as [u|] eqn:E.
  - destruct (IH u eq_refl) as [Hin Hmin].
    destruct (Nat.ltb_spec (due u) (due t)); intros ?; simplify_eq.
    + split; [by right|]. intros x [->|Hx]%elem_of_cons; [lia|by apply Hmin].
    + split; [by left|]. intros x [->|Hx]%elem_of_cons; [lia|].
      specialize (Hmin x Hx). lia.
  - intros ?; simplify_eq. split; [by left|].
    apply earliest_None in E as ->.
    by intros x ->%list_elem_of_singleton.
Qed.

Lemma settle_ok (o : Outcome unit) : result o = Ok tt → settle o = (final o, effects o).
Proof. unfold settle. intros ->. by rewrite app_nil_r. Qed.

Section Loop.

Variable host : Host.

(** What firing the due timers respects. *)
Lemma runTimers_spec (fuel t : nat) (w : World) :
  let s := runTimers host fuel t w in
  Tame w s.1 s.2 ∧ uncaught s.2 = [] ∧ timeouts s.2 = []
  ∧ userClickedPlay s.1 = userClickedPlay w
  ∧ nextTimerId s.1 = nextTimerId w ∧ debounceTimer s.1 = debounceTimer w
  ∧ document s.1 = document w ∧ clickListener s.1 = clickListener w
  ∧ timers s.1 `sublist_of` timers w
  ∧ now s.1 ≤ now w `max` t.
Proof.
  revert w. induction fuel as [|fuel IH]; intros w; cbn [runTimers].
  { cbn. split_and!; try done; [apply Tame_refl|lia]. }
  destruct (earliest (dueBy t (timers w))) as [tm|] eqn:E.
  2: { cbn. split_and!; try done; [apply Tame_refl|lia]. }
  apply earliest_Some in E as [[Hdue Hin]%list_elem_of_filter _].
  pose proof (fire_spec host tm w) as H. cbn zeta in H.
  destruct H as (Hr & Htm & Hni & Hdt & Hnow & Hic & Hdoc & Hcl & Htame & Hu & Hsc & Hto).
  rewrite (settle_ok _ Hr).
  specialize (IH (final (fire host tm w))).
  destruct (runTimers host fuel t (final (fire host tm w))) as [w2 out2].
  cbn [fst snd] in IH |- *.
  destruct IH as (Htame' & Hu' & Hto' & Hic' & Hni' & Hdt' & Hdoc' & Hcl' & Hsub' & Hnow').
  split_and!; autorewrite with trace; rewrite ?Hu, ?Hu', ?Hto, ?Hto'; try done;
    try congruence.
  - by eapply Tame_trans.
  - etrans; [exact Hsub'|]. rewrite Htm. apply sublist_filter.
  - lia.
Qed.

Lemma advance_spec (dt : nat) (w : World) :
  let s := advance host dt w in
  Tame w s.1 s.2 ∧ uncaught s.2 = [] ∧ timeouts s.2 = []
  ∧ userClickedPlay s.1 = userClickedPlay w
  ∧ nextTimerId s.1 = nextTimerId w ∧ debounceTimer s.1 = debounceTimer w
  ∧ document s.1 = document w ∧ clickListener s.1 = clickListener w
  ∧ timers s.1 `sublist_of` timers w
  ∧ now s.1 = now w + dt.
Proof.
  unfold advance.
  pose proof (runTimers_spec (length (timers w)) (now w + dt) w) as H. cbn zeta in H.
  destruct (runTimers host _ _ w) as [w1 out]. cbn [fst snd] in H |- *.
  destruct H as (Htame & Hu & Hto & Hic & Hni & Hdt & Hdoc & Hcl & Hsub & Hnow).
  split_and!; try done.
  destruct Htame. constructor; try done. cbn. lia.
Qed.

(** Every event is a tame step. *)
Lemma dispatch_tame (ev : Event) (w : World) :
  Tame w (dispatch host ev w).1 (dispatch host ev w).2.
Proof.
  destruct ev as [t|entries|records|v| |dt|v p|doc]; cbn [dispatch].
  - destruct (clickListener w); [|apply Tame_refl].
    apply Tame_settle, handleBodyClick_tame.
  - apply Tame_settle, handleIntersection_tame.
  - destruct (mutationObserver w); [|apply Tame_refl].
    apply Tame_settle, mutationCallback_spec.
  - destruct (playListener (elems w v)); [|apply Tame_refl].
    apply Tame_settle, handleVideoPlay_tame.
  - destruct (playPromises w) as [|[v b] rest]; [apply Tame_refl|].
    apply Tame_settle. destruct b; cbn; (apply Tame_quiet; try done; no_pause).
  - apply advance_spec.
  - cbn. apply Tame_quiet; try done; no_pause.
  - cbn. apply Tame_quiet; try done; no_pause.
Qed.

Lemma run_tame (evs : list Event) (w : World) :
  Tame w (run host evs w).1 (run host evs w).2.
Proof.
  revert w. induction evs as [|ev evs IH]; intros w; cbn [run]; [apply Tame_refl|].
  pose proof (dispatch_tame ev w) as H1.
  destruct (dispatch host ev w) as [w1 out1].
  specialize (IH w1). destruct (run host evs w1) as [w2 out2].
  by eapply Tame_trans.
Qed.

Lemma run_app (evs1 evs2 : list Event) (w : World) :
  run host (evs1 ++ evs2) w =
    ((run host evs2 (run host evs1 w).1).1,
     (run host evs1 w).2 ++ (run host evs2 (run host evs1 w).1).2).
Proof.
  revert w. induction evs1 as [|ev evs IH]; intros w; cbn [run app].
  { cbn. by destruct (run host evs2 w). }
  destruct (dispatch host ev w) as [w1 out1]. rewrite IH.
  destruct (run host evs w1) as [w2 out2]. cbn.
  destruct (run host evs2 w2). cbn. by rewrite app_assoc.
Qed.

(** Pending timers stay well identified. *)
Lemma dispatch_timersOk (ev : Event) (w : World) :
  timersOk w → timersOk (dispatch host ev w).1.
Proof.
  intros Hok.
  destruct ev as [t|entries|records|v| |dt|v p|doc]; cbn [dispatch].
  - destruct (clickListener w); [|done]. rewrite settle_final.
    destruct (handleBodyClick_tame host t w) as ([] & _).
    by eapply timersOk_same.
  - rewrite settle_final. by apply handleIntersection_tame.
  - destruct (mutationObserver w); [|done]. rewrite settle_final.
    by apply mutationCallback_spec.
  - destruct (playListener (elems w v)); [|done]. rewrite settle_final.
    destruct (handleVideoPlay_tame host v w) as (_ & [] & _).
    by eapply timersOk_same.
  - destruct (playPromises w) as [|[v b] rest]; [done|].
    rewrite settle_final. destruct b; by apply (timersOk_same w).
  - destruct (advance_spec dt w) as (_ & _ & _ & _ & Hni & Hdt & _ & _ & Hsub & _).
    by eapply timersOk_sublist.
  - by apply (timersOk_same w).
  - by apply (timersOk_same w).
Qed.

Lemma run_timersOk (evs : list Event) (w : World) :
  timersOk w → timersOk (run host evs w).1.
Proof.
  revert w. induction evs as [|ev evs IH]; intros w Hok; cbn [run]; [done|].
  pose proof (dispatch_timersOk ev w Hok) as H1.
  destruct (dispatch host ev w) as [w1 out1].
  specialize (IH w1 H1). by destruct (run host evs w1).
Qed.

End Loop.

(** ** The quiet window *)

(** A burst of notifications: each arrives [gap] milliseconds after the
    one before it. *)
Fixpoint burst (l : list (nat * list MutationRecord)) : list Event :=
  match l with
  | [] => []
  | (gap, records) :: l' => EvAdvance gap :: EvMutations records :: burst l'
  end.

(** One scan is pending, the debounced one, and it is due at [D]. *)
Record armed (D : nat) (w : World) : Prop := mkArmed {
  armed_ok : timersOk w;
  armed_pending :
    ∃ id, pendingScans w = [mkTimer id D CbDebouncedScan] ∧ debounceTimer w = Some id;
  armed_observer : mutationObserver w = true;
  armed_clock : now w ≤ D
}.

Arguments fire : simpl never.

Lemma timer_by_id (l : list Timer) (a b : Timer) :
  NoDup (tid <$> l) → a ∈ l → b ∈ l → tid a = tid b → a = b.
Proof.
  induction l as [|x l IH]; cbn; [by intros _ []%elem_of_nil|].
  intros [Hx Hnd]%list.NoDup_cons [->|Ha]%elem_of_cons [->|Hb]%elem_of_cons E; try done.
  - destruct Hx. rewrite E. by apply list_elem_of_fmap_2.
  - destruct Hx. rewrite <- E. by apply list_elem_of_fmap_2.
  - by apply IH.
Qed.

Lemma pendingScans_filter (P : Timer → Prop) `{∀ x, Decision (P x)} (w w' : World) :
  timers w' = filter P (timers w) → pendingScans w' = filter P (pendingScans w).
Proof.
  unfold pendingScans. intros ->. rewrite !list_filter_filter.
  apply list_filter_iff. intros x. tauto.
Qed.

Lemma filter_nil_intro {A} (P : A → Prop) `{∀ x, Decision (P x)} (l : list A) :
  (∀ x, x ∈ l → ¬ P x) → filter P l = [].
Proof.
  intros Hno. destruct (filter P l) as [|x l'] eqn:E; [done|].
  assert (x ∈ filter P l) as [HP Hin]%list_elem_of_filter by (rewrite E; left).
  by destruct (Hno x Hin).
Qed.

Section QuietWindow.

Variable host : Host.

Lemma fire_pending (tm : Timer) (w : World) :
  pendingScans (final (fire host tm w)) = filter (λ t, tid t ≠ tid tm) (pendingScans w).
Proof. apply pendingScans_filter, fire_spec. Qed.

(** Without a pending scan, the timers that expire run no scan. *)
Lemma runTimers_no_scan (fuel t : nat) (w : World) :
  pendingScans w = [] →
  scans (runTimers host fuel t w).2 = [] ∧ pendingScans (runTimers host fuel t w).1 = [].
Proof.
  revert w. induction fuel as [|fuel IH]; intros w Hp; cbn [runTimers]; [done|].
  destruct (earliest (dueBy t (timers w))) as [tm|] eqn:E; [|done].
  apply earliest_Some in E as [[Hdue Hin]%list_elem_of_filter _].
  pose proof (fire_spec host tm w) as H. cbn zeta in H.
  destruct H as (Hr & _ & _ & _ & _ & _ & _ & _ & _ & _ & Hsc & _).
  pose proof (fire_pending tm w) as Hp'. rewrite Hp in Hp'. cbn in Hp'.
  assert (isScanTimer tm = false) as Hns.
  { destruct (isScanTimer tm) eqn:Es; [|done].
    assert (tm ∈ pendingScans w) as Hc by (by apply list_elem_of_filter).
    rewrite Hp in Hc. by apply elem_of_nil in Hc. }
  rewrite Hns in Hsc. rewrite (settle_ok _ Hr).
  specialize (IH (final (fire host tm w)) Hp').
  destruct (runTimers host fuel t (final (fire host tm w))) as [w2 out2].
  cbn [fst snd] in IH |- *. destruct IH as [IH1 IH2].
  by rewrite scans_app, Hsc, IH1.
Qed.

(** With one pending scan, it runs when its time has come and not before. *)
Lemma runTimers_one_scan (fuel t : nat) (w : World) (tm : Timer) :
  timersOk w → pendingScans w = [tm] → now w ≤ due tm → length (timers w) ≤ fuel →
  let s := runTimers host fuel t w in
  (due tm ≤ t → scans s.2 = [due tm] ∧ pendingScans s.1 = [])
  ∧ (t < due tm → scans s.2 = [] ∧ pendingScans s.1 = [tm]).
Proof.
  revert w. induction fuel as [|fuel IH]; intros w Hok Hp Hnow Hlen.
  { assert (tm ∈ pendingScans w) as [_ Hin]%list_elem_of_filter by (rewrite Hp; left).
    destruct (timers w); [by apply elem_of_nil in Hin|cbn in Hlen; lia]. }
  assert (tm ∈ pendingScans w) as [Hscan Hin]%list_elem_of_filter by (rewrite Hp; left).
  cbn [runTimers].
  destruct (earliest (dueBy t (timers w))) as [u|] eqn:E.
  2: { apply earliest_None in E. cbn. split; [|done].
       intros Hdue. assert (tm ∈ dueBy t (timers w)) as Hc by (by apply list_elem_of_filter).
       rewrite E in Hc. by apply elem_of_nil in Hc. }
  apply earliest_Some in E as [[Hdue Hinu]%list_elem_of_filter Hmin].
  pose proof (fire_spec host u w) as H. cbn zeta in H.
  destruct H as (Hr & Htm & Hni & Hdt & Hnow' & _ & _ & _ & _ & _ & Hsc & _).
  pose proof (fire_pending u w) as Hp'. rewrite Hp in Hp'.
  rewrite (settle_ok _ Hr).
  destruct (decide (tid u = tid tm)) as [Eid|Nid].
  - assert (u = tm) as -> by (by apply (timer_by_id (timers w)); [apply Hok|..]).
    rewrite filter_cons_False in Hp' by (intros ?; done). cbn in Hp'.
    pose proof (runTimers_no_scan fuel t _ Hp') as [H1 H2].
    destruct (runTimers host fuel t (final (fire host tm w))) as [w2 out2].
    cbn [fst snd] in *. rewrite Hscan in Hsc.
    split; [|lia]. intros _. rewrite scans_app, Hsc, H1. cbn.
    split; [|done]. f_equal. lia.
  - rewrite filter_cons_True in Hp' by done. cbn in Hp'.
    assert (isScanTimer u = false) as Hns.
    { destruct (isScanTimer u) eqn:Es; [|done].
      assert (u ∈ pendingScans w) as Hc by (by apply list_elem_of_filter).
      rewrite Hp in Hc. apply list_elem_of_singleton in Hc. by subst. }
    rewrite Hns in Hsc.
    assert (timersOk (final (fire host u w))) as Hok'.
    { apply (timersOk_sublist w); try done. rewrite Htm. apply sublist_filter. }
    assert (now (final (fire host u w)) ≤ due tm) as Hclock.
    { rewrite Hnow'. destruct (decide (due tm ≤ t)) as [Hd|Hd]; [|lia].
      assert (tm ∈ dueBy t (timers w)) as Hc by (by apply list_elem_of_filter).
      specialize (Hmin tm Hc). lia. }
    assert (length (timers (final (fire host u w))) ≤ fuel) as Hlen'.
    { rewrite Htm.
      pose proof (length_filter_lt (λ x, tid x ≠ tid u) (timers w) u Hinu) as Hlt.
      cbn in Hlt. specialize (Hlt ltac:(tauto)). lia. }
    specialize (IH _ Hok' Hp' Hclock Hlen').
    destruct (runTimers host fuel t (final (fire host u w))) as [w2 out2].
    cbn [fst snd] in IH |- *. destruct IH as [IH1 IH2].
    rewrite scans_app, Hsc. cbn. done.
Qed.

Lemma advance_scans (D dt : nat) (w : World) :
  armed D w →
  let s := advance host dt w in
  now s.1 = now w + dt
  ∧ (now w + dt < D → armed D s.1 ∧ scans s.2 = [])
  ∧ (D ≤ now w + dt → scans s.2 = [D] ∧ pendingScans s.1 = []).
Proof.
  intros [Hok (id & Hp & Hdt) Hobs Hclock].
  pose proof (advance_spec host dt w) as Hadv. cbn zeta in Hadv |- *.
  destruct Hadv as (Htame & _ & _ & _ & Hni & Hdt' & _ & _ & Hsub & Hnow).
  revert Htame Hni Hdt' Hsub Hnow. unfold advance.
  pose proof (runTimers_one_scan (length (timers w)) (now w + dt) w _ Hok Hp Hclock
                ltac:(done)) as Hone.
  cbn zeta in Hone. destruct (runTimers host _ _ w) as [w1 out].
  cbn [fst snd due] in Hone |- *. intros Htame Hni Hdt' Hsub Hnow.
  destruct Hone as [Hfire Hquiet]. split_and!; [done| |].
  - intros Hlt. destruct (Hquiet Hlt) as [Hsc Hp1]. split; [|done].
    constructor.
    + by apply (timersOk_sublist w).
    + exists id. split; [exact Hp1|]. by rewrite Hdt'.
    + by apply Htame.
    + cbn. lia.
  - intros Hle. destruct (Hfire Hle) as [Hsc Hp1]. done.
Qed.

(** A qualifying batch of mutations cancels the pending debounced scan,
    if there is one, and arms a new one a quiet window from now. *)
Lemma mutations_arm (records : list MutationRecord) (w : World) :
  timersOk w → mutationObserver w = true →
  Forall (λ tm, callback tm ≠ CbInitialScan) (timers w) →
  structuralChange records = true →
  let s := dispatch host (EvMutations records) w in
  armed (now w + quiet_window) s.1 ∧ now s.1 = now w
  ∧ Forall (λ tm, callback tm ≠ CbInitialScan) (timers s.1)
  ∧ s.2 = [(now w, ClearTimeout (debounceTimer w));
           (now w, SetTimeout (nextTimerId w) quiet_window CbDebouncedScan)].
Proof.
  intros Hok Hobs Hinit Hch. cbn [dispatch]. rewrite Hobs.
  unfold mutationCallback. rewrite Hch.
  pose proof (debouncedScanAndObserve_spec w) as H.
  pose proof (debouncedScanAndObserve_timersOk w Hok) as Hok'.
  cbn zeta in H. destruct H as (Hr & Htm & Hdt & Hni & Hs & _ & He).
  rewrite (settle_ok _ Hr). cbn [fst snd].
  destruct Hs as [_ _ _ _ _ _ Hmo _ Hnow]. cbn in Hmo, Hnow.
  set (old := match debounceTimer w with
              | Some d => filter (λ t, tid t ≠ d) (timers w)
              | None => timers w
              end) in *.
  assert (Hsub : old `sublist_of` timers w).
  { unfold old. destruct (debounceTimer w); [apply sublist_filter|done]. }
  assert (Hold : filter (λ tm, isScanTimer tm = true) old = []).
  { apply filter_nil_intro. intros x Hx Hscan.
    pose proof (elem_of_sublist _ _ _ Hx Hsub) as Hin.
    rewrite list.Forall_forall in Hinit. specialize (Hinit x Hin).
    assert (callback x = CbDebouncedScan) as Hcb.
    { unfold isScanTimer in Hscan. by destruct (callback x). }
    destruct Hok as [_ _ Hb]. rewrite list.Forall_forall in Hb.
    pose proof (Hb x Hin Hcb) as E. unfold old in Hx. rewrite E in Hx.
    by apply list_elem_of_filter in Hx as [Hne _]. }
  split_and!; [|done| |by rewrite He].
  - constructor; [done| |by rewrite Hmo|lia].
    exists (nextTimerId w). split; [|done].
    unfold pendingScans. rewrite Htm, list.filter_app, Hold. done.
  - rewrite Htm. apply Forall_app. split; [|by repeat constructor].
    rewrite list.Forall_forall in Hinit |- *. intros x Hx. apply Hinit.
    by eapply elem_of_sublist.
Qed.

(** A burst whose notifications are less than a quiet window apart runs
    no scan and leaves one armed, a quiet window after the last one. *)
Lemma burst_quiet (l : list (nat * list MutationRecord)) (w : World) :
  armed (now w + quiet_window) w →
  Forall (λ tm, callback tm ≠ CbInitialScan) (timers w) →
  Forall (λ p, p.1 < quiet_window ∧ structuralChange p.2 = true) l →
  let s := run host (burst l) w in
  armed (now s.1 + quiet_window) s.1 ∧ scans s.2 = []
  ∧ now s.1 = now w + sum_list (fst <$> l).
Proof.
  revert w. induction l as [|[gap records] l IH]; intros w Harm Hinit Hl.
  { cbn. split_and!; [done|done|lia]. }
  apply list.Forall_cons in Hl as [[Hgap Hch] Hl]. cbn [fst snd] in Hgap, Hch.
  cbn [burst run].
  pose proof (advance_scans _ gap w Harm) as Hadv.
  pose proof (advance_spec host gap w) as Hspec.
  cbn zeta in Hadv, Hspec.
  change (dispatch host (EvAdvance gap) w) with (advance host gap w).
  destruct (advance host gap w) as [w1 out1]. cbn [fst snd] in Hadv, Hspec.
  destruct Hadv as (Hnow1 & Hq & _). destruct Hq as [Harm1 Hsc1]; [lia|].
  destruct Hspec as (_ & _ & _ & _ & _ & _ & _ & _ & Hsub1 & _).
  assert (Hinit1 : Forall (λ tm, callback tm ≠ CbInitialScan) (timers w1)).
  { rewrite list.Forall_forall in Hinit |- *. intros x Hx. apply Hinit.
    by eapply elem_of_sublist. }
  pose proof (mutations_arm records w1 (armed_ok _ _ Harm1) (armed_observer _ _ Harm1)
                Hinit1 Hch) as Hmut.
  cbn zeta in Hmut.
  destruct (dispatch host (EvMutations records) w1) as [w2 out2]. cbn [fst snd] in Hmut.
  destruct Hmut as (Harm2 & Hnow2 & Hinit2 & He2).
  rewrite <- Hnow2 in Harm2.
  specialize (IH w2 Harm2 Hinit2 Hl). cbn zeta in IH.
  destruct (run host (burst l) w2) as [w3 out3]. cbn [fst snd] in IH |- *.
  destruct IH as (Harm3 & Hsc3 & Hnow3).
  split_and!; [done| |].
  - rewrite !scans_app, Hsc1, Hsc3, He2. by autorewrite with trace.
  - rewrite Hnow3, Hnow2, Hnow1. cbn. symmetry. apply Nat.add_assoc.
Qed.

End QuietWindow.

(** ** Reading single effects off a trace *)

Lemma elem_of_pauses (tr : list (nat * Effect)) (v : nat) :
  v ∈ pauses tr ↔ ∃ t, (t, Pause v) ∈ tr.
Proof.
  unfold pauses. rewrite list_elem_of_omap. split.
  - intros ([t e] & Hin & He). unfold pauseOf in He. cbn in He.
    destruct e; simplify_eq. by exists t.
  - intros [t Hin]. by exists (t, Pause v).
Qed.

Lemma elem_of_timeouts (tr : list (nat * Effect)) (i d : nat) (cb : Callback) :
  (i, d, cb) ∈ timeouts tr ↔ ∃ t, (t, SetTimeout i d cb) ∈ tr.
Proof.
  unfold timeouts. rewrite list_elem_of_omap. split.
  - intros ([t e] & Hin & He). unfold timeoutOf in He. cbn in He.
    destruct e; simplify_eq. by exists t.
  - intros [t Hin]. by exists (t, SetTimeout i d cb).
Qed.

Lemma stamped_elem (tr : list (nat * Effect)) (t t' : nat) (e : Effect) :
  Forall (λ x, x.1 = t) tr → (t', e) ∈ tr → (t, e) ∈ tr.
Proof.
  rewrite list.Forall_forall. intros Hall Hin.
  by rewrite <- (Hall _ Hin).
Qed.

Lemma elem_of_recheckTimers (id t : nat) (vs : list nat) (v : nat) :
  v ∈ vs → ∃ i, mkTimer i t (CbIntersectionTimeout v) ∈ recheckTimers id t vs.
Proof.
  revert id. induction vs as [|u vs IH]; intros id; [by intros []%elem_of_nil|].
  intros [->|Hin]%elem_of_cons; cbn.
  - exists id. left.
  - destruct (IH (S id) Hin) as [i Hi]. exists i. by right.
Qed.

Lemma elem_of_visible (entries : list IOEntry) (v : nat) :
  v ∈ visible entries ↔
  ∃ e, e ∈ entries ∧ target e = v ∧ isIntersecting e = true ∧ targetIsVideo e = true.
Proof.
  unfold visible. rewrite list_elem_of_fmap. split.
  - intros (e & -> & [Hv Hin]%list_elem_of_filter).
    apply andb_true_iff in Hv as [? ?]. by exists e.
  - intros (e & Hin & <- & Hi & Hv). exists e. split; [done|].
    apply list_elem_of_filter. by rewrite Hi, Hv.
Qed.

(** ** Exceptions and the intent set, event by event *)

Section Isolation.

Variable host : Host.

(** A pause that raises is caught where it was called and reported. *)
Lemma pause_failure_logged (v : nat) (context : string) (assertive : bool) (w : World) :
  (∀ w', pause_outcome host w' v = PauseThrows) →
  let o := pauseVideoIfAppropriate host (Elem v) context assertive w in
  v ∈ pauses (effects o) →
  (now w, Log (LPauseError context (PauseFailed v) v)) ∈ effects o.
Proof.
  intros Hthrow. js_open. destruct assertive; js_split; cbn;
    rewrite ?Hthrow in *; try done.
  all: try (intros []%elem_of_nil).
  all: intros _; repeat (first [by left | right]).
Qed.

Lemma play_listener_failure_logged (v : nat) (w : World) :
  (∀ w', pause_outcome host w' v = PauseThrows) → v ∉ userClickedPlay w →
  (now w, Log (LPlayListenerError (PauseFailed v))) ∈ effects (handleVideoPlay host v w).
Proof.
  intros Hthrow Hno. js_open. rewrite bool_decide_eq_false_2 by done. cbn.
  rewrite Hthrow. cbn. repeat (first [by left | right]).
Qed.

(** Only a click can let an exception through, and only that of [play()]. *)
Lemma dispatch_uncaught (ev : Event) (w : World) :
  (∀ w' v, play_outcome host w' v ≠ PlayThrows) ∨ (∀ t, ev ≠ EvClick t) →
  uncaught (dispatch host ev w).2 = [].
Proof.
  intros Hsafe.
  destruct ev as [t|entries|records|v| |dt|v p|doc]; cbn [dispatch].
  - destruct Hsafe as [Hsafe|Hne]; [|by destruct (Hne t)].
    destruct (clickListener w); [|done].
    destruct (handleBodyClick_tame host t w) as (_ & _ & _ & Hr & Hu & _).
    destruct (settle_trace (handleBodyClick host t w)) as (_ & _ & _ & _ & _ & _ & _ & E).
    by rewrite E, Hu, (Hr Hsafe).
  - destruct (handleIntersection_tame host entries w) as (Hr & Hu & _).
    destruct (settle_trace (handleIntersection host entries w))
      as (_ & _ & _ & _ & _ & _ & _ & E).
    by rewrite E, Hu, Hr.
  - destruct (mutationObserver w); [|done].
    destruct (mutationCallback_spec records w) as (Hr & Hu & _).
    destruct (settle_trace (mutationCallback records w)) as (_ & _ & _ & _ & _ & _ & _ & E).
    by rewrite E, Hu, Hr.
  - destruct (playListener (elems w v)); [|done].
    destruct (handleVideoPlay_tame host v w) as (Hr & _ & Hu & _).
    destruct (settle_trace (handleVideoPlay host v w)) as (_ & _ & _ & _ & _ & _ & _ & E).
    by rewrite E, Hu, Hr.
  - destruct (playPromises w) as [|[v b] rest]; [done|]. by destruct b.
  - apply advance_spec.
  - done.
  - done.
Qed.

Lemma run_uncaught (evs : list Event) (w : World) :
  (∀ w' v, play_outcome host w' v ≠ PlayThrows) → uncaught (run host evs w).2 = [].
Proof.
  intros Hsafe. revert w. induction evs as [|ev evs IH]; intros w; cbn [run]; [done|].
  pose proof (dispatch_uncaught ev w (or_introl Hsafe)) as H1.
  destruct (dispatch host ev w) as [w1 out1]. specialize (IH w1).
  destruct (run host evs w1) as [w2 out2]. cbn [snd] in *.
  by rewrite uncaught_app, H1, IH.
Qed.

(** An event leaves the intent set alone or adds one video to it. *)
Lemma dispatch_intent (ev : Event) (w : World) :
  userClickedPlay (dispatch host ev w).1 = userClickedPlay w
  ∨ ∃ v, userClickedPlay (dispatch host ev w).1 = {[v]} ∪ userClickedPlay w.
Proof.
  destruct ev as [t|entries|records|v| |dt|v p|doc]; cbn [dispatch].
  - destruct (clickListener w); [|by left]. rewrite settle_final.
    apply handleBodyClick_tame.
  - left. rewrite settle_final. by destruct (handleIntersection_spec host entries w)
      as (_ & [] & _).
  - left. destruct (mutationObserver w); [|done]. rewrite settle_final.
    apply mutationCallback_spec.
  - left. destruct (playListener (elems w v)); [|done]. rewrite settle_final.
    by destruct (handleVideoPlay_spec host v w) as (_ & [] & _).
  - left. destruct (playPromises w) as [|[v b] rest]; [done|]. by destruct b.
  - left. apply advance_spec.
  - by left.
  - by left.
Qed.

End Isolation.

(** The script, once evaluated, has touched no video and started its two timers. *)
Lemma boot_spec (doc : Node) (videos : nat → VideoElem) :
  boot doc videos =
    (mkWorld ∅ ∅ None doc videos ∅ true false []
       [mkTimer 1 1000 CbInitialScan; mkTimer 2 1500 CbObserveDOMChanges] 3 0,
     [(0, Log LScriptLoaded); (0, Log LCreatingObserver); (0, AddClickListener);
      (0, Log (LInit 1)); (0, Log (LInit 2)); (0, SetTimeout 1 1000 CbInitialScan);
      (0, Log (LInit 3)); (0, SetTimeout 2 1500 CbObserveDOMChanges);
      (0, Log (LInit 4))]).
Proof. done. Qed.

Lemma boot_tame (doc : Node) (videos : nat → VideoElem) :
  Tame (pageLoad doc videos) (boot doc videos).1 (boot doc videos).2.
Proof. rewrite boot_spec. constructor; cbn; try done; try no_pause; constructor. Qed.


Global Instance Elem_inj : Inj (=) (=) Elem.
Proof. by intros ? ? [= ->]. Qed.

(** ** The properties of the specification *)

Section Claims.

Variable host : Host.

(** C1. A video outside the intent set that an intersection entry reports
    as visible is paused at once, whatever its [paused] flag says, and a
    timer is started that repeats the assertive pause 50 ms later; the
    observer was created with a threshold of 10%. *)
Theorem visible_video_is_paused_and_rechecked
    (entries : list IOEntry) (w : World) (e : IOEntry) :
  e ∈ entries → isIntersecting e = true → targetIsVideo e = true →
  target e ∉ userClickedPlay w →
  let o := handleIntersection host entries w in
  let v := target e in
  result (createIntersectionObserver w) = Ok (mkIOOptions 10)
  ∧ result o = Ok tt
  ∧ (now w, Pause v) ∈ effects o
  ∧ (∃ id, (now w, SetTimeout id 50 (CbIntersectionTimeout v)) ∈ effects o
           ∧ mkTimer id (now w + 50) (CbIntersectionTimeout v) ∈ timers (final o))
  ∧ (∀ w', v ∉ userClickedPlay w' →
       pauses (effects (runCallback host (CbIntersectionTimeout v) w')) = [v])
  ∧ (∀ context w', v ∉ userClickedPlay w' →
       pauses (effects (pauseVideoIfAppropriate host (Elem v) context true w')) = [v]).
Proof.
  intros Hin Hi Hv Hnot.
  pose proof (handleIntersection_spec host entries w) as H. cbn zeta in H |- *.
  destruct H as (Hr & Hs & Htm & Hn & Hp & Hto & _ & _ & _ & _ & _ & _ & Ht).
  assert (Hvis : target e ∈ visible entries) by (apply elem_of_visible; eauto).
  assert (Hassert : ∀ context w', target e ∉ userClickedPlay w' →
            pauses (effects (pauseVideoIfAppropriate host (Elem (target e)) context true w'))
            = [target e]).
  { intros context w' Hno.
    destruct (pauseVideoIfAppropriate_spec host (target e) context true w')
      as (_ & _ & _ & Hp' & _).
    rewrite Hp'. cbn. by rewrite bool_decide_eq_false_2. }
  split_and!; [done|done| | |by intros; apply Hassert|done].
  - assert (target e ∈ pauses (effects (handleIntersection host entries w))) as Hpa.
    { rewrite Hp. by apply list_elem_of_filter. }
    apply elem_of_pauses in Hpa as [t Hpa]. by eapply stamped_elem.
  - destruct (elem_of_recheckTimers (nextTimerId w) (now w + 50) _ _ Hvis) as [i Hi'].
    exists i. split.
    + assert ((i, 50, CbIntersectionTimeout (target e))
                ∈ timeouts (effects (handleIntersection host entries w))) as Hx.
      { rewrite Hto. by apply (list_elem_of_fmap_2' _ _ _ _ Hi'). }
      apply elem_of_timeouts in Hx as [t Hx]. by eapply stamped_elem.
    + rewrite Htm. apply elem_of_app. by right.
Qed.

(** C2. While a video is in the intent set, neither assertive nor
    conservative enforcement nor the 'play' listener pauses it, and no
    sequence of events makes the governor pause it. *)
Theorem authorized_video_is_never_paused (v : nat) (w : World) :
  v ∈ userClickedPlay w →
  (∀ context assertive,
     pauses (effects (pauseVideoIfAppropriate host (Elem v) context assertive w)) = [])
  ∧ pauses (effects (handleVideoPlay host v w)) = []
  ∧ (∀ evs, v ∉ pauses (run host evs w).2).
Proof.
  intros Hin. split_and!.
  - intros context assertive.
    destruct (pauseVideoIfAppropriate_spec host v context assertive w)
      as (_ & _ & _ & Hp & _).
    rewrite Hp, bool_decide_eq_true_2 by done. by rewrite andb_false_r.
  - destruct (handleVideoPlay_spec host v w) as (_ & _ & _ & Hp & _).
    by rewrite Hp, bool_decide_eq_true_2.
  - intros evs Hp. by apply (tame_pauses _ _ _ (run_tame host evs w)) in Hp.
Qed.


(** C5. In conservative mode a pause is issued, and only one, exactly
    when the video is playing and is not in the intent set. *)
Theorem conservative_mode_pauses_playing_unauthorized
    (v : nat) (context : string) (w : World) :
  let o := pauseVideoIfAppropriate host (Elem v) context false w in
  (v ∈ pauses (effects o) ↔ paused (elems w v) = false ∧ v ∉ userClickedPlay w)
  ∧ pauses (effects o) =
      (if negb (paused (elems w v)) && negb (bool_decide (v ∈ userClickedPlay w))
       then [v] else []).
Proof.
  destruct (pauseVideoIfAppropriate_spec host v context false w) as (_ & _ & _ & Hp & _).
  cbn zeta. rewrite Hp. cbn [orb]. split; [|done].
  destruct (paused (elems w v)), (bool_decide_reflect (v ∈ userClickedPlay w)); cbn;
    rewrite ?elem_of_nil, ?list_elem_of_singleton; naive_solver.
Qed.

(** C10. Enforcement on a [null] or [undefined] handle, in either mode,
    returns normally, leaves the world as it was, calls no host
    primitive (no pause, no listener) and only writes to the console. *)
Theorem enforcement_on_missing_video_is_noop
    (h : Handle) (context : string) (assertive : bool) (w : World) :
  h = Null ∨ h = Undefined →
  let o := pauseVideoIfAppropriate host h context assertive w in
  result o = Ok tt ∧ final o = w
  ∧ pauses (effects o) = [] ∧ listenerAttachments (effects o) = []
  ∧ Forall (λ x, isLog x.2 = true) (effects o)
  ∧ attachPlayListenerIfNeeded h w = mkOutcome (Ok tt) w [].
Proof.
  intros Hh. cbn zeta. rewrite (pauseVideoIfAppropriate_null host h context assertive w Hh).
  split_and!; try done; [by repeat constructor|by destruct Hh as [-> | ->]].
Qed.

(** C4. Qualifying mutation batches that follow one another by less
    than the quiet window (300 ms) lead to one scan, which starts a quiet
    window after the last batch; each batch clears the timer that
    [debounceTimer] names and starts a new one; and at no point of any
    run is more than one debounce timer pending. *)
Theorem burst_of_mutations_runs_one_scan
    (w : World) (first : list MutationRecord) (rest : list (nat * list MutationRecord))
    (T : nat) :
  timersOk w → mutationObserver w = true →
  Forall (λ tm, callback tm ≠ CbInitialScan) (timers w) →
  structuralChange first = true →
  Forall (λ p, p.1 < quiet_window ∧ structuralChange p.2 = true) rest →
  quiet_window ≤ T →
  let evs := EvMutations first :: burst rest ++ [EvAdvance T] in
  quiet_window = 300
  ∧ scans (run host evs w).2 = [now w + sum_list (fst <$> rest) + quiet_window]
  ∧ (dispatch host (EvMutations first) w).2 =
      [(now w, ClearTimeout (debounceTimer w));
       (now w, SetTimeout (nextTimerId w) quiet_window CbDebouncedScan)]
  ∧ (∀ evs', length (pendingDebounce (run host evs' w).1) ≤ 1).
Proof.
  intros Hok Hobs Hinit Hfirst Hrest HT. cbn zeta.
  pose proof (mutations_arm host first w Hok Hobs Hinit Hfirst) as Hmut. cbn zeta in Hmut.
  split_and!; [done| |apply Hmut|].
  2: { intros evs'. by apply timersOk_one_pending, run_timersOk. }
  cbn [run]. destruct (dispatch host (EvMutations first) w) as [w1 out1].
  cbn [fst snd] in Hmut. destruct Hmut as (Harm1 & Hnow1 & Hinit1 & He1).
  rewrite <- Hnow1 in Harm1.
  rewrite run_app.
  pose proof (burst_quiet host rest w1 Harm1 Hinit1 Hrest) as Hb. cbn zeta in Hb.
  destruct (run host (burst rest) w1) as [w2 out2]. cbn [fst snd] in Hb |- *.
  destruct Hb as (Harm2 & Hsc2 & Hnow2).
  pose proof (advance_scans host _ T w2 Harm2) as Hadv. cbn zeta in Hadv.
  cbn [run]. change (dispatch host (EvAdvance T) w2) with (advance host T w2).
  destruct (advance host T w2) as [w3 out3]. cbn [fst snd] in Hadv |- *.
  destruct Hadv as (_ & _ & Hfire). destruct Hfire as [Hsc3 _]; [lia|].
  rewrite !scans_app, Hsc2, Hsc3, He1, app_nil_r. autorewrite with trace. cbn.
  f_equal. lia.
Qed.

(** C6. Clicks inside a player container holding video [v] put [v] in
    the intent set; across any number of such clicks [userClickedPlay.add]
    is called at most once (once if [v] was not in the set); each click
    calls [play()] once, and only after the grant; and [v] stays in the
    set whatever follows, a rejected or raising [play()] included. *)
Theorem clicks_grant_intent_once (w : World) (ts : list nat) (v : nat) :
  clickListener w = true → ts ≠ [] →
  Forall (λ t, clickedVideo (document w) t = Some v) ts →
  let s := run host (EvClick <$> ts) w in
  userClickedPlay s.1 = {[v]} ∪ userClickedPlay w
  ∧ grants s.2 = (if bool_decide (v ∈ userClickedPlay w) then [] else [v])
  ∧ plays s.2 = replicate (length ts) v
  ∧ (∀ t w', clickedVideo (document w') t = Some v →
       ∃ pre post, effects (handleBodyClick host t w') = pre ++ (now w', Play v) :: post
                   ∧ plays pre = [] ∧ grants post = []
                   ∧ (v ∈ userClickedPlay w' ∨ v ∈ grants pre))
  ∧ (∀ evs, v ∈ userClickedPlay (run host ((EvClick <$> ts) ++ evs) w).1).
Proof.
  intros Hcl Hne Hts. cbn zeta.
  assert (Hrun : ∀ ts w, clickListener w = true →
            Forall (λ t, clickedVideo (document w) t = Some v) ts →
            let s := run host (EvClick <$> ts) w in
            (ts ≠ [] → userClickedPlay s.1 = {[v]} ∪ userClickedPlay w)
            ∧ (ts ≠ [] → grants s.2 = (if bool_decide (v ∈ userClickedPlay w) then [] else [v]))
            ∧ plays s.2 = replicate (length ts) v).
  { clear. induction ts as [|t ts IH]; intros w Hcl Hts; cbn zeta; [done|].
    apply list.Forall_cons in Hts as [Ht Hts].
    cbn [fmap list_fmap run dispatch length replicate]. rewrite Hcl.
    pose proof (handleBodyClick_video host t v w Ht) as H. cbn zeta in H.
    destruct H as (_ & _ & Hic & Hs & Hgr & Hpl & _).
    destruct (settle_trace (handleBodyClick host t w)) as (_ & E1 & _ & _ & _ & E2 & _).
    destruct (settle (handleBodyClick host t w)) as [w1 out1] eqn:Es.
    assert (w1 = final (handleBodyClick host t w)) as -> by (by inversion Es).
    cbn [fst snd] in E1, E2. destruct Hs as [_ _ Hdoc _ Hcl' _ _ _ _].
    specialize (IH (final (handleBodyClick host t w))). cbn zeta in IH.
    rewrite Hdoc, Hcl' in IH. specialize (IH Hcl Hts).
    destruct ts as [|t' ts'].
    { cbn. autorewrite with trace. rewrite E1, E2, Hpl, Hgr, !app_nil_r. done. }
    destruct (run host (EvClick <$> t' :: ts') (final (handleBodyClick host t w)))
      as [w2 out2].
    cbn [fst snd] in IH |- *. destruct IH as (IH1 & IH2 & IH3).
    rewrite grants_app, plays_app, E1, E2, Hpl, Hgr, IH3.
    split_and!; [| |done]; intros _.
    - rewrite IH1 by done. rewrite Hic. set_solver.
    - rewrite IH2 by done. rewrite Hic.
      rewrite (bool_decide_eq_true_2 (v ∈ {[v]} ∪ userClickedPlay w)) by set_solver.
      by rewrite app_nil_r. }
  destruct (Hrun ts w Hcl Hts) as (H1 & H2 & H3).
  split_and!; [by apply H1|by apply H2|done| |].
  - intros t w' Ht. by destruct (handleBodyClick_video host t v w' Ht)
      as (_ & _ & _ & _ & _ & _ & Hord & _).
  - intros evs. rewrite run_app. cbn [fst].
    apply (tame_intent _ _ _ (run_tame host evs _)). rewrite H1 by done. set_solver.
Qed.

(** C7. A scan neither registers again nor checks again a video that is
    already in the observed set; and from page load on, whatever happens,
    no video is registered twice or given the conservative check twice. *)
Theorem observed_video_is_not_scanned_again (w : World) (v : nat) :
  v ∈ observedVideos w →
  let o := scanAndObserveAllVideos host w in
  (v ∉ registrations (effects o)) ∧ (Elem v ∉ conservativeChecks (effects o))
  ∧ v ∈ observedVideos (final o)
  ∧ (∀ doc videos evs,
       let tr := (boot doc videos).2 ++ (run host evs (boot doc videos).1).2 in
       NoDup (registrations tr) ∧ NoDup (conservativeChecks tr)).
Proof.
  intros Hin. cbn zeta.
  destruct (scanAndObserveAllVideos_spec host w)
    as (_ & _ & Hob & _ & Hg & Hc & _).
  split_and!.
  - rewrite Hg. tauto.
  - rewrite Hc. intros (u & [= <-] & Hu)%list_elem_of_fmap. apply Hg in Hu. tauto.
  - rewrite Hob. set_solver.
  - intros doc videos evs.
    pose proof (Tame_trans _ _ _ _ _ (boot_tame doc videos)
                  (run_tame host evs (boot doc videos).1)) as Ht.
    split; [apply Ht|]. rewrite (tame_checks _ _ _ Ht).
    apply NoDup_fmap_2; [apply _|apply Ht].
Qed.

(** C8, as the code has it. An exception of [pause()] never leaves the
    function that called it: it is caught and logged, the scan and the
    intersection handler go on with the remaining videos, and no event
    other than a click lets an exception through.  An exception can
    leave the click handler only when [play()] itself raises.  A failure
    of [play()] that comes as a rejection of its promise is handled: the
    click leaves the promise pending with both reactions, and when it is
    rejected the [.catch] reaction logs the failure and nothing reaches
    the page. *)
Theorem pause_failures_are_contained :
  (∀ h context assertive w,
     result (pauseVideoIfAppropriate host h context assertive w) = Ok tt)
  ∧ (∀ v w, result (handleVideoPlay host v w) = Ok tt)
  ∧ (∀ v context assertive w,
       (∀ w', pause_outcome host w' v = PauseThrows) →
       v ∈ pauses (effects (pauseVideoIfAppropriate host (Elem v) context assertive w)) →
       (now w, Log (LPauseError context (PauseFailed v) v))
         ∈ effects (pauseVideoIfAppropriate host (Elem v) context assertive w))
  ∧ (∀ v w,
       (∀ w', pause_outcome host w' v = PauseThrows) → v ∉ userClickedPlay w →
       (now w, Log (LPlayListenerError (PauseFailed v)))
         ∈ effects (handleVideoPlay host v w))
  ∧ (∀ w, result (scanAndObserveAllVideos host w) = Ok tt
          ∧ ∀ v, v ∈ querySelectorAll_video (document w) →
                 v ∈ observedVideos (final (scanAndObserveAllVideos host w)))
  ∧ (∀ entries w,
       result (handleIntersection host entries w) = Ok tt
       ∧ pauses (effects (handleIntersection host entries w)) =
           filter (λ v, v ∉ userClickedPlay w) (visible entries))
  ∧ (∀ ev w, (∀ t, ev ≠ EvClick t) → uncaught (dispatch host ev w).2 = [])
  ∧ ((∀ w' v, play_outcome host w' v ≠ PlayThrows) →
     ∀ evs w, uncaught (run host evs w).2 = [])
  ∧ (∀ t v w,
       clickedVideo (document w) t = Some v →
       let w1 := final (attachPlayListenerIfNeeded (Elem v) w) in
       let asked :=
         if bool_decide (v ∈ userClickedPlay w1) then w1
         else set_userClickedPlay ({[v]} ∪ userClickedPlay w1) w1 in
       let o := handleBodyClick host t w in
       match play_outcome host asked v with
       | PlayFulfils =>
           result o = Ok tt ∧ playPromises (final o) = playPromises w ++ [(v, true)]
       | PlayRejects =>
           result o = Ok tt ∧ playPromises (final o) = playPromises w ++ [(v, false)]
       | PlayThrows =>
           result o = Throw (PlayFailed v) ∧ playPromises (final o) = playPromises w
       end)
  ∧ (∀ v fulfilled rest w,
       playPromises w = (v, fulfilled) :: rest →
       dispatch host EvPromise w
       = (set_playPromises rest w,
          [(now w, Log (if fulfilled then LClickPlayOk v else LClickPlayFailed v))]))
  ∧ (∀ t v w,
       clickListener w = true → clickedVideo (document w) t = Some v →
       playPromises w = [] →
       (∀ w', play_outcome host w' v = PlayRejects) →
       let s := run host [EvClick t; EvPromise] w in
       (now w, Log (LClickPlayFailed v)) ∈ s.2
       ∧ uncaught s.2 = [] ∧ playPromises s.1 = []
       ∧ (v ∈ userClickedPlay s.1)).
Proof.
  split_and!.
  - intros. apply pauseVideoIfAppropriate_tame.
  - intros. apply handleVideoPlay_tame.
  - intros v context assertive w Hthrow. by apply pause_failure_logged.
  - intros. by apply play_listener_failure_logged.
  - intros w. destruct (scanAndObserveAllVideos_spec host w) as (Hr & _ & Hob & _).
    split; [done|]. intros v Hv. rewrite Hob. apply elem_of_union. left.
    by apply elem_of_list_to_set.
  - intros entries w.
    by destruct (handleIntersection_spec host entries w) as (Hr & _ & _ & _ & Hp & _).
  - intros ev w Hne. apply dispatch_uncaught. by right.
  - intros Hsafe evs w. by apply run_uncaught.
  - intros t v w Hv. by apply handleBodyClick_promise.
  - intros v fulfilled rest w Hpp. cbn [dispatch]. rewrite Hpp.
    by destruct fulfilled.
  - intros t v w Hcl Hv Hpp Hrej. cbn zeta. cbn [run dispatch]. rewrite Hcl.
    pose proof (handleBodyClick_promise host t v w Hv) as Hpr. cbn zeta in Hpr.
    rewrite Hrej in Hpr. destruct Hpr as [Hr Hq]. rewrite Hpp in Hq. cbn in Hq.
    destruct (handleBodyClick_video host t v w Hv)
      as (_ & _ & Hic & Hs & _ & _ & _ & _ & _ & _ & _ & _ & Hu & _).
    rewrite (settle_ok _ Hr), Hq. cbn.
    destruct Hs as [_ _ _ _ _ _ _ _ Hnow]. rewrite ?Hnow.
    split_and!.
    + apply elem_of_app. right. by left.
    + by rewrite uncaught_app, Hu.
    + done.
    + rewrite Hic, elem_of_union, elem_of_singleton. by left.
Qed.

(** C9. Every event leaves the intent set as it was or adds one video to
    it, so over any sequence of events the set only grows. *)
Theorem intent_set_only_grows :
  (∀ ev w,
     userClickedPlay (dispatch host ev w).1 = userClickedPlay w
     ∨ ∃ v, userClickedPlay (dispatch host ev w).1 = {[v]} ∪ userClickedPlay w)
  ∧ (∀ evs w, userClickedPlay w ⊆ userClickedPlay (run host evs w).1)
  ∧ (∀ doc videos, userClickedPlay (boot doc videos).1 = ∅).
Proof.
  split_and!.
  - apply dispatch_intent.
  - intros evs w. apply (run_tame host evs w).
  - intros. by rewrite boot_spec.
Qed.

End Claims.

(** ** The properties on the sample page *)

Lemma visible_video_is_paused_and_rechecked_witness :
  Sample.entering ∈ [Sample.entering]
  ∧ (target Sample.entering ∉ userClickedPlay Sample.ready)
  ∧ (now Sample.ready, Pause 3)
      ∈ effects (handleIntersection Sample.stubborn [Sample.entering] Sample.ready).
Proof.
  assert (H1 : Sample.entering ∈ [Sample.entering]) by left.
  assert (H2 : target Sample.entering ∉ userClickedPlay Sample.ready)
    by (vm_compute; discriminate).
  split_and!; [exact H1|exact H2|].
  exact (proj1 (proj2 (proj2
    (visible_video_is_paused_and_rechecked Sample.stubborn [Sample.entering] Sample.ready
       Sample.entering H1 eq_refl eq_refl H2)))).
Defined.

Lemma authorized_video_is_never_paused_witness :
  3 ∈ userClickedPlay Sample.clicked
  ∧ 3 ∉ pauses (run Sample.obedient
                  [EvIntersection [Sample.entering]; EvAdvance 50; EvPlay 3]
                  Sample.clicked).2.
Proof.
  assert (H1 : 3 ∈ userClickedPlay Sample.clicked) by (vm_compute; reflexivity).
  split; [exact H1|].
  exact (proj2 (proj2 (authorized_video_is_never_paused Sample.obedient 3 Sample.clicked H1))
           [EvIntersection [Sample.entering]; EvAdvance 50; EvPlay 3]).
Defined.



Lemma burst_of_mutations_runs_one_scan_witness :
  timersOk Sample.busy ∧ mutationObserver Sample.busy = true
  ∧ scans (run Sample.stubborn
             (EvMutations Sample.insertion
              :: burst [(100, Sample.insertion); (299, Sample.insertion)]
              ++ [EvAdvance 300]) Sample.busy).2
    = [now Sample.busy + sum_list (fst <$> [(100, Sample.insertion); (299, Sample.insertion)])
       + quiet_window].
Proof.
  assert (H1 : timersOk Sample.busy).
  { constructor; vm_compute.
    - repeat (apply list.NoDup_cons; split; [set_solver|]). constructor.
    - repeat (constructor; [lia|]). constructor.
    - repeat (constructor; [by intros; first [discriminate|reflexivity]|]). constructor. }
  assert (H2 : Forall (λ tm, callback tm ≠ CbInitialScan) (timers Sample.busy)).
  { vm_compute. repeat (constructor; [discriminate|]). constructor. }
  assert (H3 : Forall (λ p : nat * list MutationRecord,
                         p.1 < quiet_window ∧ structuralChange p.2 = true)
                 [(100, Sample.insertion); (299, Sample.insertion)]).
  { repeat (constructor; [split; [vm_compute; lia|reflexivity]|]). constructor. }
  split_and!; [exact H1|reflexivity|].
  exact (proj1 (proj2
    (burst_of_mutations_runs_one_scan Sample.stubborn Sample.busy Sample.insertion
       [(100, Sample.insertion); (299, Sample.insertion)] 300
       H1 eq_refl H2 eq_refl H3 (Nat.le_refl _)))).
Defined.

Lemma conservative_mode_pauses_playing_unauthorized_witness :
  pauses (effects (pauseVideoIfAppropriate Sample.obedient (Elem 3) "Scan-InitialCheck"
                     false Sample.ready))
  = (if negb (paused (elems Sample.ready 3))
        && negb (bool_decide (3 ∈ userClickedPlay Sample.ready))
     then [3] else []).
Proof.
  exact (proj2 (conservative_mode_pauses_playing_unauthorized Sample.obedient 3
                  "Scan-InitialCheck" Sample.ready)).
Defined.

Lemma clicks_grant_intent_once_witness :
  Forall (λ t, clickedVideo (document Sample.ready) t = Some 3) [4; 3; 2]
  ∧ grants (run Sample.stubborn (EvClick <$> [4; 3; 2]) Sample.ready).2
    = (if bool_decide (3 ∈ userClickedPlay Sample.ready) then [] else [3]).
Proof.
  assert (H1 : Forall (λ t, clickedVideo (document Sample.ready) t = Some 3) [4; 3; 2])
    by (repeat (constructor; [reflexivity|]); constructor).
  split; [exact H1|].
  exact (proj1 (proj2
    (clicks_grant_intent_once Sample.stubborn Sample.ready [4; 3; 2] 3
       eq_refl ltac:(discriminate) H1))).
Defined.

Lemma observed_video_is_not_scanned_again_witness :
  3 ∈ observedVideos Sample.ready
  ∧ 3 ∉ registrations (effects (scanAndObserveAllVideos Sample.obedient Sample.ready)).
Proof.
  assert (H1 : 3 ∈ observedVideos Sample.ready) by (vm_compute; reflexivity).
  split; [exact H1|].
  exact (proj1 (observed_video_is_not_scanned_again Sample.obedient Sample.ready 3 H1)).
Defined.

(** C8 as stated fails: on a host whose [play()] raises, the exception
    leaves [handleBodyClick] and reaches the page. *)
Lemma play_exception_leaves_click_handler :
  result (handleBodyClick Sample.hostile 4 Sample.ready) = Throw (PlayFailed 3)
  ∧ uncaught (dispatch Sample.hostile (EvClick 4) Sample.ready).2 = [PlayFailed 3].
Proof. split; vm_compute; reflexivity. Qed.

Lemma pause_failures_are_contained_witness :
  (∀ w' v, play_outcome Sample.brittle w' v ≠ PlayThrows)
  ∧ uncaught (run Sample.brittle
                [EvAdvance 1500; EvIntersection [Sample.entering]; EvClick 4; EvPromise;
                 EvPlay 5; EvAdvance 50]
                (boot Sample.page Sample.playing).1).2 = []
  ∧ clickListener Sample.ready = true
  ∧ clickedVideo (document Sample.ready) 4 = Some 3
  ∧ playPromises Sample.ready = []
  ∧ (∀ w', play_outcome Sample.brittle w' 3 = PlayRejects)
  ∧ (now Sample.ready, Log (LClickPlayFailed 3))
      ∈ (run Sample.brittle [EvClick 4; EvPromise] Sample.ready).2.
Proof.
  assert (H1 : ∀ w' v, play_outcome Sample.brittle w' v ≠ PlayThrows) by (intros; discriminate).
  assert (H2 : clickListener Sample.ready = true) by reflexivity.
  assert (H3 : clickedVideo (document Sample.ready) 4 = Some 3) by reflexivity.
  assert (H4 : playPromises Sample.ready = []) by reflexivity.
  assert (H5 : ∀ w', play_outcome Sample.brittle w' 3 = PlayRejects) by reflexivity.
  split_and!; [exact H1| |exact H2|exact H3|exact H4|exact H5|].
  - exact (proj1 (proj2 (proj2 (proj2 (proj2 (proj2 (proj2 (proj2
      (pause_failures_are_contained Sample.brittle)))))))) H1 _ _).
  - exact (proj1 (proj2 (proj2 (proj2 (proj2 (proj2 (proj2 (proj2 (proj2 (proj2 (proj2
      (pause_failures_are_contained Sample.brittle)))))))))) 4 3 Sample.ready H2 H3 H4 H5)).
Defined.

Lemma intent_set_only_grows_witness :
  userClickedPlay Sample.ready
    ⊆ userClickedPlay (run Sample.hostile [EvClick 4; EvPromise; EvAdvance 1000]
                         Sample.ready).1.
Proof. exact (proj1 (proj2 (intent_set_only_grows Sample.hostile)) _ _). Defined.

Lemma enforcement_on_missing_video_is_noop_witness :
  final (pauseVideoIfAppropriate Sample.hostile Null "Intersection-Immediate" true
           Sample.ready) = Sample.ready.
Proof.
  exact (proj1 (proj2
    (enforcement_on_missing_video_is_noop Sample.hostile Null "Intersection-Immediate"
       true Sample.ready (or_introl eq_refl)))).
Defined.

(** ** Further properties of the script *)

Lemma attachPlayListenerIfNeeded_flag (v : nat) (w : World) :
  playListenerAttached (elems (final (attachPlayListenerIfNeeded (Elem v) w)) v) = Some "true".
Proof.
  unfold attachPlayListenerIfNeeded, bind, get, log, emit, modify, ret. cbn.
  destruct (bool_decide_reflect (playListenerAttached (elems w v) ≠ Some "true"))
    as [Hne|He]; repeat (progress (cbn; rewrite ?fn_lookup_insert)); [done|].
  by apply dec_stable in He.
Qed.

Lemma length_recheckTimers (id t : nat) (vs : list nat) :
  length (recheckTimers id t vs) = length vs.
Proof. revert id. induction vs as [|v vs IH]; intros id; cbn; [done|]. by rewrite IH. Qed.

Section Further.

Variable host : Host.

(** X1. The 'play' listener (handleVideoPlay) calls [pause()] once on a
    video that is not in the intent set and not at all on one that is; it
    never raises, never retries, and touches nothing but that video: when
    the pause takes effect the video ends paused, when it has no effect
    the video is left playing and the anomaly is logged. *)
Theorem play_listener_reverts_unauthorized_play (v : nat) (w : World) :
  let o := handleVideoPlay host v w in
  result o = Ok tt
  ∧ pauses (effects o) = (if bool_decide (v ∈ userClickedPlay w) then [] else [v])
  ∧ sameScript w (final o)
  ∧ (∀ u, u ≠ v → elems (final o) u = elems w u)
  ∧ (v ∈ userClickedPlay w → final o = w)
  ∧ (v ∉ userClickedPlay w →
     match pause_outcome host w v with
     | PauseFlips =>
         paused (elems (final o) v) = true
         ∧ (now w, Log LPlayListenerPaused) ∈ effects o
     | PauseIneffective =>
         final o = w
         ∧ (paused (elems w v) = false →
            (now w, Log LPlayListenerStillPlaying) ∈ effects o)
     | PauseThrows =>
         final o = w ∧ (now w, Log (LPlayListenerError (PauseFailed v))) ∈ effects o
     end).
Proof.
  destruct (handleVideoPlay_spec host v w) as (Hr & Hs & He & Hp & _).
  cbn zeta. split_and!; [done..| |].
  - intros Hin. js_open. by rewrite bool_decide_eq_true_2.
  - intros Hno. js_open. rewrite bool_decide_eq_false_2 by done. cbn.
    destruct (pause_outcome host w v) eqn:Hout;
      repeat (progress (cbn; rewrite ?fn_lookup_insert)).
    + split; [done|]. repeat (first [by left | right]).
    + destruct (paused (elems w v)); cbn; (split; [done|]); [done|].
      intros _. repeat (first [by left | right]).
    + split; [done|]. repeat (first [by left | right]).
Qed.

(** X2. attachPlayListenerIfNeeded is idempotent and trusts the flag: a
    call leaves [data-play-listener-attached] at 'true', a second call
    does nothing, the listener is added exactly when the flag was not
    'true', and a video that already carries the flag is left alone even
    if no listener was ever added to it. *)
Theorem play_listener_is_attached_once (v : nat) (w : World) :
  let o := attachPlayListenerIfNeeded (Elem v) w in
  playListenerAttached (elems (final o) v) = Some "true"
  ∧ attachPlayListenerIfNeeded (Elem v) (final o) = mkOutcome (Ok tt) (final o) []
  ∧ listenerAttachments (effects o) =
      (if bool_decide (playListenerAttached (elems w v) ≠ Some "true") then [v] else [])
  ∧ (playListenerAttached (elems w v) = Some "true" → o = mkOutcome (Ok tt) w [])
  ∧ (playListenerAttached (elems w v) ≠ Some "true" →
     playListener (elems (final o) v) = true
     ∧ paused (elems (final o) v) = paused (elems w v)).
Proof.
  cbn zeta. unfold attachPlayListenerIfNeeded, bind, get, log, emit, modify, ret. cbn.
  destruct (bool_decide_reflect (playListenerAttached (elems w v) ≠ Some "true"))
    as [Hne|He]; repeat (progress (cbn; rewrite ?fn_lookup_insert)).
  - rewrite bool_decide_eq_false_2 by (intros H; by apply H).
    by split_and!.
  - apply dec_stable in He. rewrite He.
    rewrite bool_decide_eq_false_2 by (intros H; by apply H).
    by split_and!.
Qed.

(** X3. An enforcement call that decides to pause calls [pause()] once,
    whatever comes of it, and returns normally: if the pause takes effect
    the video ends paused and success is logged; if it has no effect the
    video is left as it was and a warning is logged when it is still
    playing; if it raises, the error is logged.  The host is asked in the
    world in which the interceptor has just been ensured. *)
Theorem ineffective_pause_is_reported_not_retried
    (v : nat) (context : string) (assertive : bool) (w : World) :
  let w1 := final (attachPlayListenerIfNeeded (Elem v) w) in
  let o := pauseVideoIfAppropriate host (Elem v) context assertive w in
  v ∈ pauses (effects o) →
  result o = Ok tt
  ∧ pauses (effects o) = [v]
  ∧ playListenerAttached (elems (final o) v) = Some "true"
  ∧ match pause_outcome host w1 v with
    | PauseFlips =>
        paused (elems (final o) v) = true
        ∧ (now w, Log (LPausedOk context v)) ∈ effects o
    | PauseIneffective =>
        paused (elems (final o) v) = paused (elems w v)
        ∧ (paused (elems w v) = false → (now w, Log (LStillPlaying context v)) ∈ effects o)
    | PauseThrows =>
        paused (elems (final o) v) = paused (elems w v)
        ∧ (now w, Log (LPauseError context (PauseFailed v) v)) ∈ effects o
    end.
Proof.
  cbn zeta.
  pose proof (attachPlayListenerIfNeeded_spec v w) as H1.
  pose proof (attachPlayListenerIfNeeded_flag v w) as Hflag.
  unfold pauseVideoIfAppropriate.
  destruct (attachPlayListenerIfNeeded (Elem v) w) as [r1 w1 out1] eqn:E1.
  cbn in H1, Hflag.
  destruct H1 as (-> & Hs1 & _ & Hpa1 & Hp1 & _).
  destruct Hs1 as [Hic _ _ _ _ _ _ _ _ _ Hnow].
  unfold bind, log, emit, get, intentHas, ret, tryCatch, video_pause, modify, raise.
  rewrite E1. cbn. rewrite Hic, Hpa1, Hnow.
  destruct (bool_decide (v ∈ userClickedPlay w)) eqn:Hm, assertive,
    (paused (elems w v)) eqn:Hpaused; cbn;
    autorewrite with trace; rewrite ?Hp1; cbn;
    try (by intros []%elem_of_nil); intros _.
  all: destruct (pause_outcome host w1 v) eqn:Hout;
    repeat (progress (cbn; rewrite ?fn_lookup_insert, ?Hpa1, ?Hpaused));
    autorewrite with trace; rewrite ?Hp1; cbn.
  all: split_and!; try done; try (intros; exfalso; congruence);
    try (intros _);
    try (apply elem_of_cons; right; apply elem_of_app; right;
         repeat (first [by left | right])).
  all: rewrite ?Hnow; apply elem_of_app; right; repeat (first [by left | right]).
Qed.

(** X4. handleIntersection ignores an entry that is not intersecting or
    whose target is not a video element, and for every other entry it
    starts one 50 ms timer with a fresh identifier, also when the video
    is in the intent set and is therefore not paused. *)
Theorem every_visible_entry_starts_a_recheck (entries : list IOEntry) (w : World) :
  let o := handleIntersection host entries w in
  timeouts (effects o) =
    (λ tm, (tid tm, 50, callback tm)) <$>
      recheckTimers (nextTimerId w) (now w + 50) (visible entries)
  ∧ timers (final o) =
      timers w ++ recheckTimers (nextTimerId w) (now w + 50) (visible entries)
  ∧ length (timeouts (effects o)) = length (visible entries)
  ∧ (∀ e, e ∈ entries → isIntersecting e = true → targetIsVideo e = true →
       ∃ id, (id, 50, CbIntersectionTimeout (target e)) ∈ timeouts (effects o)
             ∧ nextTimerId w ≤ id < nextTimerId (final o))
  ∧ (Forall (λ e, isIntersecting e = false ∨ targetIsVideo e = false) entries →
     o = mkOutcome (Ok tt) w []).
Proof.
  destruct (handleIntersection_spec host entries w)
    as (Hr & Hs & Htm & Hn & Hp & Hto & _).
  cbn zeta. split_and!; [done|done| | |].
  - by rewrite Hto, length_fmap, length_recheckTimers.
  - intros e Hin Hi Hv.
    assert (target e ∈ visible entries) as Hvis by (apply elem_of_visible; eauto).
    destruct (elem_of_recheckTimers (nextTimerId w) (now w + 50) _ _ Hvis) as [i Hi'].
    exists i. split.
    + rewrite Hto. by apply (list_elem_of_fmap_2' _ _ _ _ Hi').
    + destruct (recheckTimers_ids (nextTimerId w) (now w + 50) (visible entries))
        as (_ & Hr' & _).
      rewrite list.Forall_forall in Hr'. apply Hr' in Hi'. cbn in Hi'. lia.
  - clear Hr Hs Htm Hn Hp Hto.
    unfold handleIntersection. induction 1 as [|e es He _ IH]; [done|].
    assert (isIntersecting e && targetIsVideo e = false) as Hskip.
    { destruct He as [-> | ->]; [done|by rewrite andb_false_r]. }
    rewrite forEach_cons by (by rewrite intersectionEntry_skip).
    rewrite intersectionEntry_skip by done. cbn [final effects app]. by rewrite IH.
Qed.

(** X5. The MutationObserver callback reacts to a batch exactly when one
    of its records is of type childList and added or removed a node; any
    other batch (attribute or text changes, empty child lists) leaves the
    world as it is and starts no timer. *)
Theorem only_structural_mutations_trigger_a_scan
    (records : list MutationRecord) (w : World) :
  (structuralChange records = true ↔
     ∃ r, r ∈ records ∧ mtype r = ChildList ∧ (addedNodes r ≠ [] ∨ removedNodes r ≠ []))
  ∧ (structuralChange records = false → mutationCallback records w = mkOutcome (Ok tt) w [])
  ∧ (structuralChange records = true → mutationCallback records w = debouncedScanAndObserve w).
Proof.
  split_and!.
  - induction records as [|r rs IH]; cbn [structuralChange].
    + split; [done|]. by intros (r & []%elem_of_nil & _).
    + assert (Hlen : ∀ l : list nat, (0 <? length l) = true ↔ l ≠ []).
      { intros [|x l]; cbn; split; done. }
      destruct (mtype r) eqn:Ht; cbn [andb].
      * destruct ((0 <? length (addedNodes r)) || (0 <? length (removedNodes r))) eqn:Hb.
        -- split; [intros _|done]. exists r. split; [left|]. split; [done|].
           apply orb_true_iff in Hb. rewrite !Hlen in Hb. done.
        -- rewrite IH. apply orb_false_iff in Hb as [Ha Hr].
           split.
           ++ intros (r' & Hin & H'). exists r'. split; [by right|done].
           ++ intros (r' & [->|Hin]%elem_of_cons & Ht' & Hch); [|by eauto].
              exfalso. destruct Hch as [Hch|Hch]; apply Hlen in Hch; congruence.
      * rewrite IH. split.
        -- intros (r' & Hin & H'). exists r'. split; [by right|done].
        -- intros (r' & [->|Hin]%elem_of_cons & Ht' & Hch); [congruence|by eauto].
      * rewrite IH. split.
        -- intros (r' & Hin & H'). exists r'. split; [by right|done].
        -- intros (r' & [->|Hin]%elem_of_cons & Ht' & Hch); [congruence|by eauto].
  - intros H. unfold mutationCallback. by rewrite H.
  - intros H. unfold mutationCallback. by rewrite H.
Qed.

(** X6. A click that is not inside a player container, or inside a
    container that holds no video, grants nothing and plays nothing: the
    world is left as it was and only the console is written to. *)
Theorem click_outside_a_player_changes_nothing (t : nat) (w : World) :
  clickedVideo (document w) t = None →
  let o := handleBodyClick host t w in
  result o = Ok tt ∧ final o = w
  ∧ grants (effects o) = [] ∧ plays (effects o) = []
  ∧ listenerAttachments (effects o) = []
  ∧ Forall (λ x, isLog x.2 = true) (effects o).
Proof.
  intros H. destruct (handleBodyClick_miss host t w H) as (Hr & Hf & He).
  cbn zeta. destruct He as [-> | [c ->]]; split_and!; try done; repeat constructor.
Qed.

End Further.

(** ** Timers that expire *)

Lemma fire_run (host : Host) (tm : Timer) (w : World) :
  fire host tm w =
    runCallback host (callback tm)
      (set_now (now w `max` due tm)
         (set_timers (filter (λ t, tid t ≠ tid tm) (timers w)) w)).
Proof.
  unfold fire, bind, modify. cbn [result final effects].
  by destruct (runCallback host (callback tm) _).
Qed.

(** The state part of a step summary. *)
Lemma Tame_forget (w w' : World) (tr : list (nat * Effect)) : Tame w w' tr → Tame w w' [].
Proof.
  intros [Hi Ho _ _ _ _ _ _ Hcl Hm Ht].
  constructor; try done; try (intros ? []%elem_of_nil); constructor.
Qed.

Section Expiry.

Variable host : Host.

(** When time has advanced, no pending timer is overdue: the callbacks
    start no timer, so one round per pending timer is enough. *)
Lemma runTimers_drains (fuel t : nat) (w : World) :
  length (timers w) ≤ fuel → dueBy t (timers (runTimers host fuel t w).1) = [].
Proof.
  revert w. induction fuel as [|fuel IH]; intros w Hlen; cbn [runTimers].
  { cbn [fst]. destruct (timers w); [done|cbn in Hlen; lia]. }
  destruct (earliest (dueBy t (timers w))) as [tm|] eqn:E.
  2: { by apply earliest_None in E. }
  apply earliest_Some in E as [[Hdue Hin]%list_elem_of_filter _].
  pose proof (fire_spec host tm w) as H. cbn zeta in H.
  destruct H as (Hr & Htm & _).
  rewrite (settle_ok _ Hr).
  assert (length (timers (final (fire host tm w))) ≤ fuel) as Hlen'.
  { rewrite Htm.
    pose proof (length_filter_lt (λ x, tid x ≠ tid tm) (timers w) tm Hin) as Hlt.
    cbn in Hlt. specialize (Hlt ltac:(tauto)). lia. }
  specialize (IH _ Hlen').
  by destruct (runTimers host fuel t (final (fire host tm w))).
Qed.

(** A pending timer whose time has come runs its callback, at its
    expiry time, in a world with the intent set and the document of the
    start, and is pending no more. *)
Lemma runTimers_fires (fuel t : nat) (w : World) (tm : Timer) :
  timersOk w → tm ∈ timers w → due tm ≤ t → now w ≤ due tm → length (timers w) ≤ fuel →
  ∃ w', now w' = due tm ∧ userClickedPlay w' = userClickedPlay w
        ∧ document w' = document w
        ∧ (∀ x, x ∈ effects (runCallback host (callback tm) w') →
                x ∈ (runTimers host fuel t w).2)
        ∧ Tame (final (runCallback host (callback tm) w')) (runTimers host fuel t w).1 []
        ∧ tm ∉ timers (runTimers host fuel t w).1.
Proof.
  revert w. induction fuel as [|fuel IH]; intros w Hok Hin Hdue Hnow Hlen.
  { destruct (timers w); [by apply elem_of_nil in Hin|cbn in Hlen; lia]. }
  cbn [runTimers].
  destruct (earliest (dueBy t (timers w))) as [u|] eqn:E.
  2: { apply earliest_None in E.
       assert (tm ∈ dueBy t (timers w)) as Hc by (by apply list_elem_of_filter).
       rewrite E in Hc. by apply elem_of_nil in Hc. }
  apply earliest_Some in E as [[Hdueu Hinu]%list_elem_of_filter Hmin].
  pose proof (fire_spec host u w) as H. cbn zeta in H.
  destruct H as (Hr & Htm & Hni & Hdt & Hnow' & Hic & Hdoc & _).
  rewrite (settle_ok _ Hr).
  pose proof (runTimers_spec host fuel t (final (fire host u w))) as Hrest.
  cbn zeta in Hrest.
  destruct (decide (tid u = tid tm)) as [Eid|Nid].
  - assert (u = tm) as -> by (by apply (timer_by_id (timers w)); [apply Hok|..]).
    destruct (runTimers host fuel t (final (fire host tm w))) as [w2 out2].
    cbn [fst snd] in Hrest |- *.
    destruct Hrest as (Htame & _ & _ & _ & _ & _ & _ & _ & Hsub & _).
    rewrite fire_run in *.
    eexists. split_and!; [| | | |exact (Tame_forget _ _ _ Htame)|].
    + cbn. lia.
    + done.
    + done.
    + intros x Hx. apply elem_of_app. by left.
    + intros Hc. apply (elem_of_sublist _ _ _ Hc) in Hsub.
      rewrite Htm in Hsub. by apply list_elem_of_filter in Hsub as [Hne _].
  - assert (timersOk (final (fire host u w))) as Hok'.
    { apply (timersOk_sublist w); try done. rewrite Htm. apply sublist_filter. }
    assert (tm ∈ timers (final (fire host u w))) as Hin'.
    { rewrite Htm. apply list_elem_of_filter. split; [congruence|done]. }
    assert (now (final (fire host u w)) ≤ due tm) as Hclock.
    { rewrite Hnow'.
      assert (tm ∈ dueBy t (timers w)) as Hc by (by apply list_elem_of_filter).
      specialize (Hmin tm Hc). lia. }
    assert (length (timers (final (fire host u w))) ≤ fuel) as Hlen'.
    { rewrite Htm.
      pose proof (length_filter_lt (λ x, tid x ≠ tid u) (timers w) u Hinu) as Hlt.
      cbn in Hlt. specialize (Hlt ltac:(tauto)). lia. }
    destruct (IH _ Hok' Hin' Hdue Hclock Hlen') as (w' & H1 & H2 & H3 & H4 & H5 & H6).
    destruct (runTimers host fuel t (final (fire host u w))) as [w2 out2].
    cbn [fst snd] in *.
    exists w'. split_and!; try done; try congruence.
    intros x Hx. apply elem_of_app. right. by apply H4.
Qed.

End Expiry.

(** ** Before the MutationObserver is connected *)





Section Dormancy.

Variable host : Host.
Variable T : nat.






End Dormancy.


Section Timing.

Variable host : Host.

(** X7. A video that comes into view while it is not in the intent set
    is paused at once and, if 50 ms pass without a click, paused again
    exactly 50 ms later; after that no timer is overdue, so the re-check
    is gone and has not rescheduled itself. *)
Theorem visible_video_is_paused_again_after_50ms (w : World) (e : IOEntry) :
  timersOk w → isIntersecting e = true → targetIsVideo e = true →
  target e ∉ userClickedPlay w →
  let s := run host [EvIntersection [e]; EvAdvance 50] w in
  (now w, Pause (target e)) ∈ s.2
  ∧ (now w + 50, Pause (target e)) ∈ s.2
  ∧ now s.1 = now w + 50
  ∧ Forall (λ tm, now w + 50 < due tm) (timers s.1)
  ∧ timeouts (effects (runCallback host (CbIntersectionTimeout (target e)) w)) = [].
Proof.
  intros Hok Hi Hv Hno. cbn zeta. cbn [run dispatch].
  pose proof (handleIntersection_spec host [e] w) as H.
  pose proof (handleIntersection_tame host [e] w) as H'.
  cbn zeta in H, H'.
  destruct H as (Hr & Hs & Htm & Hn & Hp & Hto & _ & _ & _ & _ & _ & _ & Ht).
  destruct H' as (_ & _ & _ & _ & Hok').
  rewrite (settle_ok _ Hr).
  assert (Hvis : visible [e] = [target e]).
  { unfold visible. rewrite filter_cons_True by (by rewrite Hi, Hv). done. }
  rewrite Hvis in *. cbn [recheckTimers] in Htm.
  destruct Hs as [Hic _ _ _ _ _ _ _ Hnow].
  set (w1 := final (handleIntersection host [e] w)) in *.
  set (tm := mkTimer (nextTimerId w) (now w + 50) (CbIntersectionTimeout (target e))) in *.
  unfold advance.
  assert (Hin : tm ∈ timers w1) by (rewrite Htm; apply elem_of_app; right; left).
  destruct (runTimers_fires host (length (timers w1)) (now w1 + 50) w1 tm
              (Hok' Hok) Hin) as (w' & Hn' & Hic' & _ & Hfx & _ & _);
    [cbn; lia|cbn; lia|done|].
  pose proof (runTimers_drains host (length (timers w1)) (now w1 + 50) w1 (Nat.le_refl _))
    as Hdrain.
  destruct (runTimers host (length (timers w1)) (now w1 + 50) w1) as [w2 out2].
  cbn [fst snd timers now set_now] in *.
  split_and!.
  - apply elem_of_app. left.
    assert (target e ∈ pauses (effects (handleIntersection host [e] w))) as Hpa.
    { rewrite Hp. apply list_elem_of_filter. split; [done|left]. }
    apply elem_of_pauses in Hpa as [t Hpa]. by eapply stamped_elem.
  - apply elem_of_app. right. rewrite app_nil_r. apply Hfx. cbn [callback tm runCallback].
    unfold runCallback.
    destruct (pauseVideoIfAppropriate_spec host (target e) "Intersection-Timeout" true w')
      as (_ & _ & _ & Hp' & _ & _ & _ & _ & _ & _ & _ & Ht').
    assert (target e ∈ pauses (effects (pauseVideoIfAppropriate host (Elem (target e))
              "Intersection-Timeout" true w'))) as Hpa.
    { rewrite Hp', Hic', Hic. rewrite bool_decide_eq_false_2 by done. left. }
    apply elem_of_pauses in Hpa as [t Hpa].
    replace (now w + 50) with (now w') by (rewrite Hn'; done).
    by eapply stamped_elem.
  - lia.
  - rewrite <- Hnow. apply list.Forall_forall. intros x Hx.
    destruct (decide (due x ≤ now w1 + 50)) as [Hd|Hd]; [|lia].
    assert (x ∈ dueBy (now w1 + 50) (timers w2)) as Hc by (by apply list_elem_of_filter).
    rewrite Hdrain in Hc. by apply elem_of_nil in Hc.
  - apply runCallback_spec.
Qed.


(** X9. The debounce timer is not set back to [null] when it expires:
    after the debounced scan has run, [debounceTimer] still holds the
    identifier of the timer that is gone, no debounce timer is pending,
    and no event ever resets the variable. *)
Theorem debounce_handle_outlives_its_timer (D dt : nat) (w : World) :
  armed D w → D ≤ now w + dt →
  let s := advance host dt w in
  scans s.2 = [D]
  ∧ debounceTimer s.1 = debounceTimer w
  ∧ is_Some (debounceTimer s.1)
  ∧ pendingScans s.1 = []
  ∧ (∀ evs, is_Some (debounceTimer (run host evs s.1).1)).
Proof.
  intros Harm Hle. cbn zeta.
  destruct (advance_scans host D dt w Harm) as (_ & _ & Hfire).
  destruct (Hfire Hle) as [Hsc Hp].
  destruct (advance_spec host dt w) as (_ & _ & _ & _ & _ & Hdt & _).
  destruct Harm as [_ (id & _ & Hid) _ _].
  assert (Hkeep : ∀ evs w, is_Some (debounceTimer w) →
                           is_Some (debounceTimer (run host evs w).1)).
  { clear. induction evs as [|ev evs IH]; intros w Hs; cbn [run]; [done|].
    assert (is_Some (debounceTimer (dispatch host ev w).1)) as H1.
    { destruct ev as [t|entries|records|v| |dt|v p|doc]; cbn [dispatch].
      - destruct (clickListener w); [|done]. rewrite settle_final.
        destruct (handleBodyClick_tame host t w) as ([_ E _ _ _ _ _ _ _] & _). by rewrite E.
      - rewrite settle_final.
        destruct (handleIntersection_spec host entries w) as (_ & [_ _ E _ _ _ _ _ _] & _).
        by rewrite E.
      - destruct (mutationObserver w); [|done]. rewrite settle_final.
        unfold mutationCallback. destruct (structuralChange records); [|done].
        destruct (debouncedScanAndObserve_spec w) as (_ & _ & E & _). by rewrite E.
      - destruct (playListener (elems w v)); [|done]. rewrite settle_final.
        destruct (handleVideoPlay_spec host v w) as (_ & [_ _ E _ _ _ _ _ _ _ _] & _).
        by rewrite E.
      - destruct (playPromises w) as [|[v b] rest]; [done|]. by destruct b.
      - destruct (advance_spec host dt w) as (_ & _ & _ & _ & _ & E & _). by rewrite E.
      - done.
      - done. }
    destruct (dispatch host ev w) as [w1 out1]. specialize (IH w1 H1).
    by destruct (run host evs w1). }
  split_and!; [done|done|by rewrite Hdt, Hid|done|].
  intros evs. apply Hkeep. by rewrite Hdt, Hid.
Qed.

End Timing.

(** ** The interceptor flag *)

(** A summary of a step with regard to the 'play' listener: the flag
    [data-play-listener-attached], once 'true', stays; a listener is
    added only to a video whose flag was not 'true', and the flag is
    'true' afterwards. *)
Record Hooked (w w' : World) (tr : list (nat * Effect)) : Prop := mkHooked {
  hk_flag :
    ∀ v, playListenerAttached (elems w v) = Some "true" →
         playListenerAttached (elems w' v) = Some "true";
  hk_listener : ∀ v, playListener (elems w v) = true → playListener (elems w' v) = true;
  hk_nodup : NoDup (listenerAttachments tr);
  hk_new :
    ∀ v, v ∈ listenerAttachments tr →
         playListenerAttached (elems w v) ≠ Some "true"
         ∧ playListenerAttached (elems w' v) = Some "true"
         ∧ playListener (elems w' v) = true
}.

(** The flag and the listener of every video are as they were. *)
Definition sameHooks (w w' : World) : Prop :=
  ∀ u, playListenerAttached (elems w' u) = playListenerAttached (elems w u)
       ∧ playListener (elems w' u) = playListener (elems w u).

Lemma sameHooks_refl (w : World) : sameHooks w w.
Proof. by intros u. Qed.

Lemma sameHooks_elems (w w' : World) : elems w' = elems w → sameHooks w w'.
Proof. intros E u. by rewrite E. Qed.

Lemma sameHooks_set_paused (v : nat) (b : bool) (w : World) : sameHooks w (set_paused v b w).
Proof.
  intros u. unfold set_paused. cbn.
  destruct (decide (v = u)) as [->|Hne].
  - by rewrite fn_lookup_insert.
  - by rewrite fn_lookup_insert_ne.
Qed.

Lemma Hooked_quiet (w w' : World) (tr : list (nat * Effect)) :
  sameHooks w w' → listenerAttachments tr = [] → Hooked w w' tr.
Proof.
  intros Hs Hl. constructor; rewrite ?Hl.
  - intros v. by destruct (Hs v) as [-> _].
  - intros v. by destruct (Hs v) as [_ ->].
  - constructor.
  - by intros v []%elem_of_nil.
Qed.

Lemma Hooked_refl (w : World) : Hooked w w [].
Proof. apply Hooked_quiet; [apply sameHooks_refl|done]. Qed.

Lemma Hooked_trans (w1 w2 w3 : World) (tr1 tr2 : list (nat * Effect)) :
  Hooked w1 w2 tr1 → Hooked w2 w3 tr2 → Hooked w1 w3 (tr1 ++ tr2).
Proof.
  intros [Hf1 Hl1 Hn1 Hw1] [Hf2 Hl2 Hn2 Hw2].
  constructor; rewrite ?listenerAttachments_app.
  - auto.
  - auto.
  - apply list.NoDup_app. split_and!; [done| |done].
    intros v Hv1 Hv2. destruct (Hw1 v Hv1) as (_ & Hy & _).
    destruct (Hw2 v Hv2) as (Hn & _). done.
  - intros v [Hv|Hv]%elem_of_app.
    + destruct (Hw1 v Hv) as (? & ? & ?). auto.
    + destruct (Hw2 v Hv) as (Hn & ? & ?). split_and!; [|done|done].
      intros Hc. by apply Hn, Hf1.
Qed.

Lemma Hooked_settle (w : World) (o : Outcome unit) :
  Hooked w (final o) (effects o) → Hooked w (settle o).1 (settle o).2.
Proof.
  intros H. unfold settle. cbn [fst snd]. destruct (result o).
  - by rewrite app_nil_r.
  - eapply Hooked_trans; [exact H|]. apply Hooked_quiet; [apply sameHooks_refl|done].
Qed.

Lemma forEach_Hooked {A} (body : A → M unit) (l : list A) (w : World) :
  (∀ x w, Hooked w (final (body x w)) (effects (body x w))) →
  Hooked w (final (forEach l body w)) (effects (forEach l body w)).
Proof.
  intros Hbody. revert w. induction l as [|x l IH]; intros w; cbn [forEach].
  { apply Hooked_refl. }
  rewrite bind_run. specialize (Hbody x w).
  destruct (result (body x w)); cbn [final effects]; [|done].
  eapply Hooked_trans; [done|apply IH].
Qed.

Section Hooks.

Variable host : Host.

Lemma attachPlayListenerIfNeeded_Hooked (h : Handle) (w : World) :
  Hooked w (final (attachPlayListenerIfNeeded h w)) (effects (attachPlayListenerIfNeeded h w)).
Proof.
  destruct h as [| |v]; [apply Hooked_refl..|].
  unfold attachPlayListenerIfNeeded, bind, get, log, emit, modify, ret. cbn.
  destruct (bool_decide_reflect (playListenerAttached (elems w v) ≠ Some "true"))
    as [Hne|He]; cbn; [|apply Hooked_refl].
  constructor; cbn.
  - intros u Hu. destruct (decide (v = u)) as [->|Hn];
      [by rewrite !fn_lookup_insert|by rewrite !fn_lookup_insert_ne by done].
  - intros u Hu. destruct (decide (v = u)) as [->|Hn];
      [by rewrite !fn_lookup_insert|by rewrite !fn_lookup_insert_ne by done].
  - apply NoDup_singleton.
  - intros u ->%list_elem_of_singleton. by rewrite !fn_lookup_insert.
Qed.

(** After the interceptor has been ensured, an enforcement call changes
    at most the [paused] flag of its video. *)
Lemma pauseVideoIfAppropriate_after_attach (v : nat) (context : string) (assertive : bool)
    (w : World) :
  let a := attachPlayListenerIfNeeded (Elem v) w in
  let o := pauseVideoIfAppropriate host (Elem v) context assertive w in
  (final o = final a ∨ final o = set_paused v true (final a))
  ∧ listenerAttachments (effects o) = listenerAttachments (effects a).
Proof.
  cbn zeta. unfold pauseVideoIfAppropriate.
  destruct (attachPlayListenerIfNeeded (Elem v) w) as [r1 w1 out1] eqn:E1.
  pose proof (attachPlayListenerIfNeeded_spec v w) as H1. rewrite E1 in H1. cbn in H1.
  destruct H1 as (-> & _).
  unfold bind, log, emit, get, intentHas, ret, tryCatch, video_pause, modify, raise.
  rewrite E1. cbn.
  destruct (bool_decide (v ∈ userClickedPlay w1)), assertive, (paused (elems w1 v)); cbn;
    autorewrite with trace; cbn; rewrite ?app_nil_r; try (by split; [left|]).
  all: destruct (pause_outcome host w1 v); cbn; autorewrite with trace; cbn;
    rewrite ?app_nil_r.
  all: repeat match goal with
       | |- context [paused ?e] => destruct (paused e)
       end; cbn; autorewrite with trace; cbn; rewrite ?app_nil_r.
  all: split; [first [by left | by right]|done].
Qed.

Lemma pauseVideoIfAppropriate_Hooked (h : Handle) (context : string) (assertive : bool)
    (w : World) :
  Hooked w (final (pauseVideoIfAppropriate host h context assertive w))
    (effects (pauseVideoIfAppropriate host h context assertive w)).
Proof.
  destruct h as [| |v].
  1, 2: rewrite pauseVideoIfAppropriate_null by auto; by apply Hooked_quiet.
  destruct (pauseVideoIfAppropriate_after_attach v context assertive w) as [Hf Hl].
  pose proof (attachPlayListenerIfNeeded_Hooked (Elem v) w) as [Hf1 Hl1 Hn1 Hw1].
  constructor; rewrite ?Hl; try done.
  - intros u Hu. destruct Hf as [-> | ->]; [by apply Hf1|].
    destruct (sameHooks_set_paused v true (final (attachPlayListenerIfNeeded (Elem v) w)) u)
      as [-> _]. by apply Hf1.
  - intros u Hu. destruct Hf as [-> | ->]; [by apply Hl1|].
    destruct (sameHooks_set_paused v true (final (attachPlayListenerIfNeeded (Elem v) w)) u)
      as [_ ->]. by apply Hl1.
  - intros u Hu. destruct (Hw1 u Hu) as (? & ? & ?).
    destruct Hf as [-> | ->]; [done|].
    destruct (sameHooks_set_paused v true (final (attachPlayListenerIfNeeded (Elem v) w)) u)
      as [-> ->]. done.
Qed.

Lemma handleVideoPlay_Hooked (v : nat) (w : World) :
  Hooked w (final (handleVideoPlay host v w)) (effects (handleVideoPlay host v w)).
Proof.
  unfold handleVideoPlay, bind, log, emit, get, intentHas, ret, tryCatch, video_pause,
    modify, raise. cbn -[set_paused].
  destruct (bool_decide (v ∈ userClickedPlay w)); cbn -[set_paused];
    [by apply Hooked_quiet|].
  destruct (pause_outcome host w v); cbn -[set_paused].
  - destruct (paused (elems (set_paused v true w) v)); cbn -[set_paused];
      (apply Hooked_quiet; [apply sameHooks_set_paused|done]).
  - destruct (paused (elems w v)); cbn; by apply Hooked_quiet.
  - by apply Hooked_quiet.
Qed.

Lemma handleIntersection_Hooked (entries : list IOEntry) (w : World) :
  Hooked w (final (handleIntersection host entries w))
    (effects (handleIntersection host entries w)).
Proof.
  apply forEach_Hooked. clear. intros e w. unfold intersectionEntry.
  destruct (isIntersecting e && targetIsVideo e); [|apply Hooked_refl].
  pose proof (pauseVideoIfAppropriate_Hooked (Elem (target e)) "Intersection-Immediate"
                true w) as H.
  pose proof (pauseVideoIfAppropriate_tame host (Elem (target e)) "Intersection-Immediate"
                true w) as (Hr & _).
  unfold log. rewrite bind_run. cbn [emit result final effects].
  rewrite bind_run, Hr. cbn [result final effects].
  destruct (pauseVideoIfAppropriate host _ _ _ w) as [r1 w1 out1].
  cbn [final effects] in *.
  unfold setTimeout, bind, get, emit, modify, ret. cbn.
  eapply (Hooked_trans w w _ [_]); [by apply Hooked_quiet|].
  eapply Hooked_trans; [exact H|]. by apply Hooked_quiet.
Qed.

Lemma scannedVideo_Hooked (v : nat) (w : World) :
  Hooked w (final (scannedVideo host v w)) (effects (scannedVideo host v w)).
Proof.
  unfold scannedVideo. rewrite bind_run.
  pose proof (attachPlayListenerIfNeeded_Hooked (Elem v) w) as H1.
  destruct (attachPlayListenerIfNeeded_spec v w) as (Hr & _). rewrite Hr.
  destruct (attachPlayListenerIfNeeded (Elem v) w) as [r1 w1 out1].
  cbn [result final effects] in *.
  rewrite bind_run. cbn [get result final effects].
  destruct (bool_decide (v ∈ observedVideos w1)); cbn [negb ret final effects].
  { by rewrite !app_nil_r. }
  unfold log, io_observe.
  repeat (rewrite bind_run; cbn [emit modify result final effects]).
  match goal with
  | |- context [pauseVideoIfAppropriate host ?h ?c ?a ?w'] =>
      pose proof (pauseVideoIfAppropriate_Hooked h c a w') as H2;
      destruct (pauseVideoIfAppropriate host h c a w') as [r2 w2 out2]
  end.
  cbn [result final effects app] in *.
  eapply Hooked_trans; [exact H1|].
  eapply (Hooked_trans w1 _ _ [_; _]); [|exact H2].
  by apply Hooked_quiet.
Qed.

Lemma scanAndObserveAllVideos_Hooked (w : World) :
  Hooked w (final (scanAndObserveAllVideos host w)) (effects (scanAndObserveAllVideos host w)).
Proof.
  unfold scanAndObserveAllVideos, log.
  repeat (rewrite bind_run; cbn [emit get result final effects]).
  pose proof (forEach_Hooked (scannedVideo host) (querySelectorAll_video (document w)) w
                scannedVideo_Hooked) as H.
  destruct (scanLoop_spec host (querySelectorAll_video (document w)) w) as (Hr & _).
  rewrite Hr.
  destruct (forEach _ (scannedVideo host) w) as [r1 w1 out1].
  cbn [result final effects app] in *.
  eapply (Hooked_trans w w _ [_; _]); [by apply Hooked_quiet|].
  eapply Hooked_trans; [exact H|]. by apply Hooked_quiet.
Qed.

Lemma handleBodyClick_Hooked (t : nat) (w : World) :
  Hooked w (final (handleBodyClick host t w)) (effects (handleBodyClick host t w)).
Proof.
  destruct (clickedVideo (document w) t) as [v|] eqn:E.
  2: { destruct (handleBodyClick_miss host t w E) as (_ & -> & [-> | [c ->]]);
         by apply Hooked_quiet. }
  unfold clickedVideo in E. unfold handleBodyClick.
  unfold bind, log, emit, get, modify, ret, raise, intentHas, video_play.
  cbn -[set_paused].
  destruct (closest (document w) t) as [c|]; cbn in E |- *; [|done].
  rewrite E. cbn -[set_paused].
  pose proof (attachPlayListenerIfNeeded_Hooked (Elem v) w) as H1.
  destruct (attachPlayListenerIfNeeded_spec v w) as (Hr & _).
  destruct (attachPlayListenerIfNeeded (Elem v) w) as [r1 w1 out1].
  cbn [result final effects] in *. subst r1. cbn -[set_paused].
  destruct (bool_decide (v ∈ userClickedPlay w1)); cbn -[set_paused];
    match goal with |- context [play_outcome host ?w' v] =>
      destruct (play_outcome host w' v) end; cbn -[set_paused].
  all: eapply (Hooked_trans w w _ [_; _]); [by apply Hooked_quiet|].
  all: eapply Hooked_trans; [exact H1|].
  all: apply Hooked_quiet; [|done].
  all: try (by apply sameHooks_elems).
  all: intros u; match goal with |- context [set_paused ?v ?b ?w'] =>
         destruct (sameHooks_set_paused v b w' u) as [Ha Hb] end;
       cbn -[set_paused] in *; by rewrite ?Ha, ?Hb.
Qed.

Lemma runCallback_Hooked (cb : Callback) (w : World) :
  Hooked w (final (runCallback host cb w)) (effects (runCallback host cb w)).
Proof.
  destruct cb as [v| | |]; unfold runCallback.
  - apply pauseVideoIfAppropriate_Hooked.
  - unfold log. rewrite bind_run. cbn [emit result final effects].
    eapply (Hooked_trans w w _ [_]); [by apply Hooked_quiet|].
    apply scanAndObserveAllVideos_Hooked.
  - unfold log. rewrite bind_run. cbn [emit result final effects].
    eapply (Hooked_trans w w _ [_]); [by apply Hooked_quiet|].
    apply scanAndObserveAllVideos_Hooked.
  - by apply Hooked_quiet.
Qed.

Lemma runTimers_Hooked (fuel t : nat) (w : World) :
  Hooked w (runTimers host fuel t w).1 (runTimers host fuel t w).2.
Proof.
  revert w. induction fuel as [|fuel IH]; intros w; cbn [runTimers]; [apply Hooked_refl|].
  destruct (earliest (dueBy t (timers w))) as [tm|]; [|apply Hooked_refl].
  destruct (fire_spec host tm w) as (Hr & _). rewrite (settle_ok _ Hr).
  assert (Hooked w (final (fire host tm w)) (effects (fire host tm w))) as H1.
  { rewrite fire_run.
    eapply (Hooked_trans w _ _ []); [|apply runCallback_Hooked].
    by apply Hooked_quiet. }
  specialize (IH (final (fire host tm w))).
  destruct (runTimers host fuel t (final (fire host tm w))) as [w2 out2].
  by eapply Hooked_trans.
Qed.

Lemma dispatch_Hooked (ev : Event) (w : World) :
  Hooked w (dispatch host ev w).1 (dispatch host ev w).2.
Proof.
  destruct ev as [t|entries|records|v| |dt|v p|doc]; cbn [dispatch].
  - destruct (clickListener w); [|apply Hooked_refl].
    apply Hooked_settle, handleBodyClick_Hooked.
  - apply Hooked_settle, handleIntersection_Hooked.
  - destruct (mutationObserver w); [|apply Hooked_refl].
    apply Hooked_settle. unfold mutationCallback.
    destruct (structuralChange records); [|apply Hooked_refl].
    destruct (debouncedScanAndObserve_spec w) as (_ & _ & _ & _ & _ & He & ->).
    apply Hooked_quiet; [by apply sameHooks_elems|done].
  - destruct (playListener (elems w v)); [|apply Hooked_refl].
    apply Hooked_settle, handleVideoPlay_Hooked.
  - destruct (playPromises w) as [|[v b] rest]; [apply Hooked_refl|].
    apply Hooked_settle. destruct b; by apply Hooked_quiet.
  - unfold advance. pose proof (runTimers_Hooked (length (timers w)) (now w + dt) w) as H.
    destruct (runTimers host _ _ w) as [w1 out1]. cbn [fst snd] in *.
    rewrite <- (app_nil_r out1). eapply Hooked_trans; [exact H|]. by apply Hooked_quiet.
  - apply Hooked_quiet; [apply sameHooks_set_paused|done].
  - by apply Hooked_quiet.
Qed.

Lemma run_Hooked (evs : list Event) (w : World) :
  Hooked w (run host evs w).1 (run host evs w).2.
Proof.
  revert w. induction evs as [|ev evs IH]; intros w; cbn [run]; [apply Hooked_refl|].
  pose proof (dispatch_Hooked ev w) as H1.
  destruct (dispatch host ev w) as [w1 out1].
  specialize (IH w1). destruct (run host evs w1) as [w2 out2].
  by eapply Hooked_trans.
Qed.

End Hooks.

(** ** The observer's books *)

(** A summary of a step with regard to the IntersectionObserver: the
    script's set [observedVideos] and the observer's own targets grow
    by the registrations of the step and by nothing else. *)
Record Booked (w w' : World) (tr : list (nat * Effect)) : Prop := mkBooked {
  bk_observed : ∀ v, v ∈ observedVideos w' ↔ v ∈ observedVideos w ∨ v ∈ registrations tr;
  bk_targets : ∀ v, v ∈ ioTargets w' ↔ v ∈ ioTargets w ∨ v ∈ registrations tr
}.

Lemma Booked_quiet (w w' : World) (tr : list (nat * Effect)) :
  observedVideos w' = observedVideos w → ioTargets w' = ioTargets w →
  registrations tr = [] → Booked w w' tr.
Proof.
  intros Ho Hi Hr. constructor; intros v; rewrite ?Ho, ?Hi, Hr, elem_of_nil; naive_solver.
Qed.

Lemma Booked_refl (w : World) : Booked w w [].
Proof. by apply Booked_quiet. Qed.

Lemma Booked_trans (w1 w2 w3 : World) (tr1 tr2 : list (nat * Effect)) :
  Booked w1 w2 tr1 → Booked w2 w3 tr2 → Booked w1 w3 (tr1 ++ tr2).
Proof.
  intros [Ho1 Hi1] [Ho2 Hi2].
  constructor; intros v; rewrite registrations_app, elem_of_app.
  - rewrite Ho2, Ho1. naive_solver.
  - rewrite Hi2, Hi1. naive_solver.
Qed.

Lemma Booked_settle (w : World) (o : Outcome unit) :
  Booked w (final o) (effects o) → Booked w (settle o).1 (settle o).2.
Proof.
  intros H. unfold settle. cbn [fst snd]. destruct (result o).
  - by rewrite app_nil_r.
  - eapply Booked_trans; [exact H|]. by apply Booked_quiet.
Qed.

Lemma forEach_Booked {A} (body : A → M unit) (l : list A) (w : World) :
  (∀ x w, Booked w (final (body x w)) (effects (body x w))) →
  Booked w (final (forEach l body w)) (effects (forEach l body w)).
Proof.
  intros Hbody. revert w. induction l as [|x l IH]; intros w; cbn [forEach].
  { apply Booked_refl. }
  rewrite bind_run. specialize (Hbody x w).
  destruct (result (body x w)); cbn [final effects]; [|done].
  eapply Booked_trans; [done|apply IH].
Qed.

Section Books.

Variable host : Host.

Lemma scannedVideo_Booked (v : nat) (w : World) :
  Booked w (final (scannedVideo host v w)) (effects (scannedVideo host v w)).
Proof.
  unfold scannedVideo. rewrite bind_run.
  destruct (attachPlayListenerIfNeeded_spec v w) as (Hr & Hs1 & _ & _ & _ & _ & Hg1 & _).
  rewrite Hr.
  destruct (attachPlayListenerIfNeeded (Elem v) w) as [r1 w1 out1].
  cbn [result final effects] in *.
  rewrite bind_run. cbn [get result final effects].
  destruct Hs1 as [Hic Hob Hdt Hdoc Hio Hcl Hmo Hpp Htm Hni Hnow].
  destruct (bool_decide_reflect (v ∈ observedVideos w1)) as [Hseen|Hseen];
    cbn [negb ret final effects].
  { rewrite !app_nil_r. by apply Booked_quiet. }
  unfold log, io_observe.
  repeat (rewrite bind_run; cbn [emit modify result final effects]).
  match goal with
  | |- context [pauseVideoIfAppropriate host ?h ?c ?a ?w'] =>
      pose proof (pauseVideoIfAppropriate_spec host v c a w') as H2;
      destruct (pauseVideoIfAppropriate host h c a w') as [r2 w2 out2]
  end.
  cbn in H2. destruct H2 as (_ & Hs2 & _ & _ & _ & Hg2 & _).
  destruct Hs2 as [Hic2 Hob2 Hdt2 Hdoc2 Hio2 Hcl2 Hmo2 Hpp2 Htm2 Hni2 Hnow2].
  cbn in *.
  constructor; intros u; autorewrite with trace; rewrite ?Hg1, ?Hg2, ?Hob2, ?Hio2; cbn.
  all: rewrite ?Hob, ?Hio, elem_of_union, elem_of_singleton, list_elem_of_singleton.
  all: naive_solver.
Qed.

Lemma scanAndObserveAllVideos_Booked (w : World) :
  Booked w (final (scanAndObserveAllVideos host w)) (effects (scanAndObserveAllVideos host w)).
Proof.
  unfold scanAndObserveAllVideos, log.
  repeat (rewrite bind_run; cbn [emit get result final effects]).
  pose proof (forEach_Booked (scannedVideo host) (querySelectorAll_video (document w)) w
                scannedVideo_Booked) as H.
  destruct (scanLoop_spec host (querySelectorAll_video (document w)) w) as (Hr & _).
  rewrite Hr.
  destruct (forEach _ (scannedVideo host) w) as [r1 w1 out1].
  cbn [result final effects app] in *.
  eapply (Booked_trans w w _ [_; _]); [by apply Booked_quiet|].
  eapply Booked_trans; [exact H|]. by apply Booked_quiet.
Qed.

Lemma pauseVideoIfAppropriate_Booked (v : nat) (context : string) (assertive : bool)
    (w : World) :
  let o := pauseVideoIfAppropriate host (Elem v) context assertive w in
  Booked w (final o) (effects o).
Proof.
  destruct (pauseVideoIfAppropriate_spec host v context assertive w)
    as (_ & [] & _ & _ & _ & Hg & _).
  by apply Booked_quiet.
Qed.

Lemma handleBodyClick_Booked (t : nat) (w : World) :
  Booked w (final (handleBodyClick host t w)) (effects (handleBodyClick host t w)).
Proof.
  destruct (clickedVideo (document w) t) as [v|] eqn:E.
  - destruct (handleBodyClick_video host t v w E)
      as (_ & _ & _ & [] & _ & _ & _ & _ & Hg & _).
    by apply Booked_quiet.
  - destruct (handleBodyClick_miss host t w E) as (_ & -> & [-> | [c ->]]);
      by apply Booked_quiet.
Qed.

Lemma runCallback_Booked (cb : Callback) (w : World) :
  Booked w (final (runCallback host cb w)) (effects (runCallback host cb w)).
Proof.
  destruct cb as [v| | |]; unfold runCallback.
  - apply pauseVideoIfAppropriate_Booked.
  - unfold log. rewrite bind_run. cbn [emit result final effects].
    eapply (Booked_trans w w _ [_]); [by apply Booked_quiet|].
    apply scanAndObserveAllVideos_Booked.
  - unfold log. rewrite bind_run. cbn [emit result final effects].
    eapply (Booked_trans w w _ [_]); [by apply Booked_quiet|].
    apply scanAndObserveAllVideos_Booked.
  - by apply Booked_quiet.
Qed.

Lemma runTimers_Booked (fuel t : nat) (w : World) :
  Booked w (runTimers host fuel t w).1 (runTimers host fuel t w).2.
Proof.
  revert w. induction fuel as [|fuel IH]; intros w; cbn [runTimers]; [apply Booked_refl|].
  destruct (earliest (dueBy t (timers w))) as [tm|]; [|apply Booked_refl].
  destruct (fire_spec host tm w) as (Hr & _). rewrite (settle_ok _ Hr).
  assert (Booked w (final (fire host tm w)) (effects (fire host tm w))) as H1.
  { rewrite fire_run.
    eapply (Booked_trans w _ _ []); [|apply runCallback_Booked].
    by apply Booked_quiet. }
  specialize (IH (final (fire host tm w))).
  destruct (runTimers host fuel t (final (fire host tm w))) as [w2 out2].
  by eapply Booked_trans.
Qed.

Lemma dispatch_Booked (ev : Event) (w : World) :
  Booked w (dispatch host ev w).1 (dispatch host ev w).2.
Proof.
  destruct ev as [t|entries|records|v| |dt|v p|doc]; cbn [dispatch].
  - destruct (clickListener w); [|apply Booked_refl].
    apply Booked_settle, handleBodyClick_Booked.
  - apply Booked_settle.
    destruct (handleIntersection_spec host entries w)
      as (_ & [] & _ & _ & _ & _ & _ & Hg & _).
    by apply Booked_quiet.
  - destruct (mutationObserver w); [|apply Booked_refl].
    apply Booked_settle. unfold mutationCallback.
    destruct (structuralChange records); [|apply Booked_refl].
    destruct (debouncedScanAndObserve_spec w) as (_ & _ & _ & _ & [] & _ & ->).
    by apply Booked_quiet.
  - destruct (playListener (elems w v)); [|apply Booked_refl].
    apply Booked_settle.
    destruct (handleVideoPlay_spec host v w) as (_ & [] & _ & _ & _ & Hg & _).
    by apply Booked_quiet.
  - destruct (playPromises w) as [|[v b] rest]; [apply Booked_refl|].
    apply Booked_settle. destruct b; by apply Booked_quiet.
  - unfold advance. pose proof (runTimers_Booked (length (timers w)) (now w + dt) w) as H.
    destruct (runTimers host _ _ w) as [w1 out1]. cbn [fst snd] in *.
    rewrite <- (app_nil_r out1). eapply Booked_trans; [exact H|]. by apply Booked_quiet.
  - by apply Booked_quiet.
  - by apply Booked_quiet.
Qed.

Lemma run_Booked (evs : list Event) (w : World) :
  Booked w (run host evs w).1 (run host evs w).2.
Proof.
  revert w. induction evs as [|ev evs IH]; intros w; cbn [run]; [apply Booked_refl|].
  pose proof (dispatch_Booked ev w) as H1.
  destruct (dispatch host ev w) as [w1 out1].
  specialize (IH w1). destruct (run host evs w1) as [w2 out2].
  by eapply Booked_trans.
Qed.

End Books.

(** ** A scan, video by video *)

Lemma filter_ext_in {A} (P Q : A → Prop) `{!∀ x, Decision (P x)} `{!∀ x, Decision (Q x)}
    (l : list A) :
  (∀ x, x ∈ l → P x ↔ Q x) → filter P l = filter Q l.
Proof.
  induction l as [|x l IH]; intros Hext; [done|].
  rewrite !filter_cons.
  assert (filter P l = filter Q l) as -> by (apply IH; intros y Hy; apply Hext; by right).
  destruct (decide (P x)) as [Hp|Hp], (decide (Q x)) as [Hq|Hq]; try done.
  - destruct Hq. apply Hext; [by left|done].
  - destruct Hp. apply Hext; [by left|done].
Qed.

Lemma attachPlayListenerIfNeeded_flagged (v : nat) (w : World) :
  playListenerAttached (elems w v) = Some "true" →
  attachPlayListenerIfNeeded (Elem v) w = mkOutcome (Ok tt) w [].
Proof.
  intros Hf. unfold attachPlayListenerIfNeeded, bind, get, log, emit, modify, ret. cbn.
  rewrite Hf. by rewrite bool_decide_eq_false_2 by (intros H; by apply H).
Qed.

Section Scanning.

Variable host : Host.

(** A video that carries the flag and is already observed is passed over. *)
Lemma scannedVideo_known (v : nat) (w : World) :
  playListenerAttached (elems w v) = Some "true" → v ∈ observedVideos w →
  scannedVideo host v w = mkOutcome (Ok tt) w [].
Proof.
  intros Hf Ho. unfold scannedVideo, bind, get, ret.
  rewrite (attachPlayListenerIfNeeded_flagged v w Hf). cbn.
  by rewrite bool_decide_eq_true_2.
Qed.

Lemma scanLoop_known (vs : list nat) (w : World) :
  (∀ v, v ∈ vs → playListenerAttached (elems w v) = Some "true" ∧ v ∈ observedVideos w) →
  forEach vs (scannedVideo host) w = mkOutcome (Ok tt) w [].
Proof.
  induction vs as [|v vs IH]; intros H; [done|].
  destruct (H v) as [Hf Ho]; [by left|].
  cbn [forEach]. unfold bind. rewrite (scannedVideo_known v w Hf Ho). cbn.
  rewrite IH by (intros u Hu; apply H; by right). done.
Qed.

Lemma scannedVideo_flag (v : nat) (w : World) :
  playListenerAttached (elems (final (scannedVideo host v w)) v) = Some "true".
Proof.
  unfold scannedVideo. rewrite bind_run.
  pose proof (attachPlayListenerIfNeeded_flag v w) as Hf.
  destruct (attachPlayListenerIfNeeded_spec v w) as (Hr & _). rewrite Hr.
  destruct (attachPlayListenerIfNeeded (Elem v) w) as [r1 w1 out1].
  cbn [result final effects] in *.
  rewrite bind_run. cbn [get result final effects].
  destruct (bool_decide (v ∈ observedVideos w1)); cbn [negb ret final effects]; [done|].
  unfold log, io_observe.
  repeat (rewrite bind_run; cbn [emit modify result final effects]).
  match goal with
  | |- context [pauseVideoIfAppropriate host ?h ?c ?a ?w'] =>
      destruct (pauseVideoIfAppropriate_Hooked host h c a w') as [Hk _ _ _]
  end.
  by apply Hk.
Qed.

(** A scan leaves the playback state of a video alone unless it is the
    video at hand and new to the observer. *)
Lemma scannedVideo_paused (v u : nat) (w : World) :
  u ≠ v ∨ v ∈ observedVideos w →
  paused (elems (final (scannedVideo host v w)) u) = paused (elems w u).
Proof.
  intros Hu. unfold scannedVideo. rewrite bind_run.
  destruct (attachPlayListenerIfNeeded_spec v w) as (Hr & Hs1 & He1 & Hp1 & _). rewrite Hr.
  destruct (attachPlayListenerIfNeeded (Elem v) w) as [r1 w1 out1].
  cbn [result final effects] in *.
  assert (paused (elems w1 u) = paused (elems w u)) as Hsame.
  { destruct (decide (u = v)) as [->|Hne]; [done|]. by rewrite He1. }
  rewrite bind_run. cbn [get result final effects].
  destruct Hs1 as [_ Hob _ _ _ _ _ _ _ _ _]. rewrite Hob.
  destruct (bool_decide_reflect (v ∈ observedVideos w)) as [Hseen|Hseen];
    cbn [negb ret final effects]; [done|].
  destruct Hu as [Hne|?]; [|done].
  unfold log, io_observe.
  repeat (rewrite bind_run; cbn [emit modify result final effects]).
  match goal with
  | |- context [pauseVideoIfAppropriate host ?h ?c ?a ?w'] =>
      destruct (pauseVideoIfAppropriate_spec host v c a w') as (_ & _ & He2 & _)
  end.
  cbn zeta in He2. rewrite He2 by done. done.
Qed.

(** The loop of a scan: which videos end flagged and observed, which
    are paused, and whose playback state is left alone. *)
Lemma scanLoop_cover (vs : list nat) (w : World) :
  let o := forEach vs (scannedVideo host) w in
  (∀ v, v ∈ vs → playListenerAttached (elems (final o) v) = Some "true"
                 ∧ v ∈ observedVideos (final o))
  ∧ pauses (effects o) =
      filter (λ v, paused (elems w v) = false ∧ v ∉ userClickedPlay w)
        (registrations (effects o))
  ∧ (∀ u, u ∉ registrations (effects o) →
          paused (elems (final o) u) = paused (elems w u)).
Proof.
  revert w. induction vs as [|v vs IH]; intros w.
  { cbn. split_and!; [by intros v []%elem_of_nil|done..]. }
  pose proof (scannedVideo_spec host v w) as H1.
  pose proof (scannedVideo_flag v w) as Hf1.
  pose proof (λ u, scannedVideo_paused v u w) as Hp1.
  pose proof (scanLoop_spec host vs (final (scannedVideo host v w))) as H2.
  pose proof (forEach_Hooked (scannedVideo host) vs (final (scannedVideo host v w))
                (scannedVideo_Hooked host)) as Hk.
  cbn zeta in *.
  rewrite forEach_cons by apply H1.
  specialize (IH (final (scannedVideo host v w))). cbn zeta in IH.
  destruct (scannedVideo host v w) as [r1 w1 out1].
  cbn [result final effects] in *.
  destruct (forEach vs (scannedVideo host) w1) as [r2 w2 out2].
  cbn [result final effects] in *.
  destruct H1 as (_ & Hs & Hob & Hg & _ & Hp & _).
  destruct H2 as (_ & _ & Hob2 & _ & Hg2 & _).
  destruct IH as (Hc & Hpa & Hfr).
  destruct Hs as [Hic _ _ _ _ _ _ _ _].
  split_and!.
  - intros u [->|Hu]%elem_of_cons; [|by apply Hc].
    split; [by apply Hk|]. rewrite Hob2, Hob.
    rewrite !elem_of_union, elem_of_singleton. auto.
  - rewrite pauses_app, registrations_app, list.filter_app, Hpa. f_equal.
    + rewrite Hp, Hg.
      destruct (bool_decide_reflect (v ∈ observedVideos w)) as [?|?]; cbn [negb andb];
        [done|].
      rewrite filter_cons, filter_nil.
      destruct (paused (elems w v)) eqn:Ep; cbn [negb andb].
      * rewrite decide_False by (by intros [? _]). done.
      * destruct (bool_decide_reflect (v ∈ userClickedPlay w)) as [?|?]; cbn [negb].
        -- rewrite decide_False by (intros [_ ?]; done). done.
        -- by rewrite decide_True.
    + apply filter_ext_in. intros u Hu. rewrite Hic.
      apply Hg2 in Hu as [_ Hu]. rewrite Hob in Hu.
      rewrite Hp1; [done|]. left. intros ->. apply Hu.
      rewrite elem_of_union, elem_of_singleton. auto.
  - intros u Hu. rewrite registrations_app, Hg in Hu.
    apply not_elem_of_app in Hu as [Hu1 Hu2].
    rewrite Hfr by done. apply Hp1.
    destruct (bool_decide_reflect (v ∈ observedVideos w)) as [?|?]; cbn [negb] in Hu1;
      [by right|].
    left. intros ->. apply Hu1. by left.
Qed.

End Scanning.

(** ** The script over a whole session *)

Section Session.

Variable host : Host.

(** X10. Over any sequence of events, from any state, the script adds
    its 'play' listener to a video at most once, only to a video whose
    flag [data-play-listener-attached] was not 'true', and leaves that
    video flagged and listened to; a flag that is 'true' and a listener
    that is attached are never taken away. *)
Theorem each_video_gets_one_play_listener (evs : list Event) (w : World) :
  let s := run host evs w in
  NoDup (listenerAttachments s.2)
  ∧ (∀ v, v ∈ listenerAttachments s.2 →
          playListenerAttached (elems w v) ≠ Some "true"
          ∧ playListenerAttached (elems s.1 v) = Some "true"
          ∧ playListener (elems s.1 v) = true)
  ∧ (∀ v, playListenerAttached (elems w v) = Some "true" →
          playListenerAttached (elems s.1 v) = Some "true")
  ∧ (∀ v, playListener (elems w v) = true → playListener (elems s.1 v) = true).
Proof.
  cbn zeta. destruct (run_Hooked host evs w) as [Hf Hl Hn Hw]. by split_and!.
Qed.

(** X11. A scan is idempotent: after it every video of the document
    carries the flag and is in [observedVideos], and a second scan right
    after it changes nothing and only writes its three lines to the
    console. *)
Theorem second_scan_finds_nothing_to_do (w : World) :
  let o := scanAndObserveAllVideos host w in
  let vs := querySelectorAll_video (document w) in
  (∀ v, v ∈ vs → playListenerAttached (elems (final o) v) = Some "true"
                 ∧ v ∈ observedVideos (final o))
  ∧ scanAndObserveAllVideos host (final o)
    = mkOutcome (Ok tt) (final o)
        [(now w, Log LScanStart); (now w, Log (LScanFound (length vs)));
         (now w, Log LScanFinished)].
Proof.
  cbn zeta.
  assert (∀ w, final (scanAndObserveAllVideos host w)
               = final (forEach (querySelectorAll_video (document w)) (scannedVideo host) w))
    as Hfinal.
  { intros w'. unfold scanAndObserveAllVideos, log.
    repeat (rewrite bind_run; cbn [emit get result final effects]).
    destruct (scanLoop_spec host (querySelectorAll_video (document w')) w') as (Hr & _).
    rewrite Hr. done. }
  destruct (scanLoop_cover host (querySelectorAll_video (document w)) w) as (Hc & _).
  destruct (scanAndObserveAllVideos_spec host w) as (_ & [_ _ Hdoc _ _ _ _ _ Hnow] & _).
  rewrite <- Hfinal in Hc. split; [exact Hc|].
  set (w1 := final (scanAndObserveAllVideos host w)) in *.
  unfold scanAndObserveAllVideos at 1.
  unfold bind, log, emit, get, ret. cbn.
  rewrite Hdoc, Hnow.
  rewrite (scanLoop_known host (querySelectorAll_video (document w)) w1 Hc). cbn.
  by rewrite Hnow.
Qed.

(** X12. The conservative pass of a scan calls [pause()] on exactly the
    videos it registers that were playing and not in the intent set when
    the scan began, in the order of registration; a video it does not
    register keeps its playback state. *)
Theorem scan_pauses_the_new_playing_videos (w : World) :
  let o := scanAndObserveAllVideos host w in
  pauses (effects o)
  = filter (λ v, paused (elems w v) = false ∧ v ∉ userClickedPlay w)
      (registrations (effects o))
  ∧ (∀ u, u ∉ registrations (effects o) →
          paused (elems (final o) u) = paused (elems w u)).
Proof.
  cbn zeta. unfold scanAndObserveAllVideos, log.
  repeat (rewrite bind_run; cbn [emit get result final effects]).
  destruct (scanLoop_spec host (querySelectorAll_video (document w)) w) as (Hr & _).
  destruct (scanLoop_cover host (querySelectorAll_video (document w)) w) as (_ & Hp & Hfr).
  rewrite Hr.
  destruct (forEach _ (scannedVideo host) w) as [r1 w1 out1].
  cbn [result final effects] in *.
  autorewrite with trace. cbn. rewrite !app_nil_r. by split.
Qed.

(** X13. The script's own set [observedVideos] and the targets of the
    IntersectionObserver move together: over any sequence of events each
    gains exactly the videos registered on the way and loses none, so if
    the two agree at the start they agree at the end. *)
Theorem observed_set_mirrors_the_observer (evs : list Event) (w : World) :
  let s := run host evs w in
  (∀ v, v ∈ observedVideos s.1 ↔ v ∈ observedVideos w ∨ v ∈ registrations s.2)
  ∧ (∀ v, v ∈ ioTargets s.1 ↔ v ∈ ioTargets w ∨ v ∈ registrations s.2)
  ∧ (observedVideos w = ioTargets w → observedVideos s.1 = ioTargets s.1).
Proof.
  cbn zeta. destruct (run_Booked host evs w) as [Ho Hi]. split_and!; [done|done|].
  intros E. apply set_eq. intros v. rewrite Ho, Hi, E. done.
Qed.

(** X14. A click inside a player authorizes before it plays: the video
    is in the intent set when [play()] is called, whether or not it was
    there before and whether or not [play()] then fails; the click calls
    [play()] once and [pause()] never, and nothing that follows pauses
    that video. *)
Theorem clicked_video_is_let_play (t v : nat) (w : World) :
  clickListener w = true → clickedVideo (document w) t = Some v →
  let s := dispatch host (EvClick t) w in
  (v ∈ userClickedPlay s.1)
  ∧ plays s.2 = [v] ∧ pauses s.2 = []
  ∧ (∀ evs, v ∉ pauses (run host evs s.1).2).
Proof.
  intros Hcl Hv. cbn zeta. cbn [dispatch]. rewrite Hcl.
  destruct (handleBodyClick_video host t v w Hv)
    as (_ & _ & Hic & _ & _ & Hpl & _ & Hp & _).
  unfold settle. cbn [fst snd].
  assert (v ∈ userClickedPlay (final (handleBodyClick host t w))) as Hin.
  { rewrite Hic, elem_of_union, elem_of_singleton. by left. }
  split_and!.
  - done.
  - rewrite plays_app, Hpl. by destruct (result _).
  - rewrite pauses_app, Hp. by destruct (result _).
  - intros evs Hpa.
    by apply (tame_pauses _ _ _ (run_tame host evs (final (handleBodyClick host t w)))) in Hpa.
Qed.

End Session.

(** ** The further properties on the sample page *)

Lemma ineffective_pause_is_reported_not_retried_witness :
  3 ∈ pauses (effects (pauseVideoIfAppropriate Sample.stubborn (Elem 3)
                         "Intersection-Immediate" true Sample.ready))
  ∧ pauses (effects (pauseVideoIfAppropriate Sample.stubborn (Elem 3)
                       "Intersection-Immediate" true Sample.ready)) = [3].
Proof.
  assert (H1 : 3 ∈ pauses (effects (pauseVideoIfAppropriate Sample.stubborn (Elem 3)
                                      "Intersection-Immediate" true Sample.ready)))
    by (vm_compute; left).
  split; [exact H1|].
  exact (proj1 (proj2
    (ineffective_pause_is_reported_not_retried Sample.stubborn 3 "Intersection-Immediate"
       true Sample.ready H1))).
Defined.

Lemma click_outside_a_player_changes_nothing_witness :
  clickedVideo (document Sample.ready) 7 = None
  ∧ final (handleBodyClick Sample.hostile 7 Sample.ready) = Sample.ready.
Proof.
  assert (H1 : clickedVideo (document Sample.ready) 7 = None) by reflexivity.
  split; [exact H1|].
  exact (proj1 (proj2
    (click_outside_a_player_changes_nothing Sample.hostile 7 Sample.ready H1))).
Defined.

Lemma visible_video_is_paused_again_after_50ms_witness :
  timersOk Sample.ready
  ∧ (target Sample.entering ∉ userClickedPlay Sample.ready)
  ∧ (now Sample.ready + 50, Pause 3)
      ∈ (run Sample.stubborn [EvIntersection [Sample.entering]; EvAdvance 50] Sample.ready).2.
Proof.
  assert (H1 : timersOk Sample.ready) by (constructor; vm_compute; constructor).
  assert (H2 : target Sample.entering ∉ userClickedPlay Sample.ready)
    by (vm_compute; discriminate).
  split_and!; [exact H1|exact H2|].
  exact (proj1 (proj2
    (visible_video_is_paused_again_after_50ms Sample.stubborn Sample.ready Sample.entering
       H1 eq_refl eq_refl H2))).
Defined.

Lemma debounce_handle_outlives_its_timer_witness :
  armed 1800 Sample.busy ∧ 1800 ≤ now Sample.busy + 300
  ∧ scans (advance Sample.stubborn 300 Sample.busy).2 = [1800].
Proof.
  assert (H1 : armed 1800 Sample.busy).
  { constructor.
    - constructor; vm_compute.
      + repeat (apply list.NoDup_cons; split; [set_solver|]). constructor.
      + repeat (constructor; [lia|]). constructor.
      + repeat (constructor; [by intros; first [discriminate|reflexivity]|]). constructor.
    - exists 4. split; vm_compute; reflexivity.
    - reflexivity.
    - vm_compute. lia. }
  assert (H2 : 1800 ≤ now Sample.busy + 300) by (vm_compute; lia).
  split_and!; [exact H1|exact H2|].
  exact (proj1 (debounce_handle_outlives_its_timer Sample.stubborn 1800 300 Sample.busy H1 H2)).
Defined.

Lemma observed_set_mirrors_the_observer_witness :
  observedVideos (boot Sample.page Sample.playing).1
    = ioTargets (boot Sample.page Sample.playing).1
  ∧ observedVideos (run Sample.obedient [EvAdvance 1500; EvClick 4]
                      (boot Sample.page Sample.playing).1).1
    = ioTargets (run Sample.obedient [EvAdvance 1500; EvClick 4]
                   (boot Sample.page Sample.playing).1).1.
Proof.
  assert (H1 : observedVideos (boot Sample.page Sample.playing).1
               = ioTargets (boot Sample.page Sample.playing).1) by reflexivity.
  split; [exact H1|].
  exact (proj2 (proj2
    (observed_set_mirrors_the_observer Sample.obedient [EvAdvance 1500; EvClick 4]
       (boot Sample.page Sample.playing).1)) H1).
Defined.

Lemma clicked_video_is_let_play_witness :
  clickListener Sample.ready = true ∧ clickedVideo (document Sample.ready) 4 = Some 3
  ∧ 3 ∉ pauses (run Sample.hostile [EvPlay 3; EvIntersection [Sample.entering]; EvAdvance 50]
                  (dispatch Sample.hostile (EvClick 4) Sample.ready).1).2.
Proof.
  assert (H1 : clickListener Sample.ready = true) by reflexivity.
  assert (H2 : clickedVideo (document Sample.ready) 4 = Some 3) by reflexivity.
  split_and!; [exact H1|exact H2|].
  exact (proj2 (proj2 (proj2
    (clicked_video_is_let_play Sample.hostile 4 3 Sample.ready H1 H2))) _).
Defined.

